(** * fdt::vector — a shallow embedding of [fdt/random/vector.h]

    The container is modelled over an explicit store: vector objects live at
    addresses, their backing storage lives in a heap of blocks obtained from
    the allocator, and [std::size_t] is a 64-bit unsigned integer represented
    as [Z] with its wrap-around written out. *)

From Stdlib Require Import ZArith Lia.
From stdpp Require Import base option list strings gmap fin_maps.

Local Open Scope Z_scope.

(** ** [std::size_t] on an LP64 target ([sizeof(s) == 8]) *)

Module SizeT.

Definition bits : Z := 64.
Definition modulus : Z := 2 ^ bits.

(** Unsigned wrap-around of the machine operations [++], [--], [+], [-]. *)
Definition wrap (z : Z) : Z := z mod modulus.

Definition in_range (z : Z) : Prop := 0 <= z < modulus.

Definition incr (s : Z) : Z := wrap (s + 1).
Definition decr (s : Z) : Z := wrap (s - 1).

(** [s |= s >> k] *)
Definition smear (k s : Z) : Z := Z.lor s (Z.shiftr s k).

End SizeT.

(** ** [vector::alloc_size], the [sizeof(s) == 8] branch *)

Definition alloc_size (s : Z) : Z :=
  let s := SizeT.decr s in
  let s := SizeT.smear 1 s in
  let s := SizeT.smear 2 s in
  let s := SizeT.smear 4 s in
  let s := SizeT.smear 8 s in
  let s := SizeT.smear 16 s in
  let s := SizeT.smear 32 s in
  SizeT.incr s.

Arguments SizeT.wrap : simpl never.
Arguments SizeT.incr : simpl never.
Arguments SizeT.decr : simpl never.
Arguments alloc_size : simpl never.

(** Powers of two, as the values a capacity may take. *)
Definition is_pow2 (c : Z) : Prop := exists k, 0 <= k /\ c = 2 ^ k.

(** [c] is the least power of two that is at least [n]. *)
Definition least_pow2_ge (n c : Z) : Prop :=
  is_pow2 c /\ n <= c /\ forall c', is_pow2 c' -> n <= c' -> c <= c'.

(** [window k s x]: bit [i] of [s] is the disjunction of bits [i .. i+k-1]
    of [x]. *)
Definition window (k s x : Z) : Prop :=
  forall i, 0 <= i ->
    Z.testbit s i = true <-> exists j, 0 <= j < k /\ Z.testbit x (i + j) = true.

(** The six shift-or steps of [alloc_size] together. *)
Definition smear_all (x : Z) : Z :=
  SizeT.smear 32 (SizeT.smear 16 (SizeT.smear 8
    (SizeT.smear 4 (SizeT.smear 2 (SizeT.smear 1 x))))).

(** ** Exceptions, outcomes and the store *)

(** The conditions the header raises ([fdt/exception.h]) and the failure of
    [allocator_traits::allocate]. *)
Inductive exn : Set :=
| array_out_of_range
| vector_size_mismatch
| bad_alloc.

#[global] Instance exn_eq_dec : EqDecision exn.
Proof. solve_decision. Defined.

(** A call returns, throws, or has undefined behaviour (a read of raw,
    released or foreign memory, a write outside the block, an assignment to
    a slot that holds no object, a double release). The store at the point
    of return or throw is part of the outcome. *)
Inductive outcome (S A : Type) : Type :=
| Ret (a : A) (s : S)
| Throw (e : exn) (s : S)
| Undef.

Arguments Ret {S A} a s.
Arguments Throw {S A} e s.
Arguments Undef {S A}.

Abbreviation ptr := positive (only parsing).
Abbreviation loc := positive (only parsing).

(** The data members of [vector]. [alloc_] is a [std::allocator], which has
    no state; the allocator is the [allocatable] oracle of the model. *)
Record vector : Set := Vec {
  data_ : option ptr;
  size_ : Z;
  capacity_ : Z
}.

#[global] Instance vector_eq_dec : EqDecision vector.
Proof. solve_decision. Defined.

(** A [T&]: a slot of a block, [*(data_ + i)]. *)
Record reference : Set := Ref { ref_base : option ptr; ref_index : Z }.

Section Model.

Context {T : Type} `{EqDecision T}.

(** A block of slots; [None] is an allocated slot that holds no object. *)
Abbreviation block := (list (option T)) (only parsing).

Record world : Type := World {
  objs : gmap loc vector;
  heap : gmap ptr block
}.

Definition with_objs (f : gmap loc vector -> gmap loc vector) (w : world) : world :=
  World (f (objs w)) (heap w).
Definition with_heap (f : gmap ptr block -> gmap ptr block) (w : world) : world :=
  World (objs w) (f (heap w)).

(** Whether the allocator grants a request for [n] slots in a given heap. *)
Variable allocatable : gmap ptr block -> Z -> bool.

(** Value-initialisation [T()], and the element operators used by the free
    functions. *)
Variable T_default : T.
Variables T_add T_sub : T -> T -> T.

(** Whether [T] is trivially copyable, as [int] is: its assignment is then
    a plain write, also where no object was constructed. The assignment of
    a class type such as [std::string] needs an object to assign to. *)
Variable trivially_copyable : bool.

Definition M (A : Type) : Type := world -> outcome world A.

Definition ret {A} (a : A) : M A := fun w => Ret a w.
Definition throw {A} (e : exn) : M A := fun w => Throw e w.
Definition undef {A} : M A := fun _ => Undef.
Definition bind {A B} (m : M A) (f : A -> M B) : M B :=
  fun w => match m w with
           | Ret a w' => f a w'
           | Throw e w' => Throw e w'
           | Undef => Undef
           end.

Local Notation "x <- m ;; k" := (bind m (fun x => k))
  (at level 100, m at next level, right associativity).
Local Notation "m ;;; k" := (bind m (fun _ => k))
  (at level 100, right associativity).

(** *** The allocator capability *)

Definition allocate (n : Z) : M ptr := fun w =>
  if allocatable (heap w) n then
    let p := fresh (dom (heap w)) in
    Ret p (with_heap (insert p (replicate (Z.to_nat n) None)) w)
  else Throw bad_alloc w.

(** [deallocate(alloc_, p, n)]: a null [p] is accepted; otherwise [p] must be
    a block of [n] slots that is still allocated. *)
Definition deallocate (d : option ptr) (n : Z) : M unit := fun w =>
  match d with
  | None => Ret tt w
  | Some p =>
      match heap w !! p with
      | Some b => if decide (Z.of_nat (length b) = n)
                  then Ret tt (with_heap (delete p) w) else Undef
      | None => Undef
      end
  end.

Definition in_block (b : block) (i : Z) : bool :=
  (0 <=? i) && (i <? Z.of_nat (length b)).

(** [construct(alloc_, d + i, x)] *)
Definition construct (d : option ptr) (i : Z) (x : T) : M unit := fun w =>
  match d with
  | None => Undef
  | Some p =>
      match heap w !! p with
      | Some b => if in_block b i
                  then Ret tt (with_heap (insert p (<[Z.to_nat i := Some x]> b)) w)
                  else Undef
      | None => Undef
      end
  end.

(** Reading [*(d + i)]. *)
Definition load (d : option ptr) (i : Z) : M T := fun w =>
  match d with
  | None => Undef
  | Some p =>
      match heap w !! p with
      | Some b => if in_block b i
                  then match b !! Z.to_nat i with
                       | Some (Some x) => Ret x w
                       | _ => Undef
                       end
                  else Undef
      | None => Undef
      end
  end.

Definition deref (r : reference) : M T := load (ref_base r) (ref_index r).

(** The assignment [*(d + i) = x]: the slot must hold an object, unless [T]
    is trivially copyable. *)
Definition assign (d : option ptr) (i : Z) (x : T) : M unit := fun w =>
  match d with
  | None => Undef
  | Some p =>
      match heap w !! p with
      | Some b => if in_block b i
                  then match b !! Z.to_nat i with
                       | Some (Some _) =>
                           Ret tt (with_heap (insert p (<[Z.to_nat i := Some x]> b)) w)
                       | Some None =>
                           if trivially_copyable
                           then Ret tt (with_heap (insert p (<[Z.to_nat i := Some x]> b)) w)
                           else Undef
                       | None => Undef
                       end
                  else Undef
      | None => Undef
      end
  end.

(** What a [const T&] parameter or a forwarded constructor argument refers
    to: an object outside the blocks of the heap (a local variable, a
    temporary), given by its value, or a slot of a block. *)
Inductive argument : Type :=
| Outside (x : T)
| Slot (r : reference).

(** Reading the referent, which is what the copy construction inside
    [construct] does with its last argument. *)
Definition read_arg (a : argument) : M T :=
  match a with
  | Outside x => ret x
  | Slot r => deref r
  end.

(** *** Vector objects *)

Definition self (this : loc) : M vector := fun w =>
  match objs w !! this with
  | Some v => Ret v w
  | None => Undef
  end.

Definition set_self (this : loc) (v : vector) : M unit := fun w =>
  Ret tt (with_objs (insert this v) w).

(** The address of a local variable. *)
Definition local : M loc := fun w => Ret (fresh (dom (objs w))) w.

(** [for (size_t i = first; i < first + n; ++i) body(i)] *)
Fixpoint for_from (first : Z) (n : nat) (body : Z -> M unit) : M unit :=
  match n with
  | O => ret tt
  | S n' => body first ;;; for_from (first + 1) n' body
  end.

Definition for_upto (n : Z) (body : Z -> M unit) : M unit :=
  for_from 0 (Z.to_nat n) body.

(** *** Constructors and destructor *)

Definition vector_default (this : loc) : M unit :=
  set_self this (Vec None 0 0).

Definition vector_sized (this : loc) (n : Z) : M unit :=
  p <- allocate n ;;
  set_self this (Vec (Some p) n n) ;;;
  for_upto n (fun i => construct (Some p) i T_default).

Definition vector_copy (this other : loc) : M unit :=
  o <- self other ;;
  p <- allocate (capacity_ o) ;;
  set_self this (Vec (Some p) (size_ o) (capacity_ o)) ;;;
  for_upto (size_ o) (fun i =>
    x <- load (data_ o) i ;; construct (Some p) i x).

Definition vector_move (this other : loc) : M unit :=
  o <- self other ;;
  set_self this (Vec (data_ o) (size_ o) (capacity_ o)) ;;;
  set_self other (Vec None 0 0).

Definition vector_ilist (this : loc) (init : list T) : M unit :=
  let n := Z.of_nat (length init) in
  p <- allocate n ;;
  set_self this (Vec (Some p) n n) ;;;
  for_upto n (fun i =>
    match init !! Z.to_nat i with
    | Some x => construct (Some p) i x
    | None => undef
    end).

Definition vector_dtor (this : loc) : M unit :=
  v <- self this ;;
  deallocate (data_ v) (capacity_ v) ;;;
  fun w => Ret tt (with_objs (delete this) w).

(** *** Observers *)

Definition size (this : loc) : M Z := v <- self this ;; ret (size_ v).
Definition capacity (this : loc) : M Z := v <- self this ;; ret (capacity_ v).
Definition data (this : loc) : M (option ptr) := v <- self this ;; ret (data_ v).
Definition empty (this : loc) : M bool :=
  v <- self this ;; ret ((size_ v =? 0) || (capacity_ v =? 0)).

Definition at_ (this : loc) (i : Z) : M reference :=
  v <- self this ;;
  if i >=? size_ v then throw array_out_of_range
  else ret (Ref (data_ v) i).

Definition subscript (this : loc) (i : Z) : M reference :=
  v <- self this ;; ret (Ref (data_ v) i).

(** *** Capacity control *)

Definition reserve (this : loc) (n : Z) : M unit :=
  v <- self this ;;
  if n <=? capacity_ v then ret tt
  else
    a <- allocate n ;;
    for_upto (size_ v) (fun i =>
      x <- load (data_ v) i ;; construct (Some a) i x) ;;;
    deallocate (data_ v) (capacity_ v) ;;;
    set_self this (Vec (Some a) (size_ v) n).

Definition resize (this : loc) (n : Z) : M unit :=
  v <- self this ;;
  if n <=? size_ v then set_self this (Vec (data_ v) n (capacity_ v))
  else
    reserve this (alloc_size n) ;;;
    v' <- self this ;;
    set_self this (Vec (data_ v') n (capacity_ v')).

(** [std::copy(first, first + n, dest)]: element by element,
    [*(dest + i) = *(first + i)]. *)
Definition std_copy (first : option ptr) (n : Z) (dest : option ptr) : M unit :=
  for_upto n (fun i => x <- load first i ;; assign dest i x).

Definition shrink_to_fit (this : loc) : M unit :=
  v <- self this ;;
  if decide (size_ v = capacity_ v) then ret tt
  else
    a <- allocate (size_ v) ;;
    std_copy (data_ v) (size_ v) (Some a) ;;;
    deallocate (data_ v) (capacity_ v) ;;;
    set_self this (Vec (Some a) (size_ v) (size_ v)).

(** *** Modifiers *)

(** The statements both branches of [push_back] and [emplace_back] end
    with: [size_++; construct(alloc_, data_ + size_ - 1, value);] and, in
    [emplace_back], [return *(data_ + size_ - 1);]. The argument is read
    here, by [construct]. *)
Definition place (this : loc) (value : argument) : M reference :=
  v <- self this ;;
  let s := SizeT.incr (size_ v) in
  set_self this (Vec (data_ v) s (capacity_ v)) ;;;
  x <- read_arg value ;;
  construct (data_ v) (SizeT.decr s) x ;;;
  ret (Ref (data_ v) (SizeT.decr s)).

(** The shared body of [push_back] and [emplace_back]; the reference to the
    new element is what [emplace_back] returns. *)
Definition append (this : loc) (value : argument) : M reference :=
  v <- self this ;;
  if SizeT.incr (size_ v) <? capacity_ v then place this value
  else
    reserve this (alloc_size (SizeT.incr (capacity_ v))) ;;;
    place this value.

Definition push_back (this : loc) (value : argument) : M unit :=
  append this value ;;; ret tt.

Definition emplace_back (this : loc) (args : argument) : M reference :=
  append this args.

Definition pop_back (this : loc) : M unit :=
  v <- self this ;;
  if decide (size_ v = 0) then ret tt
  else set_self this (Vec (data_ v) (SizeT.decr (size_ v)) (capacity_ v)).

(** [this->swap(other)]: the three [std::swap]s of the data members. *)
Definition swap (this other : loc) : M unit :=
  a <- self this ;;
  b <- self other ;;
  set_self other a ;;;
  set_self this b.

(** *** Assignment *)

Definition assign_copy (this other : loc) : M unit :=
  if decide (other = this) then ret tt
  else
    copy <- local ;;
    vector_copy copy other ;;;
    swap copy this ;;;
    vector_dtor copy.

Definition assign_move (this other : loc) : M unit :=
  if decide (other = this) then ret tt
  else
    copy <- local ;;
    vector_move copy other ;;;
    swap copy this ;;;
    vector_dtor copy.

Definition assign_ilist (this : loc) (init : list T) : M unit :=
  copy <- local ;;
  vector_ilist copy init ;;;
  swap copy this ;;;
  vector_dtor copy.

(** *** Free functions *)

(** [l[i]] read as a value. *)
Definition elem (l : loc) (i : Z) : M T :=
  r <- subscript l i ;; deref r.

Fixpoint eq_from (l r : loc) (i : Z) (n : nat) : M bool :=
  match n with
  | O => ret true
  | S n' =>
      a <- elem l i ;;
      b <- elem r i ;;
      if negb (bool_decide (a = b)) then ret false
      else eq_from l r (i + 1) n'
  end.

Definition op_eq (l r : loc) : M bool :=
  dl <- data l ;;
  if bool_decide (dl = None) then ret false
  else
    dr <- data r ;;
    if bool_decide (dr = None) then ret false
    else
      sl <- size l ;;
      sr <- size r ;;
      if negb (sl =? sr) then ret false
      else eq_from l r 0 (Z.to_nat sl).

Definition op_ne (l r : loc) : M bool :=
  b <- op_eq l r ;; ret (negb b).

(** Stack unwinding past the local [sum]: its destructor runs, then the
    exception continues. *)
Definition unwinding (x : loc) (m : M unit) : M unit := fun w =>
  match m w with
  | Throw e w' =>
      match vector_dtor x w' with
      | Ret _ w'' => Throw e w''
      | _ => Undef
      end
  | o => o
  end.

(** The common shape of [operator+] and [operator-]; the result is the
    local [sum], returned in place. *)
Definition elementwise (op : T -> T -> T) (l r : loc) : M loc :=
  sl <- size l ;;
  sr <- size r ;;
  if negb (sl =? sr) then throw vector_size_mismatch
  else
    sum <- local ;;
    vector_default sum ;;;
    unwinding sum (for_upto sl (fun i =>
      a <- elem l i ;;
      b <- elem r i ;;
      emplace_back sum (Outside (op a b)) ;;; ret tt)) ;;;
    ret sum.

Definition op_plus : loc -> loc -> M loc := elementwise T_add.
Definition op_minus : loc -> loc -> M loc := elementwise T_sub.

End Model.

Arguments world T : clear implicits.
Arguments argument T : clear implicits.

Notation "x <- m ;; k" := (bind m (fun x => k))
  (at level 100, m at next level, right associativity).
Notation "m ;;; k" := (bind m (fun _ => k))
  (at level 100, right associativity).

(** What a call returned, and what it threw. *)
Definition returned {S A} (o : outcome S A) : option A :=
  match o with
  | Ret a _ => Some a
  | _ => None
  end.

Definition thrown {S A} (o : outcome S A) : option exn :=
  match o with
  | Throw e _ => Some e
  | _ => None
  end.

(** ** Unchecked end access, the free [swap], and a run of [push_back]s *)

Section EndAccess.

Context {T : Type} `{EqDecision T}.
Variable allocatable : gmap ptr (list (option T)) -> Z -> bool.

(** [front()]: [*data_]. *)
Definition front (this : loc) : M (T:=T) reference :=
  v <- self this ;; ret (Ref (data_ v) 0).

(** [back()]: [*(data_ + size_ - 1)]; on a vector of size 0 this is the
    slot before the block. *)
Definition back (this : loc) : M (T:=T) reference :=
  v <- self this ;; ret (Ref (data_ v) (size_ v - 1)).

(** [fdt::swap(l, r)] *)
Definition swap_free (l r : loc) : M (T:=T) unit := swap l r.

(** [x.push_back(y[i])]: the argument is the reference [y[i]], a slot of
    the block of [y]; [y] may be [x] itself. *)
Definition push_back_from (this src : loc) (i : Z) : M (T:=T) unit :=
  r <- subscript src i ;; push_back allocatable this (Slot r).

(** [for (auto y : ys) x.push_back(y);] *)
Fixpoint push_back_all (this : loc) (ys : list T) : M (T:=T) unit :=
  match ys with
  | [] => ret tt
  | y :: ys' => push_back allocatable this (Outside y) ;;; push_back_all this ys'
  end.

End EndAccess.

(** ** Abstraction of a vector object, and reachability by [push_back] *)

Section Predicates.

Context {T : Type} `{EqDecision T}.
Variable allocatable : gmap ptr (list (option T)) -> Z -> bool.
Variable trivially_copyable : bool.

(** The object [v] is valid in [w] and its live elements are exactly [xs]:
    the slots [0 .. size) of its block are constructed and hold [xs]. *)
Definition stored (w : world T) (v : vector) (xs : list T) : Prop :=
  size_ v = Z.of_nat (length xs) /\
  size_ v <= capacity_ v /\
  SizeT.in_range (capacity_ v) /\
  match data_ v with
  | None => capacity_ v = 0
  | Some p => exists b, heap w !! p = Some b /\
                        Z.of_nat (length b) = capacity_ v /\
                        take (length xs) b = Some <$> xs
  end.

(** The object at [this] is a valid vector holding [xs]. *)
Definition holds (w : world T) (this : loc) (xs : list T) : Prop :=
  exists v, objs w !! this = Some v /\ stored w v xs.

(** The heap once the storage [d] has been released. *)
Definition release (d : option ptr) (h : gmap ptr (list (option T))) :
    gmap ptr (list (option T)) :=
  match d with
  | Some p => delete p h
  | None => h
  end.

(** A block of [n] slots whose first slots hold [xs] and whose other slots
    are raw. *)
Definition block_of (xs : list T) (n : Z) : list (option T) :=
  (Some <$> xs) ++ replicate (Z.to_nat n - length xs)%nat None.

(** The object an argument refers to in the heap [h], if there is one. *)
Definition referent (h : gmap ptr (list (option T))) (a : argument T) : option T :=
  match a with
  | Outside x => Some x
  | Slot (Ref None _) => None
  | Slot (Ref (Some p) i) =>
      match h !! p with
      | Some b => if in_block b i then mjoin (b !! Z.to_nat i) else None
      | None => None
      end
  end.

(** What a [push_back] of the value [x] on the vector [v] holding [xs] is
    to leave: the object [v'] in the store [w'] is valid and holds
    [xs ++ [x]], its size is one more, every old index reads its old value
    and the new last index reads [x]. *)
Definition appended (this : loc) (v : vector) (xs : list T) (x : T)
    (w' : world T) (v' : vector) : Prop :=
  objs w' !! this = Some v' /\
  stored w' v' (xs ++ [x]) /\
  size_ v' = size_ v + 1 /\
  (forall i y, xs !! i = Some y -> elem this (Z.of_nat i) w' = Ret y w') /\
  elem this (size_ v) w' = Ret x w'.

(** The capacity [append] leaves behind, read off its two branches and the
    guard of [reserve]. *)
Definition next_capacity (s c : Z) : Z :=
  if SizeT.incr s <? c then c
  else let n := alloc_size (SizeT.incr c) in
       if n <=? c then c else n.

Arguments next_capacity : simpl never.

(** Size and capacity after [n] appends to a default-constructed vector. *)
Fixpoint fields_after (n : nat) : Z * Z :=
  match n with
  | O => (0, 0)
  | S n' => let '(s, c) := fields_after n' in (SizeT.incr s, next_capacity s c)
  end.

(** The facts about size [s] and capacity [c] that every append from the
    empty vector maintains. *)
Definition grown (s c : Z) : Prop :=
  (c = 0 \/ is_pow2 c) /\ 0 <= c <= 2 ^ 63 /\ 0 <= s /\ (c < 2 ^ 63 -> s <= c).

(** [pushed this n w]: [w] is reached from a default-constructed vector at
    [this] by calls of [push_back], [n] of which returned; calls that threw
    are part of the history too. *)
Inductive pushed (this : loc) : nat -> world T -> Prop :=
| pushed_default w :
    objs w !! this = Some (Vec None 0 0) -> pushed this O w
| pushed_ret n w (x : argument T) w' :
    pushed this n w -> push_back allocatable this x w = Ret tt w' ->
    pushed this (S n) w'
| pushed_throw n w (x : argument T) e w' :
    pushed this n w -> push_back allocatable this x w = Throw e w' ->
    pushed this n w'.

(** A computation that leaves every vector object as it is. *)
Definition heap_only {A} (m : M (T:=T) A) : Prop :=
  forall w, match m w with
            | Ret _ w' | Throw _ w' => objs w' = objs w
            | Undef => True
            end.

(** A computation that does not throw. *)
Definition no_throw {A} (m : M (T:=T) A) : Prop :=
  forall w e w', m w <> Throw e w'.

(** The body of the element-copying loop of [reserve] and the copy
    constructor. *)
Definition copy_body (src dst : option ptr) (i : Z) : M (T:=T) unit :=
  bind (load src i) (fun x => construct dst i x).

(** The state of the local [sum] of [operator+] while it is filled: [w] is
    the store at the call, [wi] the current one. The only differences are
    the object [sum] and its one block. *)
Definition sum_inv (w : world T) (sum : loc) (wi : world T) (zs : list T) : Prop :=
  exists vs, objs wi = <[sum := vs]> (objs w) /\
    stored wi vs zs /\ capacity_ vs <= 2 ^ 63 /\
    match data_ vs with
    | None => heap wi = heap w
    | Some a => heap w !! a = None /\ exists blk, heap wi = <[a := blk]> (heap w)
    end.

(** The heap while the local [sum] has the data members [vs] and holds
    [zs]: the heap of the call and the one block of [sum]. *)
Definition sum_heap (h : gmap ptr (list (option T))) (vs : vector) (zs : list T) :
    gmap ptr (list (option T)) :=
  match data_ vs with
  | None => h
  | Some a => <[a := block_of zs (capacity_ vs)]> h
  end.

(** The store while the local [sum] has the data members [vs] and holds
    [zs]. *)
Definition sum_world (w : world T) (sum : loc) (vs : vector) (zs : list T) : world T :=
  World (<[sum := vs]> (objs w)) (sum_heap (heap w) vs zs).

(** The data members of [sum] after one more [emplace_back], when it holds
    [zs] and the call started in the heap [h]: with a margin above one they
    keep block and capacity; otherwise the growth asks the allocator for
    [alloc_size (capacity + 1)] slots in the current heap, and [None] is its
    refusal. *)
Definition sum_step (h : gmap ptr (list (option T))) (vs : vector) (zs : list T) :
    option vector :=
  if size_ vs + 1 <? capacity_ vs
  then Some (Vec (data_ vs) (size_ vs + 1) (capacity_ vs))
  else
    let n := alloc_size (capacity_ vs + 1) in
    let h' := sum_heap h vs zs in
    if allocatable h' n
    then Some (Vec (Some (fresh (dom h'))) (size_ vs + 1) n)
    else None.

(** The data members of [sum] after the elements [todo] have been appended
    one by one; [None] when one of the growth requests on the way is
    refused. *)
Fixpoint sum_run (h : gmap ptr (list (option T))) (vs : vector) (zs todo : list T) :
    option vector :=
  match todo with
  | [] => Some vs
  | z :: todo' =>
      match sum_step h vs zs with
      | Some vs' => sum_run h vs' (zs ++ [z]) todo'
      | None => None
      end
  end.

(** [sum] with data members [vs] is a valid vector holding [zs] whose block
    is none of the blocks of the call's heap. *)
Definition sum_at (w : world T) (sum : loc) (vs : vector) (zs : list T) : Prop :=
  stored (sum_world w sum vs zs) vs zs /\ capacity_ vs <= 2 ^ 63 /\
  forall a, data_ vs = Some a -> heap w !! a = None.

(** The body of the loop of [operator+] and [operator-]. *)
Definition sum_body (op : T -> T -> T) (l r sum : loc) (i : Z) : M (T:=T) unit :=
  bind (elem l i) (fun a =>
  bind (elem r i) (fun b =>
  bind (emplace_back allocatable sum (Outside (op a b))) (fun _ => ret tt))).

(** What a returned sum looks like to the caller. *)
Definition elementwise_result (op : T -> T -> T) (l r : loc) (w : world T)
    (vl vr : vector) (xs ys : list T) (s : loc) (w' : world T) : Prop :=
  objs w !! s = None /\
  (exists vs, objs w' !! s = Some vs /\ size_ vs = size_ vl /\
              stored w' vs (zip_with op xs ys)) /\
  (forall i x y, xs !! i = Some x -> ys !! i = Some y ->
     elem s (Z.of_nat i) w' = Ret (op x y) w') /\
  objs w' !! l = Some vl /\ objs w' !! r = Some vr /\
  stored w' vl xs /\ stored w' vr ys /\
  (forall p, data_ vl = Some p \/ data_ vr = Some p -> heap w' !! p = heap w !! p).

(** The public operations that change a vector. *)
Inductive operation : Type :=
| Reserve (n : Z)
| Resize (n : Z)
| ShrinkToFit
| PushBack (value : argument T)
| EmplaceBack (args : argument T)
| PopBack
| Swap (other : loc)
| AssignCopy (other : loc)
| AssignMove (other : loc)
| AssignIlist (init : list T).

Definition perform (this : loc) (op : operation) : M (T:=T) unit :=
  match op with
  | Reserve n => reserve allocatable this n
  | Resize n => resize allocatable this n
  | ShrinkToFit => shrink_to_fit allocatable trivially_copyable this
  | PushBack x => push_back allocatable this x
  | EmplaceBack x => bind (emplace_back allocatable this x) (fun _ => ret tt)
  | PopBack => pop_back this
  | Swap other => swap this other
  | AssignCopy other => assign_copy allocatable this other
  | AssignMove other => assign_move this other
  | AssignIlist init => assign_ilist allocatable this init
  end.

(** [0 <= size <= capacity] on every vector of the store. *)
Definition all_size_le_capacity (w : world T) : Prop :=
  forall o v, objs w !! o = Some v -> 0 <= size_ v <= capacity_ v.

(** The calls on which the rounding of [alloc_size] does not wrap: the
    receiver exists, [resize] asks for at most [2^63] elements, and an
    append starts below a capacity of [2^63]. *)
Definition admissible (w : world T) (this : loc) (op : operation) : Prop :=
  is_Some (objs w !! this) /\
  match op with
  | Resize n => 0 <= n <= 2 ^ 63
  | PushBack _ | EmplaceBack _ =>
      forall v, objs w !! this = Some v -> capacity_ v < 2 ^ 63
  | _ => True
  end.

(** The representation invariant [0 <= size <= capacity] of the object at
    [this]. *)
Definition size_le_capacity (w : world T) (this : loc) : Prop :=
  exists v, objs w !! this = Some v /\ 0 <= size_ v <= capacity_ v.

End Predicates.

(** ** Concrete allocators and stores used to run the model *)

(** An allocator that grants every request. *)
Definition grants_all {T} : gmap ptr (list (option T)) -> Z -> bool :=
  fun _ _ => true.

(** An allocator that refuses every request. *)
Definition grants_none {T} : gmap ptr (list (option T)) -> Z -> bool :=
  fun _ _ => false.

(** Addresses of the vectors of the tests. *)
Definition v1 : loc := 1%positive.
Definition v2 : loc := 2%positive.

(** The store with no object and no block. *)
Definition nowhere (T : Type) : world T := World ∅ ∅.

(** The store with a default-constructed vector at address 1. *)
Definition fresh_world (T : Type) : world T :=
  World {[ 1%positive := Vec None 0 0 ]} ∅.

(** The store after running [m] from [w], when [m] returns. *)
Definition after {T A} (m : M (T:=T) A) (w : world T) : world T :=
  match m w with
  | Ret _ w' => w'
  | _ => w
  end.

(** A vector of [int] after one to five calls of [push_back]. *)
Definition one_pushed : world Z :=
  after (push_back grants_all 1%positive (Outside 10)) (fresh_world Z).
Definition two_pushed : world Z :=
  after (push_back grants_all 1%positive (Outside 20)) one_pushed.
Definition three_pushed : world Z :=
  after (push_back grants_all 1%positive (Outside 30)) two_pushed.
Definition four_pushed : world Z :=
  after (push_back grants_all 1%positive (Outside 40)) three_pushed.
Definition five_pushed : world Z :=
  after (push_back grants_all 1%positive (Outside 50)) four_pushed.

(** [three_pushed] with a second vector [{10, 20, 30}] at address 2 and a
    third [{1, 2}] at address 3. *)
Definition two_vectors : world Z :=
  after (vector_ilist grants_all 2%positive [10; 20; 30]) three_pushed.

Definition three_vectors : world Z :=
  after (vector_ilist grants_all 3%positive [1; 2]) two_vectors.

(** [three_vectors] with a copy of vector 1 at address 4, and that copy
    after [push_back(40)]. *)
Definition copied : world Z :=
  after (vector_copy grants_all 4%positive 1%positive) three_vectors.

Definition copied_pushed : world Z :=
  after (push_back grants_all 4%positive (Outside 40)) copied.

(** [three_vectors] after [reserve(10)] on vector 1, and after the copy
    assignment of vector 1 to vector 3. *)
Definition reserved : world Z :=
  after (reserve grants_all 1%positive 10) three_vectors.

Definition assigned : world Z :=
  after (assign_copy grants_all 3%positive 1%positive) three_vectors.

(** * Properties

    ** Size arithmetic and the rounding of [alloc_size] *)

Lemma modulus_eq : SizeT.modulus = 18446744073709551616.
Proof. reflexivity. Qed.

Lemma wrap_range z : SizeT.in_range (SizeT.wrap z).
Proof. unfold SizeT.in_range, SizeT.wrap. apply Z.mod_pos_bound. reflexivity. Qed.

Lemma wrap_small z : SizeT.in_range z -> SizeT.wrap z = z.
Proof. unfold SizeT.in_range, SizeT.wrap. intros. apply Z.mod_small. lia. Qed.

Section AllocSize.

Lemma window_init x : window 1 x x.
Proof.
  intros i Hi. split.
  - intros H. exists 0. split; [lia|]. now rewrite Z.add_0_r.
  - intros (j & Hj & H). assert (j = 0) by lia. subst. now rewrite Z.add_0_r in H.
Qed.

Lemma window_smear k s x :
  0 < k -> window k s x -> window (2 * k) (SizeT.smear k s) x.
Proof.
  intros Hk W i Hi. unfold SizeT.smear.
  rewrite Z.lor_spec, Z.shiftr_spec, orb_true_iff by lia.
  rewrite (W i Hi), (W (i + k)) by lia. split.
  - intros [(j & Hj & H) | (j & Hj & H)].
    + exists j. split; [lia | exact H].
    + exists (k + j). split; [lia|]. now replace (i + (k + j)) with (i + k + j) by lia.
  - intros (j & Hj & H). destruct (Z_lt_ge_dec j k).
    + left. exists j. split; [lia | exact H].
    + right. exists (j - k). split; [lia|].
      now replace (i + k + (j - k)) with (i + j) by lia.
Qed.

Lemma window_smear_all x : window 64 (smear_all x) x.
Proof.
  unfold smear_all.
  apply (window_smear 32); [lia|]. apply (window_smear 16); [lia|].
  apply (window_smear 8); [lia|]. apply (window_smear 4); [lia|].
  apply (window_smear 2); [lia|]. apply (window_smear 1); [lia|].
  apply window_init.
Qed.

Lemma smear_all_0 : smear_all 0 = 0.
Proof. reflexivity. Qed.

Lemma smear_all_pos x :
  0 < x < SizeT.modulus -> smear_all x = 2 ^ (Z.log2 x + 1) - 1.
Proof.
  intros Hx. pose proof (Z.log2_nonneg x) as Hn.
  assert (Hlt : Z.log2 x < 64).
  { apply Z.log2_lt_pow2; [lia|]. change (2 ^ 64) with SizeT.modulus. lia. }
  replace (2 ^ (Z.log2 x + 1) - 1) with (Z.ones (Z.log2 x + 1))
    by (rewrite Z.ones_equiv; lia).
  apply Z.bits_inj'. intros i Hi.
  destruct (Z_lt_ge_dec i (Z.log2 x + 1)) as [Hlow | Hhigh].
  - rewrite Z.ones_spec_low by lia.
    apply (window_smear_all x i Hi). exists (Z.log2 x - i). split; [lia|].
    replace (i + (Z.log2 x - i)) with (Z.log2 x) by lia.
    apply Z.bit_log2. lia.
  - rewrite Z.ones_spec_high by lia.
    destruct (Z.testbit (smear_all x) i) eqn:E; [|reflexivity].
    apply (window_smear_all x i Hi) in E. destruct E as (j & Hj & E).
    rewrite Z.bits_above_log2 in E by lia. discriminate.
Qed.

End AllocSize.

Lemma alloc_size_unfold s :
  alloc_size s = SizeT.incr (smear_all (SizeT.decr s)).
Proof. unfold alloc_size, smear_all. reflexivity. Qed.

Lemma alloc_size_1 : alloc_size 1 = 1.
Proof. reflexivity. Qed.

(** In the range where the rounded value is representable, [alloc_size]
    is [2 ^ ceil(log2 s)]. *)
Lemma alloc_size_log2_up s :
  1 <= s <= 2 ^ 63 -> alloc_size s = 2 ^ Z.log2_up s.
Proof.
  intros Hs. rewrite alloc_size_unfold.
  destruct (Z.eq_dec s 1) as [-> | Hne]; [reflexivity|].
  assert (Hd : SizeT.decr s = s - 1).
  { apply wrap_small. unfold SizeT.in_range. rewrite modulus_eq. lia. }
  rewrite Hd, smear_all_pos by (rewrite modulus_eq; lia).
  assert (Hup : Z.log2_up s = Z.log2 (s - 1) + 1).
  { unfold Z.log2_up. destruct (Z.compare_spec 1 s); try lia.
    unfold Z.succ, Z.pred. reflexivity. }
  rewrite Hup. unfold SizeT.incr.
  replace (2 ^ (Z.log2 (s - 1) + 1) - 1 + 1) with (2 ^ (Z.log2 (s - 1) + 1)) by lia.
  apply wrap_small. unfold SizeT.in_range. split.
  - apply Z.pow_nonneg. lia.
  - rewrite <- Hup. change SizeT.modulus with (2 ^ 64).
    assert (Z.log2_up s <= 63).
    { change 63 with (Z.log2_up (2 ^ 63)). apply Z.log2_up_le_mono. lia. }
    apply Z.pow_lt_mono_r; lia.
Qed.

(** Past [2 ^ 63] the final [++s] wraps to zero. *)
Lemma alloc_size_overflow s :
  2 ^ 63 < s < SizeT.modulus -> alloc_size s = 0.
Proof.
  intros Hs. rewrite alloc_size_unfold.
  assert (Hd : SizeT.decr s = s - 1).
  { apply wrap_small. unfold SizeT.in_range. lia. }
  rewrite Hd, smear_all_pos by lia.
  assert (Hl : Z.log2 (s - 1) = 63).
  { apply Z.log2_unique; [lia|]. change (2 ^ Z.succ 63) with SizeT.modulus. lia. }
  rewrite Hl. reflexivity.
Qed.

Lemma alloc_size_least s :
  1 <= s <= 2 ^ 63 -> least_pow2_ge s (alloc_size s).
Proof.
  intros Hs. rewrite alloc_size_log2_up by exact Hs.
  pose proof (Z.log2_up_nonneg s) as Hn.
  split; [exists (Z.log2_up s); split; [lia | reflexivity]|].
  destruct (Z.eq_dec s 1) as [-> | Hne].
  - split; [reflexivity|]. intros c' (k & Hk & ->) _.
    change (2 ^ Z.log2_up 1) with 1.
    assert (0 < 2 ^ k) by (apply Z.pow_pos_nonneg; lia). lia.
  - destruct (Z.log2_up_spec s) as [Hlo Hhi]; [lia|].
    split; [exact Hhi|]. intros c' (k & Hk & ->) Hle.
    apply Z.pow_le_mono_r; [lia|].
    destruct (Z_lt_ge_dec k (Z.log2_up s)) as [Hlt|]; [|lia].
    exfalso. assert (2 ^ k <= 2 ^ Z.pred (Z.log2_up s)).
    { apply Z.pow_le_mono_r; lia. }
    lia.
Qed.

(** ** The monad and the primitives *)

Section Monad.

Context {T : Type} `{EqDecision T}.
Variable allocatable : gmap ptr (list (option T)) -> Z -> bool.

Lemma bind_Ret {A B} (m : M (T:=T) A) (f : A -> M B) w a w' :
  m w = Ret a w' -> bind m f w = f a w'.
Proof. unfold bind. now intros ->. Qed.

Lemma bind_Throw {A B} (m : M (T:=T) A) (f : A -> M B) w e w' :
  m w = Throw e w' -> bind m f w = Throw e w'.
Proof. unfold bind. now intros ->. Qed.

Lemma bind_inv_Ret {A B} (m : M (T:=T) A) (f : A -> M B) w b w'' :
  bind m f w = Ret b w'' -> exists a w', m w = Ret a w' /\ f a w' = Ret b w''.
Proof. unfold bind. destruct (m w); [eauto | discriminate..]. Qed.

Lemma bind_inv_Throw {A B} (m : M (T:=T) A) (f : A -> M B) w e w'' :
  bind m f w = Throw e w'' ->
  m w = Throw e w'' \/ exists a w', m w = Ret a w' /\ f a w' = Throw e w''.
Proof.
  unfold bind. destruct (m w); [eauto | | discriminate].
  intros [= -> ->]. now left.
Qed.

Lemma self_Some (w : world T) this v :
  objs w !! this = Some v -> self this w = Ret v w.
Proof. unfold self. now intros ->. Qed.

Lemma self_inv (w w' : world T) this v :
  self this w = Ret v w' -> w' = w /\ objs w !! this = Some v.
Proof. unfold self. destruct (objs w !! this); [|discriminate]. now intros [= -> ->]. Qed.

Lemma heap_only_bind {A B} (m : M (T:=T) A) (f : A -> M B) :
  heap_only m -> (forall a, heap_only (f a)) -> heap_only (bind m f).
Proof.
  intros Hm Hf w. unfold bind. specialize (Hm w).
  destruct (m w) as [a w1 | e w1 |]; [|exact Hm|exact I].
  specialize (Hf a w1). destruct (f a w1); congruence.
Qed.

Lemma no_throw_bind {A B} (m : M (T:=T) A) (f : A -> M B) :
  no_throw m -> (forall a, no_throw (f a)) -> no_throw (bind m f).
Proof.
  intros Hm Hf w e w' Hb. apply bind_inv_Throw in Hb as [Hb | (a & w1 & _ & Hb)].
  - exact (Hm _ _ _ Hb).
  - exact (Hf _ _ _ _ Hb).
Qed.

Lemma heap_only_ret {A} (a : A) : heap_only (ret (T:=T) a).
Proof. intros w. reflexivity. Qed.

Lemma no_throw_ret {A} (a : A) : no_throw (ret (T:=T) a).
Proof. intros w e w'. discriminate. Qed.

Lemma heap_only_allocate n : heap_only (allocate allocatable n).
Proof. intros w. unfold allocate. now destruct (allocatable (heap w) n). Qed.

Lemma heap_only_deallocate d n : heap_only (deallocate (T:=T) d n).
Proof.
  intros w. unfold deallocate. destruct d as [p|]; [|reflexivity].
  destruct (heap w !! p) as [b|]; [|exact I]. now case_decide.
Qed.

Lemma no_throw_deallocate d n : no_throw (deallocate (T:=T) d n).
Proof.
  intros w e w'. unfold deallocate. destruct d as [p|]; [|discriminate].
  destruct (heap w !! p) as [b|]; [|discriminate]. case_decide; discriminate.
Qed.

Lemma heap_only_construct d i (x : T) : heap_only (construct d i x).
Proof.
  intros w. unfold construct. destruct d as [p|]; [|exact I].
  destruct (heap w !! p) as [b|]; [|exact I]. now destruct (in_block b i).
Qed.

Lemma no_throw_construct d i (x : T) : no_throw (construct d i x).
Proof.
  intros w e w'. unfold construct. destruct d as [p|]; [|discriminate].
  destruct (heap w !! p) as [b|]; [|discriminate]. destruct (in_block b i); discriminate.
Qed.

Lemma heap_only_load d i : heap_only (load (T:=T) d i).
Proof.
  intros w. unfold load. destruct d as [p|]; [|exact I].
  destruct (heap w !! p) as [b|]; [|exact I].
  destruct (in_block b i); [|exact I].
  now destruct (b !! Z.to_nat i) as [[x|]|].
Qed.

Lemma no_throw_load d i : no_throw (load (T:=T) d i).
Proof.
  intros w e w'. unfold load. destruct d as [p|]; [|discriminate].
  destruct (heap w !! p) as [b|]; [|discriminate].
  destruct (in_block b i); [|discriminate].
  destruct (b !! Z.to_nat i) as [[x|]|]; discriminate.
Qed.

Lemma heap_only_read_arg (a : argument T) : heap_only (read_arg a).
Proof. destruct a as [x|r]; [apply heap_only_ret | apply heap_only_load]. Qed.

Lemma no_throw_read_arg (a : argument T) : no_throw (read_arg a).
Proof. destruct a as [x|r]; [apply no_throw_ret | apply no_throw_load]. Qed.

Lemma heap_only_assign tc d i (x : T) : heap_only (assign tc d i x).
Proof.
  intros w. unfold assign. destruct d as [p|]; [|exact I].
  destruct (heap w !! p) as [b|]; [|exact I].
  destruct (in_block b i); [|exact I].
  destruct (b !! Z.to_nat i) as [[y|]|]; [reflexivity | | exact I].
  now destruct tc.
Qed.

Lemma no_throw_assign tc d i (x : T) : no_throw (assign tc d i x).
Proof.
  intros w e w'. unfold assign. destruct d as [p|]; [|discriminate].
  destruct (heap w !! p) as [b|]; [|discriminate].
  destruct (in_block b i); [|discriminate].
  destruct (b !! Z.to_nat i) as [[y|]|]; [discriminate | | discriminate].
  destruct tc; discriminate.
Qed.

Lemma heap_only_for_from body first n :
  (forall i, heap_only (body i)) -> heap_only (for_from (T:=T) first n body).
Proof.
  intros Hb. revert first. induction n as [|n IH]; intros first; simpl.
  - apply heap_only_ret.
  - apply heap_only_bind; [apply Hb | intros _; apply IH].
Qed.

Lemma no_throw_for_from body first n :
  (forall i, no_throw (body i)) -> no_throw (for_from (T:=T) first n body).
Proof.
  intros Hb. revert first. induction n as [|n IH]; intros first; simpl.
  - apply no_throw_ret.
  - apply no_throw_bind; [apply Hb | intros _; apply IH].
Qed.

Lemma heap_only_copy src dst n :
  heap_only (for_upto n (copy_body (T:=T) src dst)).
Proof.
  apply heap_only_for_from. intros i. apply heap_only_bind.
  - apply heap_only_load.
  - intros x. apply heap_only_construct.
Qed.

Lemma no_throw_copy src dst n :
  no_throw (for_upto n (copy_body (T:=T) src dst)).
Proof.
  apply no_throw_for_from. intros i. apply no_throw_bind.
  - apply no_throw_load.
  - intros x. apply no_throw_construct.
Qed.

Lemma heap_only_std_copy tc src n dst :
  heap_only (std_copy (T:=T) tc src n dst).
Proof.
  apply heap_only_for_from. intros i. apply heap_only_bind.
  - apply heap_only_load.
  - intros x. apply heap_only_assign.
Qed.

Lemma no_throw_std_copy tc src n dst :
  no_throw (std_copy (T:=T) tc src n dst).
Proof.
  apply no_throw_for_from. intros i. apply no_throw_bind.
  - apply no_throw_load.
  - intros x. apply no_throw_assign.
Qed.

End Monad.

(** ** What [reserve] and [append] do to the data members *)

Section Fields.

Context {T : Type} `{EqDecision T}.
Variable allocatable : gmap ptr (list (option T)) -> Z -> bool.

Lemma heap_only_Ret {A} (m : M (T:=T) A) w a w' :
  heap_only m -> m w = Ret a w' -> objs w' = objs w.
Proof. intros Hm E. specialize (Hm w). now rewrite E in Hm. Qed.

Lemma vector_eta v : Vec (data_ v) (size_ v) (capacity_ v) = v.
Proof. now destruct v. Qed.

Lemma allocate_Throw n (w : world T) e w' :
  allocate allocatable n w = Throw e w' -> e = bad_alloc /\ w' = w.
Proof.
  unfold allocate. destruct (allocatable (heap w) n); [discriminate|].
  now intros [= <- <-].
Qed.

Lemma self_no_throw this : no_throw (self (T:=T) this).
Proof. intros w e w'. unfold self. destruct (objs w !! this); discriminate. Qed.

Lemma reserve_Ret this n (w w' : world T) v :
  objs w !! this = Some v ->
  reserve allocatable this n w = Ret tt w' ->
  exists d, objs w' =
    <[this := Vec d (size_ v) (if n <=? capacity_ v then capacity_ v else n)]> (objs w).
Proof.
  intros Hv. unfold reserve. rewrite (bind_Ret _ _ _ _ _ (self_Some _ _ _ Hv)).
  destruct (n <=? capacity_ v).
  - intros [= <-]. exists (data_ v). now rewrite vector_eta, insert_id.
  - intros E.
    apply bind_inv_Ret in E as (a & w1 & E1 & E).
    apply bind_inv_Ret in E as ([] & w2 & E2 & E).
    apply bind_inv_Ret in E as ([] & w3 & E3 & E).
    apply (heap_only_Ret _ _ _ _ (heap_only_allocate _ _)) in E1.
    apply (heap_only_Ret _ _ _ _ (heap_only_copy _ _ _)) in E2.
    apply (heap_only_Ret _ _ _ _ (heap_only_deallocate _ _)) in E3.
    injection E as <-. exists (Some a). simpl. congruence.
Qed.

Lemma reserve_Throw this n (w w' : world T) e :
  reserve allocatable this n w = Throw e w' -> e = bad_alloc /\ w' = w.
Proof.
  unfold reserve. intros E.
  apply bind_inv_Throw in E as [E | (v & w1 & E1 & E)].
  { now apply self_no_throw in E. }
  apply self_inv in E1 as [-> _].
  destruct (n <=? capacity_ v); [discriminate|].
  apply bind_inv_Throw in E as [E | (a & w1 & _ & E)].
  { now apply allocate_Throw in E. }
  apply bind_inv_Throw in E as [E | ([] & w2 & _ & E)].
  { now apply no_throw_copy in E. }
  apply bind_inv_Throw in E as [E | ([] & w3 & _ & E)].
  { now apply no_throw_deallocate in E. }
  discriminate.
Qed.

Lemma place_Ret this a (w w' : world T) v r :
  objs w !! this = Some v ->
  place this a w = Ret r w' ->
  objs w' = <[this := Vec (data_ v) (SizeT.incr (size_ v)) (capacity_ v)]> (objs w).
Proof.
  intros Hv. unfold place. rewrite (bind_Ret _ _ _ _ _ (self_Some _ _ _ Hv)).
  intros E.
  apply bind_inv_Ret in E as ([] & w1 & [= <-] & E).
  apply bind_inv_Ret in E as (x & w2 & E2 & E).
  apply bind_inv_Ret in E as ([] & w3 & E3 & [= _ <-]).
  apply (heap_only_Ret _ _ _ _ (heap_only_read_arg _)) in E2.
  apply (heap_only_Ret _ _ _ _ (heap_only_construct _ _ _)) in E3.
  rewrite E3, E2. reflexivity.
Qed.

Lemma place_no_throw this a : no_throw (place (T:=T) this a).
Proof.
  intros w e w' E. unfold place in E.
  apply bind_inv_Throw in E as [E | (v & w1 & _ & E)].
  { now apply self_no_throw in E. }
  apply bind_inv_Throw in E as [E | ([] & w2 & _ & E)]; [discriminate|].
  apply bind_inv_Throw in E as [E | (x & w3 & _ & E)].
  { now apply no_throw_read_arg in E. }
  apply bind_inv_Throw in E as [E | ([] & w4 & _ & E)]; [|discriminate].
  now apply no_throw_construct in E.
Qed.

Lemma append_Ret this a (w w' : world T) v r :
  objs w !! this = Some v ->
  append allocatable this a w = Ret r w' ->
  exists d, objs w' =
    <[this := Vec d (SizeT.incr (size_ v)) (next_capacity (size_ v) (capacity_ v))]>
      (objs w).
Proof.
  intros Hv. unfold append, next_capacity.
  rewrite (bind_Ret _ _ _ _ _ (self_Some _ _ _ Hv)).
  generalize (alloc_size (SizeT.incr (capacity_ v))). intros n.
  destruct (SizeT.incr (size_ v) <? capacity_ v).
  - intros E. exists (data_ v). exact (place_Ret _ _ _ _ _ _ Hv E).
  - intros E.
    apply bind_inv_Ret in E as ([] & w1 & E1 & E).
    apply (reserve_Ret _ _ _ _ _ Hv) in E1 as (d & E1).
    assert (Hv1 : objs w1 !! this =
      Some (Vec d (size_ v) (if n <=? capacity_ v then capacity_ v else n))).
    { rewrite E1. apply lookup_insert_eq. }
    apply (place_Ret _ _ _ _ _ _ Hv1) in E.
    exists d. rewrite E. cbn [data_ size_ capacity_].
    rewrite E1. apply insert_insert_eq.
Qed.

Lemma append_Throw this a (w w' : world T) e :
  append allocatable this a w = Throw e w' -> e = bad_alloc /\ w' = w.
Proof.
  unfold append. intros E.
  apply bind_inv_Throw in E as [E | (v & w1 & E1 & E)].
  { now apply self_no_throw in E. }
  apply self_inv in E1 as [-> _].
  destruct (SizeT.incr (size_ v) <? capacity_ v).
  - now apply place_no_throw in E.
  - apply bind_inv_Throw in E as [E | ([] & w1 & _ & E)].
    { now apply reserve_Throw in E. }
    now apply place_no_throw in E.
Qed.

Lemma push_back_Ret this a (w w' : world T) v :
  objs w !! this = Some v ->
  push_back allocatable this a w = Ret tt w' ->
  exists d, objs w' =
    <[this := Vec d (SizeT.incr (size_ v)) (next_capacity (size_ v) (capacity_ v))]>
      (objs w).
Proof.
  intros Hv E. unfold push_back in E.
  apply bind_inv_Ret in E as (r & w1 & E & [= <-]).
  exact (append_Ret _ _ _ _ _ _ Hv E).
Qed.

Lemma push_back_Throw this a (w w' : world T) e :
  push_back allocatable this a w = Throw e w' -> e = bad_alloc /\ w' = w.
Proof.
  unfold push_back. intros E.
  apply bind_inv_Throw in E as [E | (r & w1 & _ & E)]; [|discriminate].
  exact (append_Throw _ _ _ _ _ E).
Qed.

End Fields.

(** ** Growth by [push_back] from the empty vector *)

Section Growth.

Context {T : Type} `{EqDecision T}.
Variable allocatable : gmap ptr (list (option T)) -> Z -> bool.

Lemma alloc_size_bounds s :
  1 <= s <= 2 ^ 63 -> s <= alloc_size s <= 2 ^ 63 /\ is_pow2 (alloc_size s).
Proof.
  intros Hs. destruct (alloc_size_least s Hs) as (Hp & Hge & Hmin).
  repeat split; [exact Hge | | exact Hp].
  apply Hmin; [|lia]. exists 63. split; [lia | reflexivity].
Qed.

Lemma next_capacity_top s : next_capacity s (2 ^ 63) = 2 ^ 63.
Proof.
  unfold next_capacity. destruct (SizeT.incr s <? 2 ^ 63); reflexivity.
Qed.

Lemma grown_step s c :
  grown s c ->
  grown (SizeT.incr s) (next_capacity s c) /\
  (next_capacity s c <> c ->
     least_pow2_ge (c + 1) (next_capacity s c) /\
     SizeT.incr s = s + 1 /\ s + 1 <= next_capacity s c).
Proof.
  intros (Hc & Hr & Hs & Hle).
  assert (Hi : 0 <= SizeT.incr s) by apply wrap_range.
  destruct (Z.eq_dec c (2 ^ 63)) as [-> | Hne].
  { rewrite next_capacity_top. split; [|congruence].
    repeat split; auto; lia. }
  assert (Hlt : c < 2 ^ 63) by lia. specialize (Hle Hlt).
  assert (Hs1 : SizeT.incr s = s + 1).
  { apply wrap_small. unfold SizeT.in_range. rewrite modulus_eq. lia. }
  assert (Hc1 : SizeT.incr c = c + 1).
  { apply wrap_small. unfold SizeT.in_range. rewrite modulus_eq. lia. }
  unfold next_capacity. rewrite Hs1, Hc1.
  destruct (Z.ltb_spec (s + 1) c) as [Hdirect | Hfull].
  { split; [|congruence]. repeat split; auto; lia. }
  destruct (alloc_size_bounds (c + 1)) as ((Hge & Hmax) & Hp); [lia|].
  destruct (Z.leb_spec (alloc_size (c + 1)) c) as [Hno | Hgrow]; [lia|].
  split.
  - repeat split; auto; lia.
  - intros _. split; [apply alloc_size_least; lia|]. lia.
Qed.

Lemma grown_fields_after n : grown (fst (fields_after n)) (snd (fields_after n)).
Proof.
  induction n as [|n IH]; simpl.
  - repeat split; auto; lia.
  - destruct (fields_after n) as [s c]. simpl in *. apply grown_step, IH.
Qed.

Lemma pushed_fields this n (w : world T) :
  pushed allocatable this n w ->
  exists d, objs w !! this =
    Some (Vec d (fst (fields_after n)) (snd (fields_after n))).
Proof.
  induction 1 as [w Hw | n w x w' _ (d & IH) E | n w x e w' _ IH E].
  - exists None. exact Hw.
  - apply (push_back_Ret _ _ _ _ _ _ IH) in E as (d' & ->).
    exists d'. rewrite lookup_insert_eq. simpl.
    now destruct (fields_after n).
  - apply push_back_Throw in E as [_ ->]. exact IH.
Qed.

End Growth.

Section GrowthClaims.

Context {T : Type} `{EqDecision T}.
Variable allocatable : gmap ptr (list (option T)) -> Z -> bool.

(** C1 (amended). From a default-constructed vector, after any history of
    [push_back] calls the capacity is 0 or a power of two; a call that
    changes the capacity leaves the least power of two that is at least the
    old capacity plus one, which is at least the new size; and after five
    calls that returned the capacity is 8. *)
Theorem push_back_capacity_pow2 this n (w : world T) :
  pushed allocatable this n w ->
  exists v, objs w !! this = Some v /\
    size_ v = fst (fields_after n) /\
    (capacity_ v = 0 \/ is_pow2 (capacity_ v)) /\
    (n = 5%nat -> capacity_ v = 8) /\
    forall x w', push_back allocatable this x w = Ret tt w' ->
      exists v', objs w' !! this = Some v' /\
        (capacity_ v' = 0 \/ is_pow2 (capacity_ v')) /\
        (capacity_ v' <> capacity_ v ->
           least_pow2_ge (capacity_ v + 1) (capacity_ v') /\
           size_ v' = size_ v + 1 /\
           size_ v' <= capacity_ v').
Proof.
  intros Hp. destruct (pushed_fields _ _ _ _ Hp) as (d & Hv).
  pose proof (grown_fields_after n) as Hg.
  eexists. split; [exact Hv|]. simpl.
  split; [reflexivity|].
  split; [apply Hg|].
  split; [intros ->; reflexivity|].
  intros x w' E.
  apply (push_back_Ret _ _ _ _ _ _ Hv) in E as (d' & ->).
  eexists. rewrite lookup_insert_eq. split; [reflexivity|]. simpl.
  destruct (grown_step _ _ Hg) as [Hg' Hgrow].
  split; [apply Hg'|].
  intros Hne. destruct (Hgrow Hne) as (Hl & Hs & Hle).
  rewrite Hs. auto.
Qed.

End GrowthClaims.

(** Three and five successful [push_back]s on a vector of [int]. *)
Lemma pushed_three :
  pushed (T:=Z) grants_all 1%positive 3 three_pushed.
Proof.
  apply pushed_ret with (w := two_pushed) (x := Outside 30); [|vm_compute; reflexivity].
  apply pushed_ret with (w := one_pushed) (x := Outside 20); [|vm_compute; reflexivity].
  apply pushed_ret with (w := fresh_world Z) (x := Outside 10); [|vm_compute; reflexivity].
  apply pushed_default. reflexivity.
Defined.

(** Five calls from empty on a vector of [int]: capacity 8. *)
Lemma push_back_capacity_pow2_witness :
  pushed (T:=Z) grants_all 1%positive 5 five_pushed /\
  exists v, objs five_pushed !! 1%positive = Some v /\ capacity_ v = 8.
Proof.
  assert (Hp : pushed (T:=Z) grants_all 1%positive 5 five_pushed).
  { apply pushed_ret with (w := four_pushed) (x := Outside 50); [|vm_compute; reflexivity].
    apply pushed_ret with (w := three_pushed) (x := Outside 40); [|vm_compute; reflexivity].
    exact pushed_three. }
  split; [exact Hp|].
  destruct (push_back_capacity_pow2 grants_all 1%positive 5 _ Hp)
    as (v & Hv & _ & _ & H8 & _).
  exists v. split; [exact Hv | apply H8; reflexivity].
Defined.

(** C1 as stated fails: the fourth [push_back] from empty reallocates and
    leaves capacity 8, while the least power of two that is at least the
    size is 4, whether the size is read after the call (4) or before (3). *)
Lemma push_back_growth_exceeds_least_pow2 :
  exists w' v v',
    pushed (T:=Z) grants_all 1%positive 3 three_pushed /\
    push_back grants_all 1%positive (Outside 40) three_pushed = Ret tt w' /\
    objs three_pushed !! 1%positive = Some v /\
    objs w' !! 1%positive = Some v' /\
    capacity_ v' <> capacity_ v /\
    size_ v = 3 /\ size_ v' = 4 /\ capacity_ v' = 8 /\
    ~ least_pow2_ge (size_ v') (capacity_ v') /\
    ~ least_pow2_ge (size_ v) (capacity_ v').
Proof.
  exists four_pushed,
    (Vec (Some 3%positive) 3 4), (Vec (Some 4%positive) 4 8).
  split; [exact pushed_three|].
  split; [vm_compute; reflexivity|].
  split; [vm_compute; reflexivity|].
  split; [vm_compute; reflexivity|].
  cbn [size_ capacity_]. split; [discriminate|]. do 3 (split; [reflexivity|]).
  assert (P4 : is_pow2 4) by (exists 2; split; [lia | reflexivity]).
  split; intros (_ & _ & Hmin); specialize (Hmin 4 P4); lia.
Qed.

(** ** [resize] past half of the [size_t] range *)

Section ResizeOverflow.

Context {T : Type} `{EqDecision T}.
Variable allocatable : gmap ptr (list (option T)) -> Z -> bool.

(** For a request above [2 ^ 63] the rounded target is 0, [reserve] returns
    at its guard, and the size is raised all the same. *)
Lemma resize_beyond_half this n (w : world T) v :
  objs w !! this = Some v ->
  2 ^ 63 < n < SizeT.modulus -> size_ v < n -> 0 <= capacity_ v ->
  resize allocatable this n w =
    Ret tt (with_objs (insert this (Vec (data_ v) n (capacity_ v))) w).
Proof.
  intros Hv Hn Hs Hc. unfold resize.
  rewrite (bind_Ret _ _ _ _ _ (self_Some _ _ _ Hv)).
  destruct (Z.leb_spec n (size_ v)) as [|_]; [lia|].
  rewrite alloc_size_overflow by exact Hn.
  assert (Hr : reserve allocatable this 0 w = Ret tt w).
  { unfold reserve. rewrite (bind_Ret _ _ _ _ _ (self_Some _ _ _ Hv)).
    destruct (Z.leb_spec 0 (capacity_ v)); [reflexivity | lia]. }
  rewrite (bind_Ret _ _ _ _ _ Hr).
  now rewrite (bind_Ret _ _ _ _ _ (self_Some _ _ _ Hv)).
Qed.

(** C8 (the code departs from the invariant). On a default-constructed
    vector, [resize(2^63 + 1)] returns without allocating and leaves
    [size = 2^63 + 1] above [capacity = 0], with null storage. *)
Theorem resize_breaks_size_le_capacity this (w : world T) :
  exists w',
    (bind (vector_default this) (fun _ => resize allocatable this (2 ^ 63 + 1))) w
      = Ret tt w' /\
    objs w' !! this = Some (Vec None (2 ^ 63 + 1) 0) /\
    heap w' = heap w /\
    ~ size_le_capacity w' this /\
    ~ all_size_le_capacity w'.
Proof.
  eexists. split.
  - unfold bind at 1. unfold vector_default, set_self.
    apply (resize_beyond_half this (2 ^ 63 + 1) _ (Vec None 0 0)).
    + cbn [objs with_objs]. apply lookup_insert_eq.
    + rewrite modulus_eq. lia.
    + cbn [size_]. lia.
    + reflexivity.
  - cbn [objs heap with_objs data_ capacity_].
    split; [apply lookup_insert_eq|]. split; [reflexivity|].
    split.
    + intros (v & Hv & Hle). cbn [objs with_objs] in Hv.
      rewrite lookup_insert_eq in Hv.
      injection Hv as <-. cbn [size_ capacity_] in Hle. lia.
    + intros Hall.
      specialize (Hall this (Vec None (2 ^ 63 + 1) 0) (lookup_insert_eq _ _ _)).
      cbn [size_ capacity_] in Hall. lia.
Qed.

End ResizeOverflow.

(** ** The storage of a valid vector *)

Section Storage.

Context {T : Type} `{EqDecision T}.
Variable allocatable : gmap ptr (list (option T)) -> Z -> bool.

Lemma world_eta (w : world T) : World (objs w) (heap w) = w.
Proof. now destruct w. Qed.

Lemma load_Some (w : world T) p b i x :
  heap w !! p = Some b -> b !! i = Some (Some x) ->
  load (Some p) (Z.of_nat i) w = Ret x w.
Proof.
  intros Hp Hi. unfold load. rewrite Hp.
  pose proof (lookup_lt_Some _ _ _ Hi) as Hlt.
  unfold in_block.
  destruct (Z.leb_spec 0 (Z.of_nat i)); [|lia].
  destruct (Z.ltb_spec (Z.of_nat i) (Z.of_nat (length b))); [|lia].
  cbn [andb]. now rewrite Nat2Z.id, Hi.
Qed.

Lemma construct_Some (w : world T) p b i x :
  heap w !! p = Some b -> (i < length b)%nat ->
  construct (Some p) (Z.of_nat i) x w =
    Ret tt (with_heap (insert p (<[i := Some x]> b)) w).
Proof.
  intros Hp Hi. unfold construct. rewrite Hp. unfold in_block.
  destruct (Z.leb_spec 0 (Z.of_nat i)); [|lia].
  destruct (Z.ltb_spec (Z.of_nat i) (Z.of_nat (length b))); [|lia].
  cbn [andb]. now rewrite Nat2Z.id.
Qed.

Lemma block_of_length (xs : list T) n :
  Z.of_nat (length xs) <= n -> Z.of_nat (length (block_of xs n)) = n.
Proof.
  intros Hn. unfold block_of. rewrite length_app, length_fmap, length_replicate. lia.
Qed.

Lemma block_of_take (xs : list T) n :
  take (length xs) (block_of xs n) = Some <$> xs.
Proof.
  unfold block_of.
  rewrite <- (length_fmap Some xs). apply take_app_length.
Qed.

Lemma block_of_snoc (xs : list T) x n :
  Z.of_nat (length xs) < n ->
  <[length xs := Some x]> (block_of xs n) = block_of (xs ++ [x]) n.
Proof.
  intros Hn. unfold block_of.
  rewrite <- (length_fmap Some xs) at 1.
  rewrite insert_app_r_alt by lia. rewrite Nat.sub_diag.
  destruct (Z.to_nat n - length xs)%nat as [|k] eqn:Hk; [lia|].
  rewrite length_app, fmap_app. cbn [length fmap list_fmap replicate].
  replace (Z.to_nat n - (length xs + 1))%nat with k by lia.
  cbn. now rewrite <- app_assoc.
Qed.

(** Slot [i] of a block whose prefix holds [xs]. *)
Lemma prefix_lookup (b : list (option T)) xs i x :
  take (length xs) b = Some <$> xs -> xs !! i = Some x ->
  b !! i = Some (Some x).
Proof.
  intros Ht Hi. pose proof (lookup_lt_Some _ _ _ Hi) as Hlt.
  rewrite <- (lookup_take_lt b (length xs) i) by exact Hlt.
  now rewrite Ht, list_lookup_fmap, Hi.
Qed.

Lemma prefix_length (b : list (option T)) (xs : list T) :
  take (length xs) b = Some <$> xs -> (length xs <= length b)%nat.
Proof.
  intros Ht. apply (f_equal length) in Ht.
  rewrite length_take, length_fmap in Ht. lia.
Qed.

(** The copy loop, started with [done] already in place. *)
Lemma copy_loop p a src todo : forall done k (w : world T),
  p <> a ->
  heap w !! p = Some src ->
  (forall i x, (done ++ todo) !! i = Some x -> src !! i = Some (Some x)) ->
  heap w !! a = Some ((Some <$> done) ++ replicate k None) ->
  (length todo <= k)%nat ->
  for_from (Z.of_nat (length done)) (length todo)
      (copy_body (Some p) (Some a)) w =
    Ret tt (with_heap
      (insert a ((Some <$> (done ++ todo)) ++ replicate (k - length todo) None)) w).
Proof.
  induction todo as [|y todo IH]; intros done k w Hne Hp Hsrc Ha Hk.
  - cbn [length for_from]. rewrite app_nil_r, Nat.sub_0_r.
    unfold ret, with_heap. rewrite insert_id by exact Ha.
    now rewrite world_eta.
  - cbn [length for_from]. destruct k as [|k]; [cbn in Hk; lia|].
    assert (Hy : src !! length done = Some (Some y)).
    { apply Hsrc. now rewrite lookup_app_r, Nat.sub_diag by lia. }
    assert (Hstep : copy_body (Some p) (Some a) (Z.of_nat (length done)) w =
      Ret tt (with_heap
        (insert a (<[length done := Some y]>
                     ((Some <$> done) ++ replicate (S k) None))) w)).
    { unfold copy_body. rewrite (bind_Ret _ _ _ _ _ (load_Some _ _ _ _ _ Hp Hy)).
      apply construct_Some; [exact Ha|].
      rewrite length_app, length_fmap, length_replicate. lia. }
    rewrite (bind_Ret _ _ _ _ _ Hstep). clear Hstep.
    rewrite <- (length_fmap Some done) at 2.
    rewrite insert_app_r_alt by lia. rewrite Nat.sub_diag.
    cbn [replicate insert list_insert].
    replace (Z.of_nat (length done) + 1) with (Z.of_nat (length (done ++ [y])))
      by (rewrite length_app; cbn; lia).
    rewrite (IH (done ++ [y]) k).
    + unfold with_heap. cbn [objs heap]. rewrite insert_insert_eq.
      rewrite <- app_assoc. cbn [app length]. now rewrite Nat.sub_succ.
    + exact Hne.
    + cbn [heap with_heap]. now rewrite lookup_insert_ne by congruence.
    + rewrite <- app_assoc. exact Hsrc.
    + cbn [heap with_heap]. rewrite lookup_insert_eq.
      now rewrite fmap_app, <- app_assoc.
    + cbn in Hk. lia.
Qed.

(** Assignment to a slot of a trivially copyable type is a plain write. *)
Lemma assign_trivial (w : world T) p b i x :
  heap w !! p = Some b -> (i < length b)%nat ->
  assign true (Some p) (Z.of_nat i) x w =
    Ret tt (with_heap (insert p (<[i := Some x]> b)) w).
Proof.
  intros Hp Hi. unfold assign. rewrite Hp. unfold in_block.
  destruct (Z.leb_spec 0 (Z.of_nat i)); [|lia].
  destruct (Z.ltb_spec (Z.of_nat i) (Z.of_nat (length b))); [|lia].
  cbn [andb]. rewrite Nat2Z.id.
  destruct (b !! i) as [[y|]|] eqn:Hb; [reflexivity | reflexivity |].
  apply lookup_ge_None in Hb. lia.
Qed.

(** Assignment to a raw slot of a type that is not trivially copyable. *)
Lemma assign_raw (w : world T) p b i x :
  heap w !! p = Some b -> b !! i = Some None ->
  assign false (Some p) (Z.of_nat i) x w = Undef.
Proof.
  intros Hp Hi. unfold assign. rewrite Hp.
  destruct (in_block b (Z.of_nat i)); [|reflexivity].
  now rewrite Nat2Z.id, Hi.
Qed.

(** The loop of [std::copy] on a trivially copyable type, started with
    [done] already in place. *)
Lemma assign_loop p a src todo : forall done k (w : world T),
  p <> a ->
  heap w !! p = Some src ->
  (forall i x, (done ++ todo) !! i = Some x -> src !! i = Some (Some x)) ->
  heap w !! a = Some ((Some <$> done) ++ replicate k None) ->
  (length todo <= k)%nat ->
  for_from (Z.of_nat (length done)) (length todo)
      (fun i => x <- load (Some p) i ;; assign true (Some a) i x) w =
    Ret tt (with_heap
      (insert a ((Some <$> (done ++ todo)) ++ replicate (k - length todo) None)) w).
Proof.
  induction todo as [|y todo IH]; intros done k w Hne Hp Hsrc Ha Hk.
  - cbn [length for_from]. rewrite app_nil_r, Nat.sub_0_r.
    unfold ret, with_heap. rewrite insert_id by exact Ha.
    now rewrite world_eta.
  - cbn [length for_from]. destruct k as [|k]; [cbn in Hk; lia|].
    assert (Hy : src !! length done = Some (Some y)).
    { apply Hsrc. now rewrite lookup_app_r, Nat.sub_diag by lia. }
    assert (Hstep :
      (x <- load (Some p) (Z.of_nat (length done)) ;;
       assign true (Some a) (Z.of_nat (length done)) x) w =
      Ret tt (with_heap
        (insert a (<[length done := Some y]>
                     ((Some <$> done) ++ replicate (S k) None))) w)).
    { rewrite (bind_Ret _ _ _ _ _ (load_Some _ _ _ _ _ Hp Hy)).
      apply assign_trivial; [exact Ha|].
      rewrite length_app, length_fmap, length_replicate. lia. }
    rewrite (bind_Ret _ _ _ _ _ Hstep). clear Hstep.
    rewrite <- (length_fmap Some done) at 2.
    rewrite insert_app_r_alt by lia. rewrite Nat.sub_diag.
    cbn [replicate insert list_insert].
    replace (Z.of_nat (length done) + 1) with (Z.of_nat (length (done ++ [y])))
      by (rewrite length_app; cbn; lia).
    rewrite (IH (done ++ [y]) k).
    + unfold with_heap. cbn [objs heap]. rewrite insert_insert_eq.
      rewrite <- app_assoc. cbn [app length]. now rewrite Nat.sub_succ.
    + exact Hne.
    + cbn [heap with_heap]. now rewrite lookup_insert_ne by congruence.
    + rewrite <- app_assoc. exact Hsrc.
    + cbn [heap with_heap]. rewrite lookup_insert_eq.
      now rewrite fmap_app, <- app_assoc.
    + cbn in Hk. lia.
Qed.

(** [std::copy] of the elements [xs] of one block into a block of
    [length xs] raw slots. On a trivially copyable type, or with nothing to
    copy, the destination ends up holding [xs]; otherwise the first
    assignment is to a slot that holds no object. *)
Lemma std_copy_raw_block tc p a src xs (w : world T) :
  p <> a ->
  heap w !! p = Some src ->
  take (length xs) src = Some <$> xs ->
  heap w !! a = Some (replicate (length xs) None) ->
  std_copy tc (Some p) (Z.of_nat (length xs)) (Some a) w =
    if tc || bool_decide (xs = [])
    then Ret tt (with_heap (insert a (Some <$> xs)) w)
    else Undef.
Proof.
  intros Hne Hp Htake Ha. unfold std_copy, for_upto. rewrite Nat2Z.id.
  destruct tc; cbn [orb].
  - pose proof (assign_loop p a src xs [] (length xs) w Hne Hp) as E.
    cbn [app length fmap list_fmap] in E. change (Z.of_nat 0) with 0 in E.
    rewrite E; [| |exact Ha|lia].
    + now rewrite Nat.sub_diag, app_nil_r.
    + intros i x Hi. exact (prefix_lookup _ _ _ _ Htake Hi).
  - destruct xs as [|x xs].
    + rewrite bool_decide_eq_true_2 by reflexivity. cbn [length for_from].
      unfold ret, with_heap. cbn [fmap list_fmap].
      rewrite insert_id by exact Ha. now rewrite world_eta.
    + rewrite bool_decide_eq_false_2 by discriminate. cbn [length for_from].
      assert (Hx : src !! 0%nat = Some (Some x)).
      { apply (prefix_lookup _ (x :: xs)); [exact Htake | reflexivity]. }
      pose proof (load_Some w p src 0%nat x Hp Hx) as El.
      pose proof (assign_raw w a _ 0%nat x Ha eq_refl) as Ea.
      change (Z.of_nat 0) with 0 in El, Ea.
      unfold bind. now rewrite El, Ea.
Qed.

End Storage.

(** ** [reserve] and [append] on a valid vector *)

Section Append.

Context {T : Type} `{EqDecision T}.
Variable allocatable : gmap ptr (list (option T)) -> Z -> bool.

Lemma fresh_not_allocated (h : gmap ptr (list (option T))) :
  h !! fresh (dom h) = None.
Proof. apply not_elem_of_dom, is_fresh. Qed.

Lemma allocated_not_fresh (h : gmap ptr (list (option T))) p b :
  h !! p = Some b -> p <> fresh (dom h).
Proof. intros Hp ->. now rewrite fresh_not_allocated in Hp. Qed.

Lemma reserve_noop this n (w : world T) v :
  objs w !! this = Some v -> n <= capacity_ v ->
  reserve allocatable this n w = Ret tt w.
Proof.
  intros Hv Hn. unfold reserve. rewrite (bind_Ret _ _ _ _ _ (self_Some _ _ _ Hv)).
  destruct (Z.leb_spec n (capacity_ v)); [reflexivity | lia].
Qed.

Lemma reserve_refused this n (w : world T) v :
  objs w !! this = Some v -> capacity_ v < n ->
  allocatable (heap w) n = false ->
  reserve allocatable this n w = Throw bad_alloc w.
Proof.
  intros Hv Hn Ha. unfold reserve. rewrite (bind_Ret _ _ _ _ _ (self_Some _ _ _ Hv)).
  destruct (Z.leb_spec n (capacity_ v)); [lia|].
  apply bind_Throw. unfold allocate. now rewrite Ha.
Qed.

Lemma reserve_grow this n (w : world T) v xs :
  objs w !! this = Some v -> stored w v xs -> capacity_ v < n ->
  allocatable (heap w) n = true ->
  reserve allocatable this n w =
    Ret tt (World (<[this := Vec (Some (fresh (dom (heap w)))) (size_ v) n]> (objs w))
                  (<[fresh (dom (heap w)) := block_of xs n]>
                     (release (data_ v) (heap w)))).
Proof.
  intros Hv (Hsz & Hle & Hr & Hd) Hn Ha.
  set (a := fresh (dom (heap w))).
  unfold reserve. rewrite (bind_Ret _ _ _ _ _ (self_Some _ _ _ Hv)).
  destruct (Z.leb_spec n (capacity_ v)); [lia|].
  assert (Hal : allocate allocatable n w =
    Ret a (with_heap (insert a (replicate (Z.to_nat n) None)) w)).
  { unfold allocate. now rewrite Ha. }
  rewrite (bind_Ret _ _ _ _ _ Hal). clear Hal.
  change (fun i : Z => bind (load (data_ v) i) (fun x => construct (Some a) i x))
    with (copy_body (T:=T) (data_ v) (Some a)).
  unfold for_upto. rewrite Hsz, Nat2Z.id.
  destruct (data_ v) as [p|] eqn:Hp.
  - destruct Hd as (b & Hb & Hlen & Htake).
    assert (Hpa : p <> a) by exact (allocated_not_fresh _ _ _ Hb).
    erewrite bind_Ret.
    2:{ apply (copy_loop p a b xs [] (Z.to_nat n)).
        - exact Hpa.
        - cbn [heap with_heap]. now rewrite lookup_insert_ne by congruence.
        - intros i x Hi. exact (prefix_lookup _ _ _ _ Htake Hi).
        - cbn [heap with_heap]. now rewrite lookup_insert_eq.
        - lia. }
    cbn [app]. fold (block_of xs n).
    erewrite bind_Ret.
    2:{ unfold deallocate. cbn [heap with_heap].
        rewrite lookup_insert_ne, lookup_insert_ne, Hb by congruence.
        rewrite decide_True by exact Hlen. reflexivity. }
    unfold set_self, with_objs, with_heap. cbn [objs heap release].
    rewrite insert_insert_eq. now rewrite delete_insert_ne by congruence.
  - assert (xs = []) as -> by (destruct xs; [reflexivity | cbn in Hsz; lia]).
    cbn [length for_from]. unfold ret at 1.
    rewrite (bind_Ret _ _ _ tt (with_heap (insert a (replicate (Z.to_nat n) None)) w))
      by reflexivity.
    rewrite (bind_Ret _ _ _ tt (with_heap (insert a (replicate (Z.to_nat n) None)) w))
      by reflexivity.
    unfold set_self, with_objs, with_heap, block_of. cbn [objs heap release].
    cbn [fmap list_fmap app length]. now rewrite Nat.sub_0_r.
Qed.

(** The store [reserve] leaves keeps the vector valid with the same
    elements. *)
Lemma stored_reserve_grow n (w : world T) v xs os :
  stored w v xs -> capacity_ v < n -> SizeT.in_range n ->
  stored (World os (<[fresh (dom (heap w)) := block_of xs n]>
                      (release (data_ v) (heap w))))
         (Vec (Some (fresh (dom (heap w)))) (size_ v) n) xs.
Proof.
  intros (Hsz & Hle & Hr & Hd) Hn Hrn. unfold stored. cbn [size_ capacity_ data_ heap].
  split; [exact Hsz|]. split; [lia|]. split; [exact Hrn|].
  exists (block_of xs n). rewrite lookup_insert_eq.
  split; [reflexivity|]. split; [apply block_of_length; lia | apply block_of_take].
Qed.

Lemma size_incr s : 0 <= s < 2 ^ 63 -> SizeT.incr s = s + 1.
Proof.
  intros Hs. apply wrap_small. unfold SizeT.in_range. rewrite modulus_eq. lia.
Qed.

Lemma size_decr_incr s : 0 <= s < 2 ^ 63 -> SizeT.decr (SizeT.incr s) = s.
Proof.
  intros Hs. rewrite size_incr by exact Hs. unfold SizeT.decr.
  replace (s + 1 - 1) with s by lia.
  apply wrap_small. unfold SizeT.in_range. rewrite modulus_eq. lia.
Qed.

Lemma construct_at (w : world T) p b i k x :
  heap w !! p = Some b -> i = Z.of_nat k -> (k < length b)%nat ->
  construct (Some p) i x w =
    Ret tt (with_heap (insert p (<[k := Some x]> b)) w).
Proof. intros Hp -> Hk. now apply construct_Some. Qed.

Lemma stored_size_nonneg (w : world T) v xs : stored w v xs -> 0 <= size_ v.
Proof. intros (Hsz & _). lia. Qed.

(** Reading an argument yields its referent in the current heap; an
    argument with no referent there is a read of no object. *)
Lemma read_arg_referent (a : argument T) (w : world T) :
  read_arg a w = match referent (heap w) a with
                 | Some x => Ret x w
                 | None => Undef
                 end.
Proof.
  destruct a as [x|[[p|] i]]; cbn [read_arg referent]; [reflexivity | | reflexivity].
  unfold deref, load. cbn [ref_base ref_index].
  destruct (heap w !! p) as [b|]; [|reflexivity].
  destruct (in_block b i); [|reflexivity].
  now destruct (b !! Z.to_nat i) as [[x|]|].
Qed.

(** A slot of a block that is not allocated has no referent. *)
Lemma referent_released (h : gmap ptr (list (option T))) p i :
  h !! p = None -> referent h (Slot (Ref (Some p) i)) = None.
Proof. intros Hp. cbn [referent]. now rewrite Hp. Qed.

(** The referent of a slot is the element stored there. *)
Lemma referent_stored (w : world T) v xs p i x :
  stored w v xs -> data_ v = Some p -> xs !! i = Some x ->
  referent (heap w) (Slot (Ref (Some p) (Z.of_nat i))) = Some x.
Proof.
  intros (Hsz & Hle & Hr & Hd) Hp Hi. rewrite Hp in Hd.
  destruct Hd as (b & Hb & Hlen & Htake).
  pose proof (lookup_lt_Some _ _ _ Hi) as Hlt.
  cbn [referent]. rewrite Hb. unfold in_block.
  destruct (Z.leb_spec 0 (Z.of_nat i)); [|lia].
  destruct (Z.ltb_spec (Z.of_nat i) (Z.of_nat (length b))); [|lia].
  cbn [andb]. rewrite Nat2Z.id, (prefix_lookup _ _ _ _ Htake Hi). reflexivity.
Qed.

(** The end of [append]: the size goes up by one, then the argument is read
    and the element constructed from it in slot [size]. *)
Lemma place_Some this a (w : world T) v p b k :
  objs w !! this = Some v -> data_ v = Some p -> heap w !! p = Some b ->
  size_ v = Z.of_nat k -> (k < length b)%nat -> size_ v < 2 ^ 63 ->
  place this a w =
    match referent (heap w) a with
    | Some x =>
        Ret (Ref (Some p) (size_ v))
            (World (<[this := Vec (Some p) (size_ v + 1) (capacity_ v)]> (objs w))
                   (<[p := <[k := Some x]> b]> (heap w)))
    | None => Undef
    end.
Proof.
  intros Hv Hp Hb Hsz Hk Hlt.
  unfold place. rewrite (bind_Ret _ _ _ _ _ (self_Some _ _ _ Hv)).
  rewrite size_decr_incr, size_incr by lia.
  rewrite Hp. unfold set_self at 1.
  rewrite (bind_Ret _ _ _ tt
    (with_objs (insert this (Vec (Some p) (size_ v + 1) (capacity_ v))) w))
    by reflexivity.
  unfold bind at 1. rewrite read_arg_referent. cbn [heap with_objs].
  destruct (referent (heap w) a) as [x|]; [|reflexivity].
  erewrite bind_Ret.
  2:{ apply construct_at with (b := b) (k := k); [exact Hb | exact Hsz | exact Hk]. }
  reflexivity.
Qed.

(** [append] with room to spare: the element goes into the current block,
    constructed from what the argument refers to in the heap of the call. *)
Lemma append_direct_ref this a (w : world T) v xs :
  objs w !! this = Some v -> stored w v xs ->
  capacity_ v <= 2 ^ 63 -> size_ v + 1 < capacity_ v ->
  exists p b, data_ v = Some p /\ heap w !! p = Some b /\
    append allocatable this a w =
      match referent (heap w) a with
      | Some x =>
          Ret (Ref (Some p) (size_ v))
              (World (<[this := Vec (Some p) (size_ v + 1) (capacity_ v)]> (objs w))
                     (<[p := <[length xs := Some x]> b]> (heap w)))
      | None => Undef
      end.
Proof.
  intros Hv Hst Hc Hlt. pose proof (stored_size_nonneg _ _ _ Hst) as H0.
  destruct Hst as (Hsz & Hle & Hr & Hd).
  destruct (data_ v) as [p|] eqn:Hp; [|lia].
  destruct Hd as (b & Hb & Hlen & Htake). exists p, b.
  split; [reflexivity|]. split; [exact Hb|].
  unfold append. rewrite (bind_Ret _ _ _ _ _ (self_Some _ _ _ Hv)).
  rewrite size_incr by lia.
  destruct (Z.ltb_spec (size_ v + 1) (capacity_ v)); [|lia].
  apply place_Some; [exact Hv | exact Hp | exact Hb | exact Hsz | lia | lia].
Qed.

Lemma append_direct this x (w : world T) v xs :
  objs w !! this = Some v -> stored w v xs ->
  capacity_ v <= 2 ^ 63 -> size_ v + 1 < capacity_ v ->
  exists p b, data_ v = Some p /\ heap w !! p = Some b /\
    append allocatable this (Outside x) w =
      Ret (Ref (Some p) (size_ v))
          (World (<[this := Vec (Some p) (size_ v + 1) (capacity_ v)]> (objs w))
                 (<[p := <[length xs := Some x]> b]> (heap w))).
Proof.
  intros Hv Hst Hc Hlt.
  exact (append_direct_ref this (Outside x) w v xs Hv Hst Hc Hlt).
Qed.

(** [append] on a vector with at most one free slot, when the allocator
    grants the rounded request: [reserve] moves the elements to a new block
    and releases the old one, and only then is the end of [append] run. *)
Lemma append_grow_place this a (w : world T) v xs :
  objs w !! this = Some v -> stored w v xs ->
  capacity_ v < 2 ^ 63 -> capacity_ v <= size_ v + 1 ->
  allocatable (heap w) (alloc_size (capacity_ v + 1)) = true ->
  append allocatable this a w =
    place this a
      (World (<[this := Vec (Some (fresh (dom (heap w)))) (size_ v)
                            (alloc_size (capacity_ v + 1))]> (objs w))
             (<[fresh (dom (heap w)) := block_of xs (alloc_size (capacity_ v + 1))]>
                (release (data_ v) (heap w)))).
Proof.
  intros Hv Hst Hc Hfull Ha. pose proof (stored_size_nonneg _ _ _ Hst) as H0.
  pose proof Hst as (Hsz & Hle & Hr & Hd).
  destruct (alloc_size_bounds (capacity_ v + 1)) as ((Hge & Hmax) & _); [lia|].
  unfold append. rewrite (bind_Ret _ _ _ _ _ (self_Some _ _ _ Hv)).
  rewrite (size_incr (size_ v)), (size_incr (capacity_ v)) by lia.
  destruct (Z.ltb_spec (size_ v + 1) (capacity_ v)); [lia|].
  generalize dependent (alloc_size (capacity_ v + 1)). intros n Ha Hge Hmax.
  now rewrite (bind_Ret _ _ _ _ _ (reserve_grow this n w v xs Hv Hst ltac:(lia) Ha)).
Qed.

Lemma append_grow_ref this a (w : world T) v xs :
  objs w !! this = Some v -> stored w v xs ->
  capacity_ v < 2 ^ 63 -> capacity_ v <= size_ v + 1 ->
  allocatable (heap w) (alloc_size (capacity_ v + 1)) = true ->
  append allocatable this a w =
    match referent (<[fresh (dom (heap w)) :=
                        block_of xs (alloc_size (capacity_ v + 1))]>
                      (release (data_ v) (heap w))) a with
    | Some x =>
        Ret (Ref (Some (fresh (dom (heap w)))) (size_ v))
            (World (<[this := Vec (Some (fresh (dom (heap w)))) (size_ v + 1)
                                  (alloc_size (capacity_ v + 1))]> (objs w))
                   (<[fresh (dom (heap w)) :=
                        block_of (xs ++ [x]) (alloc_size (capacity_ v + 1))]>
                      (release (data_ v) (heap w))))
    | None => Undef
    end.
Proof.
  intros Hv Hst Hc Hfull Ha. pose proof (stored_size_nonneg _ _ _ Hst) as H0.
  pose proof Hst as (Hsz & Hle & Hr & Hd).
  destruct (alloc_size_bounds (capacity_ v + 1)) as ((Hge & Hmax) & _); [lia|].
  rewrite (append_grow_place this a w v xs Hv Hst Hc Hfull Ha).
  generalize dependent (alloc_size (capacity_ v + 1)). intros n Ha Hge Hmax.
  set (a' := fresh (dom (heap w))) in *.
  rewrite (place_Some this a _ (Vec (Some a') (size_ v) n) a' (block_of xs n) (length xs)).
  - cbn [objs heap data_ size_ capacity_].
    destruct (referent _ a) as [x|]; [|reflexivity].
    rewrite !insert_insert_eq. now rewrite block_of_snoc by lia.
  - cbn [objs]. apply lookup_insert_eq.
  - reflexivity.
  - cbn [heap]. apply lookup_insert_eq.
  - exact Hsz.
  - pose proof (block_of_length xs n ltac:(lia)). lia.
  - cbn [size_]. lia.
Qed.

Lemma append_grow this x (w : world T) v xs :
  objs w !! this = Some v -> stored w v xs ->
  capacity_ v < 2 ^ 63 -> capacity_ v <= size_ v + 1 ->
  allocatable (heap w) (alloc_size (capacity_ v + 1)) = true ->
  append allocatable this (Outside x) w =
    Ret (Ref (Some (fresh (dom (heap w)))) (size_ v))
        (World (<[this := Vec (Some (fresh (dom (heap w)))) (size_ v + 1)
                              (alloc_size (capacity_ v + 1))]> (objs w))
               (<[fresh (dom (heap w)) :=
                    block_of (xs ++ [x]) (alloc_size (capacity_ v + 1))]>
                  (release (data_ v) (heap w)))).
Proof.
  intros Hv Hst Hc Hfull Ha.
  exact (append_grow_ref this (Outside x) w v xs Hv Hst Hc Hfull Ha).
Qed.

Lemma append_refused this (a : argument T) (w : world T) v :
  objs w !! this = Some v -> 0 <= size_ v <= capacity_ v ->
  capacity_ v < 2 ^ 63 -> capacity_ v <= size_ v + 1 ->
  allocatable (heap w) (alloc_size (capacity_ v + 1)) = false ->
  append allocatable this a w = Throw bad_alloc w.
Proof.
  intros Hv Hs Hc Hfull Ha.
  destruct (alloc_size_bounds (capacity_ v + 1)) as ((Hge & Hmax) & _); [lia|].
  unfold append. rewrite (bind_Ret _ _ _ _ _ (self_Some _ _ _ Hv)).
  rewrite (size_incr (size_ v)), (size_incr (capacity_ v)) by lia.
  destruct (Z.ltb_spec (size_ v + 1) (capacity_ v)); [lia|].
  apply bind_Throw. apply (reserve_refused _ _ _ v); [exact Hv | lia | exact Ha].
Qed.

(** Validity after the two successful branches of [append]. *)
Lemma stored_append_direct (w : world T) v xs x p b os :
  stored w v xs -> data_ v = Some p -> heap w !! p = Some b ->
  size_ v + 1 < capacity_ v ->
  stored (World os (<[p := <[length xs := Some x]> b]> (heap w)))
         (Vec (Some p) (size_ v + 1) (capacity_ v)) (xs ++ [x]).
Proof.
  intros (Hsz & Hle & Hr & Hd) Hp Hb Hlt. rewrite Hp in Hd.
  destruct Hd as (b' & Hb' & Hlen & Htake).
  assert (b' = b) as -> by congruence.
  unfold stored. cbn [size_ capacity_ data_ heap].
  split; [rewrite length_app; cbn; lia|]. split; [lia|]. split; [exact Hr|].
  eexists. rewrite lookup_insert_eq. split; [reflexivity|].
  rewrite length_insert. split; [exact Hlen|].
  rewrite length_app. cbn [length].
  replace (length xs + 1)%nat with (S (length xs)) by lia.
  erewrite take_S_r.
  2:{ apply list_lookup_insert_eq. lia. }
  rewrite take_insert_ge by lia. now rewrite Htake, fmap_app.
Qed.

Lemma stored_append_grow (w : world T) v xs x n os :
  stored w v xs -> size_ v < n -> SizeT.in_range n ->
  stored (World os (<[fresh (dom (heap w)) := block_of (xs ++ [x]) n]>
                      (release (data_ v) (heap w))))
         (Vec (Some (fresh (dom (heap w)))) (size_ v + 1) n) (xs ++ [x]).
Proof.
  intros (Hsz & Hle & Hr & Hd) Hn Hrn. unfold stored. cbn [size_ capacity_ data_ heap].
  assert (Hl : Z.of_nat (length (xs ++ [x])) = size_ v + 1).
  { rewrite length_app. cbn. lia. }
  split; [lia|]. split; [lia|]. split; [exact Hrn|].
  eexists. rewrite lookup_insert_eq. split; [reflexivity|].
  split; [apply block_of_length; lia | apply block_of_take].
Qed.

(** Validity of another vector is kept by changes to the heap that leave
    its block alone. *)
Lemma stored_frame (w w' : world T) v xs :
  stored w v xs ->
  (forall p, data_ v = Some p -> heap w' !! p = heap w !! p) ->
  stored w' v xs.
Proof.
  intros (Hsz & Hle & Hr & Hd) Hf. unfold stored.
  do 3 (split; [assumption|]).
  destruct (data_ v) as [p|]; [|exact Hd].
  rewrite (Hf p eq_refl). exact Hd.
Qed.


End Append.

(** ** Reading the elements of a valid vector *)

Section Elements.

Context {T : Type} `{EqDecision T}.
Variable allocatable : gmap ptr (list (option T)) -> Z -> bool.

Lemma subscript_Some this (w : world T) v i :
  objs w !! this = Some v ->
  subscript this i w = Ret (Ref (data_ v) i) w.
Proof.
  intros Hv. unfold subscript. now rewrite (bind_Ret _ _ _ _ _ (self_Some _ _ _ Hv)).
Qed.

Lemma elem_stored this (w : world T) v xs i y :
  objs w !! this = Some v -> stored w v xs -> xs !! i = Some y ->
  elem this (Z.of_nat i) w = Ret y w.
Proof.
  intros Hv (Hsz & Hle & Hr & Hd) Hi.
  pose proof (lookup_lt_Some _ _ _ Hi) as Hlt.
  unfold elem. rewrite (bind_Ret _ _ _ _ _ (subscript_Some _ _ _ _ Hv)).
  unfold deref. cbn [ref_base ref_index].
  destruct (data_ v) as [p|]; [|lia].
  destruct Hd as (b & Hb & _ & Htake).
  exact (load_Some _ _ _ _ _ Hb (prefix_lookup _ _ _ _ Htake Hi)).
Qed.

Lemma snoc_lookup_old (xs : list T) x i y :
  xs !! i = Some y -> (xs ++ [x]) !! i = Some y.
Proof. intros Hi. now apply lookup_app_l_Some. Qed.

Lemma snoc_lookup_new (xs : list T) x : (xs ++ [x]) !! length xs = Some x.
Proof. now rewrite lookup_app_r, Nat.sub_diag by lia. Qed.

End Elements.

Section PushBack.

Context {T : Type} `{EqDecision T}.
Variable allocatable : gmap ptr (list (option T)) -> Z -> bool.

Lemma push_back_of_append this a (w w' : world T) r :
  append allocatable this a w = Ret r w' ->
  push_back allocatable this a w = Ret tt w'.
Proof. intros E. unfold push_back. now rewrite (bind_Ret _ _ _ _ _ E). Qed.

Lemma push_back_undef this a (w : world T) :
  append allocatable this a w = Undef ->
  push_back allocatable this a w = Undef.
Proof. intros E. unfold push_back, bind. now rewrite E. Qed.

Lemma appended_intro this (w' : world T) v v' xs x :
  size_ v = Z.of_nat (length xs) ->
  objs w' !! this = Some v' -> stored w' v' (xs ++ [x]) ->
  size_ v' = size_ v + 1 ->
  appended this v xs x w' v'.
Proof.
  intros Hsz Hv' Hst' Hs'. unfold appended.
  split; [exact Hv'|]. split; [exact Hst'|]. split; [exact Hs'|]. split.
  - intros i y Hi. apply (elem_stored _ _ _ _ _ _ Hv' Hst').
    now apply snoc_lookup_old.
  - rewrite Hsz. apply (elem_stored _ _ _ _ _ _ Hv' Hst').
    apply snoc_lookup_new.
Qed.

(** The block of a valid vector is not the one the next allocation
    returns. *)
Lemma stored_not_fresh (w : world T) v xs :
  stored w v xs -> data_ v <> Some (fresh (dom (heap w))).
Proof.
  intros (_ & _ & _ & Hd) Hp. rewrite Hp in Hd. destruct Hd as (b & Hb & _).
  exact (allocated_not_fresh _ _ _ Hb eq_refl).
Qed.

(** After [reserve] has moved the elements, the old block is gone. *)
Lemma old_block_released (h : gmap ptr (list (option T))) d blk p :
  d <> Some (fresh (dom h)) -> d = Some p ->
  (<[fresh (dom h) := blk]> (release d h)) !! p = None.
Proof.
  intros Hne ->. cbn [release].
  rewrite lookup_insert_ne by congruence. apply lookup_delete_eq.
Qed.

(** [push_back] on a valid vector holding [xs] (capacity below [2^63]), for
    every argument. With a margin above one the element is constructed in
    the current block from what the argument refers to. Otherwise the
    elements are first moved to a new block and the old block is released;
    the element is then constructed from what the argument refers to in the
    heap after that release. An argument with no referent at that point is
    a read of no object. A refused growth throws [bad_alloc] with the store
    unchanged. *)
Lemma push_back_appends this a (w : world T) v xs :
  objs w !! this = Some v -> stored w v xs -> capacity_ v < 2 ^ 63 ->
  (size_ v + 1 < capacity_ v /\
   match referent (heap w) a with
   | Some x =>
       exists w' v',
         push_back allocatable this a w = Ret tt w' /\
         appended this v xs x w' v' /\
         data_ v' = data_ v /\ capacity_ v' = capacity_ v /\
         dom (heap w') = dom (heap w) /\
         (forall q, data_ v <> Some q -> heap w' !! q = heap w !! q) /\
         (forall o, o <> this -> objs w' !! o = objs w !! o)
   | None => push_back allocatable this a w = Undef
   end) \/
  (capacity_ v <= size_ v + 1 /\
   allocatable (heap w) (alloc_size (capacity_ v + 1)) = true /\
   match referent (<[fresh (dom (heap w)) :=
                       block_of xs (alloc_size (capacity_ v + 1))]>
                     (release (data_ v) (heap w))) a with
   | Some x =>
       exists w' v',
         push_back allocatable this a w = Ret tt w' /\
         appended this v xs x w' v' /\
         data_ v' = Some (fresh (dom (heap w))) /\
         capacity_ v' = alloc_size (capacity_ v + 1) /\
         data_ v <> data_ v' /\
         (forall p, data_ v = Some p -> heap w' !! p = None) /\
         (forall q, data_ v <> Some q -> q <> fresh (dom (heap w)) ->
            heap w' !! q = heap w !! q) /\
         (forall o, o <> this -> objs w' !! o = objs w !! o)
   | None => push_back allocatable this a w = Undef
   end) \/
  (capacity_ v <= size_ v + 1 /\
   allocatable (heap w) (alloc_size (capacity_ v + 1)) = false /\
   push_back allocatable this a w = Throw bad_alloc w).
Proof.
  intros Hv Hst Hc. pose proof (stored_size_nonneg _ _ _ Hst) as H0.
  pose proof Hst as (Hsz & Hle & Hr & Hd).
  destruct (Z_lt_ge_dec (size_ v + 1) (capacity_ v)) as [Hlt | Hfull].
  - left. split; [exact Hlt|].
    destruct (append_direct_ref allocatable this a w v xs Hv Hst ltac:(lia) Hlt)
      as (p & b & Hp & Hb & E).
    destruct (referent (heap w) a) as [x|]; [|exact (push_back_undef _ _ _ E)].
    eexists _, _. split; [exact (push_back_of_append _ _ _ _ _ E)|].
    cbn [objs heap data_ capacity_]. split.
    + apply (appended_intro _ _ _ _ _ _ Hsz (lookup_insert_eq _ _ _));
        [|reflexivity].
      exact (stored_append_direct w v xs x p b _ Hst Hp Hb Hlt).
    + split; [now rewrite Hp|]. split; [reflexivity|].
      split; [apply dom_insert_lookup_L; now rewrite Hb|].
      split; [intros q Hq; apply lookup_insert_ne; congruence|].
      intros o Ho. now rewrite lookup_insert_ne by congruence.
  - right. destruct (allocatable (heap w) (alloc_size (capacity_ v + 1))) eqn:Ha.
    + left. split; [lia|]. split; [reflexivity|].
      assert (E := append_grow_ref allocatable this a w v xs Hv Hst Hc ltac:(lia) Ha).
      destruct (alloc_size_bounds (capacity_ v + 1)) as ((Hge & Hmax) & _); [lia|].
      pose proof (stored_not_fresh _ _ _ Hst) as Hne.
      destruct (referent _ a) as [x|]; [|exact (push_back_undef _ _ _ E)].
      eexists _, _. split; [exact (push_back_of_append _ _ _ _ _ E)|].
      cbn [objs heap data_ capacity_]. split.
      * apply (appended_intro _ _ _ _ _ _ Hsz (lookup_insert_eq _ _ _));
          [|reflexivity].
        apply (stored_append_grow w v xs x _ _ Hst); [lia|].
        unfold SizeT.in_range. rewrite modulus_eq. lia.
      * split; [reflexivity|]. split; [reflexivity|]. split; [exact Hne|].
        split; [intros p Hp; now apply old_block_released|].
        split.
        { intros q Hq Hqf. rewrite lookup_insert_ne by congruence.
          destruct (data_ v) as [p|]; [|reflexivity].
          cbn [release]. apply lookup_delete_ne. congruence. }
        intros o Ho. now rewrite lookup_insert_ne by congruence.
    + right. split; [lia|]. split; [reflexivity|].
      unfold push_back. apply bind_Throw.
      apply (append_refused allocatable this a w v Hv); [lia | exact Hc | lia | exact Ha].
Qed.

(** C9 fails for [x.push_back(x[i])] on a vector with a margin of at most
    one. On a valid vector holding [xs] (capacity below [2^63], growth
    granted), with [x] its element at index [i]: [x[i]] reads [x] before
    the call, and [push_back] of a copy of [x] leaves the vector holding
    [xs ++ [x]], as the claim says. The call [x.push_back(x[i])] itself
    passes the reference: [reserve] releases the old block, and the
    construction of the new element then reads the argument in that
    released block. *)
Theorem push_back_own_element_after_release this i x (w : world T) v xs :
  objs w !! this = Some v -> stored w v xs -> capacity_ v < 2 ^ 63 ->
  capacity_ v - size_ v <= 1 ->
  allocatable (heap w) (alloc_size (capacity_ v + 1)) = true ->
  xs !! i = Some x ->
  elem this (Z.of_nat i) w = Ret x w /\
  (exists w' v',
     push_back allocatable this (Outside x) w = Ret tt w' /\
     appended this v xs x w' v') /\
  (exists w1, reserve allocatable this (alloc_size (capacity_ v + 1)) w = Ret tt w1 /\
     holds w1 this xs /\
     referent (heap w) (Slot (Ref (data_ v) (Z.of_nat i))) = Some x /\
     referent (heap w1) (Slot (Ref (data_ v) (Z.of_nat i))) = None) /\
  push_back_from allocatable this this (Z.of_nat i) w = Undef.
Proof.
  intros Hv Hst Hc Hfull Ha Hi. pose proof (stored_size_nonneg _ _ _ Hst) as H0.
  pose proof Hst as (Hsz & Hle & Hr & Hd).
  pose proof (stored_not_fresh _ _ _ Hst) as Hne.
  destruct (alloc_size_bounds (capacity_ v + 1)) as ((Hge & Hmax) & _); [lia|].
  destruct (data_ v) as [p|] eqn:Hp.
  2:{ apply lookup_lt_Some in Hi. lia. }
  split; [exact (elem_stored _ _ _ _ _ _ Hv Hst Hi)|]. split.
  { assert (E := append_grow allocatable this x w v xs Hv Hst Hc ltac:(lia) Ha).
    eexists _, _. split; [exact (push_back_of_append _ _ _ _ _ E)|].
    apply (appended_intro _ _ _ _ _ _ Hsz (lookup_insert_eq _ _ _)); [|reflexivity].
    apply (stored_append_grow w v xs x _ _ Hst); [lia|].
    unfold SizeT.in_range. rewrite modulus_eq. lia. }
  split.
  { eexists. split; [exact (reserve_grow allocatable this (alloc_size (capacity_ v + 1)) w v xs
               Hv Hst ltac:(lia) Ha)|].
    cbn [heap]. split.
    - eexists. cbn [objs]. split; [apply lookup_insert_eq|].
      apply (stored_reserve_grow _ w v xs _ Hst); [lia|].
      unfold SizeT.in_range. rewrite modulus_eq. lia.
    - split; [exact (referent_stored w v xs p i x Hst Hp Hi)|].
      apply referent_released. rewrite ?Hp.
      apply old_block_released; [exact Hne | reflexivity]. }
  unfold push_back_from. rewrite (bind_Ret _ _ _ _ _ (subscript_Some _ _ _ _ Hv)).
  apply push_back_undef.
  rewrite (append_grow_ref allocatable this _ w v xs Hv Hst Hc ltac:(lia) Ha).
  rewrite Hp, referent_released; [reflexivity|].
  apply old_block_released; [exact Hne | reflexivity].
Qed.

End PushBack.

(** The vector of [three_pushed] is valid and holds 10, 20, 30 in a block of
    four slots. *)
Lemma three_pushed_stored :
  objs three_pushed !! 1%positive = Some (Vec (Some 3%positive) 3 4) /\
  stored three_pushed (Vec (Some 3%positive) 3 4) [10; 20; 30].
Proof.
  split; [vm_compute; reflexivity|].
  unfold stored. cbn [size_ capacity_ data_ length].
  split; [reflexivity|]. split; [lia|].
  split; [unfold SizeT.in_range; rewrite modulus_eq; lia|].
  exists [Some 10; Some 20; Some 30; None].
  split; [vm_compute; reflexivity|]. split; reflexivity.
Defined.

(** [x.push_back(x[0])] on [{10, 20, 30}] with capacity 4: the fourth
    element is read in the block that the growth to capacity 8 has just
    released. *)
Lemma push_back_own_element_after_release_witness :
  elem 1%positive 0 three_pushed = Ret 10 three_pushed /\
  push_back_from grants_all 1%positive 1%positive 0 three_pushed = Undef.
Proof.
  destruct three_pushed_stored as [Hv Hst].
  destruct (push_back_own_element_after_release grants_all 1%positive 0%nat 10
              three_pushed _ [10; 20; 30] Hv Hst) as (Hread & _ & _ & Hundef).
  - cbn [capacity_]. lia.
  - cbn [capacity_ size_]. lia.
  - reflexivity.
  - reflexivity.
  - split; [exact Hread | exact Hundef].
Defined.

Section GrowthTrigger.

Context {T : Type} `{EqDecision T}.
Variable allocatable : gmap ptr (list (option T)) -> Z -> bool.

(** C3. On a valid vector (capacity below [2^63]), [push_back] and
    [emplace_back] with a margin [capacity - size] above one construct the
    element in the current block, with no allocation and no release.
    Otherwise they first call [reserve], which moves the elements to a new
    block whose capacity is [capacity + 1] rounded up to a power of two and
    releases the old block, and only then construct the element there (the
    request failing with [bad_alloc], store unchanged, when the allocator
    refuses). So storage is reallocated iff the margin is not greater than
    one, whatever the argument. The element is constructed from what the
    argument refers to when the construction runs: after a reallocation, an
    argument that refers into the old block has no referent any more. *)
Theorem append_reallocates_iff_margin_le_one this a (w : world T) v xs :
  objs w !! this = Some v -> stored w v xs -> capacity_ v < 2 ^ 63 ->
  (1 < capacity_ v - size_ v ->
     match referent (heap w) a with
     | Some x =>
         exists w',
           push_back allocatable this a w = Ret tt w' /\
           emplace_back allocatable this a w = Ret (Ref (data_ v) (size_ v)) w' /\
           objs w' !! this = Some (Vec (data_ v) (size_ v + 1) (capacity_ v)) /\
           dom (heap w') = dom (heap w) /\
           holds w' this (xs ++ [x])
     | None =>
         push_back allocatable this a w = Undef /\
         emplace_back allocatable this a w = Undef
     end) /\
  (capacity_ v - size_ v <= 1 ->
     let n := alloc_size (capacity_ v + 1) in
     let p' := fresh (dom (heap w)) in
     least_pow2_ge (capacity_ v + 1) n /\
     if allocatable (heap w) n then
       exists w1,
         reserve allocatable this n w = Ret tt w1 /\
         objs w1 !! this = Some (Vec (Some p') (size_ v) n) /\
         (p' ∉ dom (heap w)) /\ data_ v <> Some p' /\
         (forall p, data_ v = Some p -> heap w1 !! p = None) /\
         holds w1 this xs /\
         emplace_back allocatable this a w = place this a w1 /\
         (forall p i, data_ v = Some p ->
            referent (heap w1) (Slot (Ref (Some p) i)) = None) /\
         match referent (heap w1) a with
         | Some x =>
             exists w',
               push_back allocatable this a w = Ret tt w' /\
               emplace_back allocatable this a w = Ret (Ref (Some p') (size_ v)) w' /\
               objs w' !! this = Some (Vec (Some p') (size_ v + 1) n) /\
               (forall p, data_ v = Some p -> heap w' !! p = None) /\
               holds w' this (xs ++ [x])
         | None =>
             push_back allocatable this a w = Undef /\
             emplace_back allocatable this a w = Undef
         end
     else
       push_back allocatable this a w = Throw bad_alloc w /\
       emplace_back allocatable this a w = Throw bad_alloc w).
Proof.
  intros Hv Hst Hc. pose proof (stored_size_nonneg _ _ _ Hst) as H0.
  pose proof Hst as (Hsz & Hle & Hr & Hd). split.
  - intros Hlt.
    destruct (append_direct_ref allocatable this a w v xs Hv Hst ltac:(lia) ltac:(lia))
      as (p & b & Hp & Hb & E).
    destruct (referent (heap w) a) as [x|].
    2:{ split; [exact (push_back_undef _ _ _ _ E) | exact E]. }
    eexists. split; [exact (push_back_of_append _ _ _ _ _ _ E)|].
    unfold emplace_back. rewrite Hp. split; [exact E|]. cbn [objs heap].
    split; [apply lookup_insert_eq|].
    split; [apply dom_insert_lookup_L; now rewrite Hb|].
    eexists. cbn [objs]. split; [apply lookup_insert_eq|].
    apply (stored_append_direct w v xs x p b _ Hst Hp Hb). lia.
  - intros Hfull n p'.
    destruct (alloc_size_bounds (capacity_ v + 1)) as ((Hge & Hmax) & _); [lia|].
    split; [apply alloc_size_least; lia|].
    pose proof (stored_not_fresh _ _ _ Hst) as Hne.
    destruct (allocatable (heap w) n) eqn:Ha.
    + assert (E := append_grow_ref allocatable this a w v xs Hv Hst Hc ltac:(lia) Ha).
      assert (Ep := append_grow_place allocatable this a w v xs Hv Hst Hc ltac:(lia) Ha).
      assert (Er := reserve_grow allocatable this n w v xs Hv Hst ltac:(fold n in Hge; lia) Ha).
      fold p' n in E, Ep, Er, Hne.
      eexists. split; [exact Er|]. cbn [objs heap].
      split; [apply lookup_insert_eq|].
      split; [apply is_fresh|].
      split; [exact Hne|].
      split; [intros p Hp; now apply old_block_released|].
      split.
      { eexists. cbn [objs]. split; [apply lookup_insert_eq|].
        apply (stored_reserve_grow _ w v xs _ Hst); [fold n in Hge; lia|].
        unfold SizeT.in_range. rewrite modulus_eq. fold n in Hge, Hmax. lia. }
      split; [exact Ep|].
      split.
      { intros p i Hp. apply referent_released. now apply old_block_released. }
      destruct (referent _ a) as [x|].
      2:{ split; [exact (push_back_undef _ _ _ _ E) | exact E]. }
      eexists. split; [exact (push_back_of_append _ _ _ _ _ _ E)|].
      split; [exact E|]. cbn [objs heap].
      split; [apply lookup_insert_eq|].
      split; [intros p Hp; now apply old_block_released|].
      eexists. cbn [objs]. split; [apply lookup_insert_eq|].
      apply (stored_append_grow w v xs x n _ Hst); [fold n in Hge; lia|].
      unfold SizeT.in_range. rewrite modulus_eq. fold n in Hge, Hmax. lia.
    + assert (E : append allocatable this a w = Throw bad_alloc w).
      { apply (append_refused allocatable this a w v Hv);
          [lia | exact Hc | lia | exact Ha]. }
      split; [|exact E]. unfold push_back. now apply bind_Throw.
Qed.

End GrowthTrigger.

(** Size 3, capacity 4: margin one, so the call moves to a block of 8. *)
Lemma append_reallocates_iff_margin_le_one_witness :
  exists w',
    push_back grants_all 1%positive (Outside 40) three_pushed = Ret tt w' /\
    objs w' !! 1%positive = Some (Vec (Some 4%positive) 4 8).
Proof.
  destruct three_pushed_stored as [Hv Hst].
  destruct (append_reallocates_iff_margin_le_one grants_all 1%positive (Outside 40)
              three_pushed _ _ Hv Hst) as [_ Hgrow].
  - cbn [capacity_]. lia.
  - destruct Hgrow as [_ Hgrow]; [cbn [capacity_ size_]; lia|].
    cbn [capacity_ size_ grants_all referent] in Hgrow.
    destruct Hgrow as (w1 & _ & _ & _ & _ & _ & _ & _ & _ & w' & E & _ & Hv' & _).
    exists w'. split; [exact E|].
    rewrite Hv'. vm_compute. reflexivity.
Defined.

(** ** Checked access *)

Section At.

Context {T : Type} `{EqDecision T}.

(** C4. [at(i)] throws [array_out_of_range] exactly when [i >= size]; for
    [i < size] it returns the slot [i] of the storage, and on a valid vector
    that slot reads as the element at position [i]. *)
Theorem at_out_of_range_iff this i (w : world T) v xs :
  objs w !! this = Some v -> stored w v xs -> 0 <= i ->
  ((exists w', at_ this i w = Throw array_out_of_range w') <-> size_ v <= i) /\
  (size_ v <= i -> at_ this i w = Throw array_out_of_range w) /\
  (i < size_ v ->
     exists y, xs !! Z.to_nat i = Some y /\
       at_ this i w = Ret (Ref (data_ v) i) w /\
       bind (at_ this i) deref w = Ret y w).
Proof.
  intros Hv Hst Hi.
  assert (Hat : at_ this i w =
    if i >=? size_ v then Throw array_out_of_range w else Ret (Ref (data_ v) i) w).
  { unfold at_. rewrite (bind_Ret _ _ _ _ _ (self_Some _ _ _ Hv)).
    now destruct (i >=? size_ v). }
  rewrite Hat. destruct (Z.geb_spec i (size_ v)) as [Hge | Hlt].
  - split; [|split; [reflexivity | lia]].
    split; [intros _; lia | intros _; now exists w].
  - split; [|split; [lia|]].
    + split; [intros (w' & [=]) | lia].
    + intros _. pose proof Hst as (Hsz & _).
      destruct (lookup_lt_is_Some_2 xs (Z.to_nat i)) as (y & Hy); [lia|].
      exists y. split; [exact Hy|]. split; [reflexivity|].
      rewrite (bind_Ret _ _ _ _ _ Hat).
      destruct (i >=? size_ v) eqn:E; [lia|].
      pose proof (elem_stored this w v xs _ y Hv Hst Hy) as He.
      rewrite Z2Nat.id in He by exact Hi. unfold elem in He.
      now rewrite (bind_Ret _ _ _ _ _ (subscript_Some _ _ _ _ Hv)) in He.
Qed.

End At.

(** On [{10, 20, 30}], [at(3)] throws and [at(2)] reads 30. *)
Lemma at_out_of_range_iff_witness :
  at_ 1%positive 3 three_pushed = Throw array_out_of_range three_pushed /\
  bind (at_ 1%positive 2) deref three_pushed = Ret 30 three_pushed.
Proof.
  destruct three_pushed_stored as [Hv Hst].
  destruct (at_out_of_range_iff 1%positive 3 three_pushed _ _ Hv Hst ltac:(lia))
    as (_ & Hthrow & _).
  destruct (at_out_of_range_iff 1%positive 2 three_pushed _ _ Hv Hst ltac:(lia))
    as (_ & _ & Hret).
  split; [apply Hthrow; cbn [size_]; lia|].
  destruct Hret as (y & Hy & _ & E); [cbn [size_]; lia|].
  injection Hy as <-. exact E.
Defined.

(** ** Equality *)

Section Equality.

Context {T : Type} `{EqDecision T}.

Lemma data_Some l (w : world T) v :
  objs w !! l = Some v -> data l w = Ret (data_ v) w.
Proof. intros Hv. unfold data. now rewrite (bind_Ret _ _ _ _ _ (self_Some _ _ _ Hv)). Qed.

Lemma size_Some l (w : world T) v :
  objs w !! l = Some v -> size l w = Ret (size_ v) w.
Proof. intros Hv. unfold size. now rewrite (bind_Ret _ _ _ _ _ (self_Some _ _ _ Hv)). Qed.

(** The comparison loop decides equality of the remaining elements. *)
Lemma eq_from_drop l r (w : world T) vl vr xs ys :
  objs w !! l = Some vl -> objs w !! r = Some vr ->
  stored w vl xs -> stored w vr ys -> length xs = length ys ->
  forall n i, (i + n = length xs)%nat ->
    eq_from l r (Z.of_nat i) n w = Ret (bool_decide (drop i xs = drop i ys)) w.
Proof.
  intros Hl Hr Hsl Hsr Hlen. induction n as [|n IH]; intros i Hi.
  - cbn [eq_from]. rewrite !drop_ge by lia. now rewrite bool_decide_eq_true_2.
  - cbn [eq_from].
    destruct (lookup_lt_is_Some_2 xs i) as (x & Hx); [lia|].
    destruct (lookup_lt_is_Some_2 ys i) as (y & Hy); [lia|].
    rewrite (bind_Ret _ _ _ _ _ (elem_stored l w vl xs i x Hl Hsl Hx)).
    rewrite (bind_Ret _ _ _ _ _ (elem_stored r w vr ys i y Hr Hsr Hy)).
    rewrite (drop_S _ _ _ Hx), (drop_S _ _ _ Hy).
    destruct (decide (x = y)) as [-> | Hne].
    + rewrite bool_decide_eq_true_2 by reflexivity. cbn [negb].
      replace (Z.of_nat i + 1) with (Z.of_nat (S i)) by lia.
      rewrite IH by lia. f_equal.
      apply bool_decide_ext. split; [now intros -> | now intros [= ->]].
    + rewrite (bool_decide_eq_false_2 (x = y)) by exact Hne. cbn [negb].
      unfold ret. f_equal. symmetry. apply bool_decide_eq_false_2.
      intros [= E _]. contradiction.
Qed.

Lemma op_eq_stored l r (w : world T) vl vr xs ys :
  objs w !! l = Some vl -> objs w !! r = Some vr ->
  stored w vl xs -> stored w vr ys ->
  op_eq l r w =
    Ret (bool_decide (data_ vl <> None /\ data_ vr <> None /\ xs = ys)) w.
Proof.
  intros Hl Hr Hsl Hsr. unfold op_eq.
  rewrite (bind_Ret _ _ _ _ _ (data_Some _ _ _ Hl)).
  destruct (decide (data_ vl = None)) as [El | Nl].
  { rewrite (bool_decide_eq_true_2 _ El). unfold ret. f_equal.
    symmetry. apply bool_decide_eq_false_2. tauto. }
  rewrite (bool_decide_eq_false_2 _ Nl).
  rewrite (bind_Ret _ _ _ _ _ (data_Some _ _ _ Hr)).
  destruct (decide (data_ vr = None)) as [Er | Nr].
  { rewrite (bool_decide_eq_true_2 _ Er). unfold ret. f_equal.
    symmetry. apply bool_decide_eq_false_2. tauto. }
  rewrite (bool_decide_eq_false_2 _ Nr).
  rewrite (bind_Ret _ _ _ _ _ (size_Some _ _ _ Hl)).
  rewrite (bind_Ret _ _ _ _ _ (size_Some _ _ _ Hr)).
  pose proof Hsl as (Hszl & _). pose proof Hsr as (Hszr & _).
  destruct (Z.eqb_spec (size_ vl) (size_ vr)) as [Es | Ns]; cbn [negb].
  - rewrite Hszl, Nat2Z.id.
    rewrite (eq_from_drop l r w vl vr xs ys Hl Hr Hsl Hsr ltac:(lia) _ 0%nat)
      by lia.
    rewrite !drop_0. f_equal. apply bool_decide_ext. tauto.
  - unfold ret. f_equal. symmetry. apply bool_decide_eq_false_2.
    intros (_ & _ & ->). lia.
Qed.

(** Equality with a vector whose storage is null is false, whatever the
    other vector is. *)
Lemma op_eq_null_l l r (w : world T) vl :
  objs w !! l = Some vl -> data_ vl = None ->
  op_eq l r w = Ret false w.
Proof.
  intros Hl El. unfold op_eq.
  rewrite (bind_Ret _ _ _ _ _ (data_Some _ _ _ Hl)).
  now rewrite (bool_decide_eq_true_2 _ El).
Qed.

Lemma op_eq_null_r l r (w : world T) vl vr :
  objs w !! l = Some vl -> objs w !! r = Some vr -> data_ vr = None ->
  op_eq l r w = Ret false w.
Proof.
  intros Hl Hr Er. unfold op_eq.
  rewrite (bind_Ret _ _ _ _ _ (data_Some _ _ _ Hl)).
  destruct (bool_decide (data_ vl = None)); [reflexivity|].
  rewrite (bind_Ret _ _ _ _ _ (data_Some _ _ _ Hr)).
  now rewrite (bool_decide_eq_true_2 _ Er).
Qed.

(** C2. On valid vectors [operator==] returns [true] iff both storages are
    non-null, the sizes agree and the elements agree at every index below
    the size; a null storage on either side gives [false], also for two
    default-constructed vectors and for a vector compared with itself; so
    [l == l] holds iff the storage of [l] is non-null, [l == r] and
    [r == l] agree, and [operator!=] is the negation. *)
Theorem op_eq_iff l r (w : world T) vl vr xs ys :
  objs w !! l = Some vl -> objs w !! r = Some vr ->
  stored w vl xs -> stored w vr ys ->
  exists b,
    op_eq l r w = Ret b w /\
    (b = true <->
       data_ vl <> None /\ data_ vr <> None /\ size_ vl = size_ vr /\
       forall i, 0 <= i < size_ vl -> xs !! Z.to_nat i = ys !! Z.to_nat i) /\
    (data_ vl = None \/ data_ vr = None -> b = false) /\
    op_eq r l w = Ret b w /\
    op_ne l r w = Ret (negb b) w /\
    op_eq l l w = Ret (bool_decide (data_ vl <> None)) w.
Proof.
  intros Hl Hr Hsl Hsr.
  pose proof (op_eq_stored l r w vl vr xs ys Hl Hr Hsl Hsr) as E.
  eexists. split; [exact E|].
  pose proof Hsl as (Hszl & _). pose proof Hsr as (Hszr & _).
  split; [|split; [|split; [|split]]].
  - rewrite bool_decide_eq_true. split.
    + intros (Nl & Nr & ->). repeat split; auto. lia.
    + intros (Nl & Nr & Hs & He). repeat split; auto.
      apply list_eq_same_length with (n := length xs); [lia | reflexivity |].
      intros i x y Hi Hx Hy.
      specialize (He (Z.of_nat i) ltac:(lia)). rewrite Nat2Z.id in He. congruence.
  - intros Hn. apply bool_decide_eq_false_2. tauto.
  - rewrite (op_eq_stored r l w vr vl ys xs Hr Hl Hsr Hsl). f_equal.
    apply bool_decide_ext. split; intros (? & ? & ?); auto.
  - unfold op_ne. now rewrite (bind_Ret _ _ _ _ _ E).
  - rewrite (op_eq_stored l l w vl vl xs xs Hl Hl Hsl Hsl). f_equal.
    apply bool_decide_ext. tauto.
Qed.

End Equality.

Lemma three_vectors_stored :
  (objs three_vectors !! 1%positive = Some (Vec (Some 3%positive) 3 4) /\
   stored three_vectors (Vec (Some 3%positive) 3 4) [10; 20; 30]) /\
  (objs three_vectors !! 2%positive = Some (Vec (Some 4%positive) 3 3) /\
   stored three_vectors (Vec (Some 4%positive) 3 3) [10; 20; 30]) /\
  (objs three_vectors !! 3%positive = Some (Vec (Some 5%positive) 2 2) /\
   stored three_vectors (Vec (Some 5%positive) 2 2) [1; 2]).
Proof.
  assert (Hr : forall c, 0 <= c <= 4 -> SizeT.in_range c).
  { intros c Hc. unfold SizeT.in_range. rewrite modulus_eq. lia. }
  split; [|split]; (split; [vm_compute; reflexivity|]);
    unfold stored; cbn [size_ capacity_ data_ length];
    (split; [reflexivity|]); (split; [lia|]); (split; [apply Hr; lia|]).
  - exists [Some 10; Some 20; Some 30; None].
    split; [vm_compute; reflexivity|]. split; reflexivity.
  - exists [Some 10; Some 20; Some 30].
    split; [vm_compute; reflexivity|]. split; reflexivity.
  - exists [Some 1; Some 2].
    split; [vm_compute; reflexivity|]. split; reflexivity.
Defined.

(** Two vectors [{10, 20, 30}] with different capacities are equal. *)
Lemma op_eq_iff_witness :
  op_eq 1%positive 2%positive three_vectors = Ret true three_vectors /\
  op_ne 1%positive 2%positive three_vectors = Ret false three_vectors.
Proof.
  destruct three_vectors_stored as ((H1 & S1) & (H2 & S2) & _).
  destruct (op_eq_iff 1%positive 2%positive three_vectors _ _ _ _ H1 H2 S1 S2)
    as (b & E & Hb & _ & _ & Ene & _).
  assert (b = true) as ->.
  { apply Hb. cbn [data_ size_]. repeat split; try discriminate. }
  split; [exact E | exact Ene].
Defined.

(** ** Arithmetic on empty vectors *)

Section EmptyArithmetic.

Context {T : Type} `{EqDecision T}.
Variable allocatable : gmap ptr (list (option T)) -> Z -> bool.

Lemma elementwise_empty op l r (w : world T) vl vr :
  objs w !! l = Some vl -> objs w !! r = Some vr ->
  size_ vl = 0 -> size_ vr = 0 ->
  elementwise allocatable op l r w =
    Ret (fresh (dom (objs w)))
        (with_objs (insert (fresh (dom (objs w))) (Vec None 0 0)) w).
Proof.
  intros Hl Hr Sl Sr. unfold elementwise.
  rewrite (bind_Ret _ _ _ _ _ (size_Some _ _ _ Hl)).
  rewrite (bind_Ret _ _ _ _ _ (size_Some _ _ _ Hr)).
  rewrite Sl, Sr. reflexivity.
Qed.

(** C10. For two vectors of size 0, whatever their capacities,
    [operator+] and [operator-] return a default-constructed vector: null
    storage, size 0, capacity 0, nothing allocated. That result compares
    unequal to every vector of the store, on either side, itself
    included. *)
Theorem op_plus_minus_empty T_add T_sub l r (w : world T) vl vr :
  objs w !! l = Some vl -> objs w !! r = Some vr ->
  size_ vl = 0 -> size_ vr = 0 ->
  exists s w',
    op_plus allocatable T_add l r w = Ret s w' /\
    op_minus allocatable T_sub l r w = Ret s w' /\
    objs w' !! s = Some (Vec None 0 0) /\
    heap w' = heap w /\
    (forall o, is_Some (objs w' !! o) ->
       op_eq s o w' = Ret false w' /\ op_eq o s w' = Ret false w') /\
    op_eq s s w' = Ret false w'.
Proof.
  intros Hl Hr Sl Sr.
  set (s := fresh (dom (objs w))).
  set (w' := with_objs (insert s (Vec None 0 0)) w).
  assert (Hs : objs w' !! s = Some (Vec None 0 0)) by apply lookup_insert_eq.
  exists s, w'.
  split; [exact (elementwise_empty T_add l r w vl vr Hl Hr Sl Sr)|].
  split; [exact (elementwise_empty T_sub l r w vl vr Hl Hr Sl Sr)|].
  split; [exact Hs|]. split; [reflexivity|]. split.
  - intros o (vo & Ho). split.
    + exact (op_eq_null_l _ _ _ _ Hs eq_refl).
    + exact (op_eq_null_r _ _ _ _ _ Ho Hs eq_refl).
  - exact (op_eq_null_l _ _ _ _ Hs eq_refl).
Qed.

End EmptyArithmetic.

(** The sum of a default-constructed vector with itself. *)
Lemma op_plus_minus_empty_witness :
  exists s w',
    op_plus grants_all Z.add 1%positive 1%positive (fresh_world Z) = Ret s w' /\
    objs w' !! s = Some (Vec None 0 0) /\
    op_eq s s w' = Ret false w'.
Proof.
  destruct (op_plus_minus_empty grants_all Z.add Z.sub 1%positive 1%positive
              (fresh_world Z) (Vec None 0 0) (Vec None 0 0))
    as (s & w' & E & _ & Hs & _ & _ & Hself);
    try reflexivity.
  exists s, w'. auto.
Defined.

(** ** Element-wise arithmetic *)

Section Elementwise.

Context {T : Type} `{EqDecision T}.
Variable allocatable : gmap ptr (list (option T)) -> Z -> bool.

Lemma sum_inv_heap (w wi : world T) sum zs p b :
  sum_inv w sum wi zs -> heap w !! p = Some b -> heap wi !! p = Some b.
Proof.
  intros (vs & _ & _ & _ & Hh) Hp. destruct (data_ vs) as [a|].
  - destruct Hh as (Ha & blk & ->). rewrite lookup_insert_ne; [exact Hp | congruence].
  - now rewrite Hh.
Qed.

Lemma sum_inv_frame (w wi : world T) sum zs l vl xs :
  sum_inv w sum wi zs -> l <> sum ->
  objs w !! l = Some vl -> stored w vl xs ->
  objs wi !! l = Some vl /\ stored wi vl xs /\
  forall p, data_ vl = Some p -> heap wi !! p = heap w !! p.
Proof.
  intros Hinv Hne Hl Hst. pose proof Hinv as (vs & Ho & _).
  assert (Hf : forall p, data_ vl = Some p -> heap wi !! p = heap w !! p).
  { intros p Hp. destruct Hst as (_ & _ & _ & Hd). rewrite Hp in Hd.
    destruct Hd as (b & Hb & _). rewrite Hb. exact (sum_inv_heap _ _ _ _ _ _ Hinv Hb). }
  split; [rewrite Ho; now rewrite lookup_insert_ne by congruence|].
  split; [exact (stored_frame _ _ _ _ Hst Hf) | exact Hf].
Qed.

Lemma sum_inv_init (w : world T) sum :
  sum_inv w sum (with_objs (insert sum (Vec None 0 0)) w) [].
Proof.
  exists (Vec None 0 0). split; [reflexivity|]. split.
  - unfold stored. cbn [size_ capacity_ data_ length].
    repeat split; lia.
  - cbn [capacity_ data_ heap with_objs]. split; [lia | reflexivity].
Qed.

Lemma sum_world_init (w : world T) sum :
  sum_world w sum (Vec None 0 0) [] = with_objs (insert sum (Vec None 0 0)) w.
Proof. reflexivity. Qed.

Lemma sum_world_Some (w : world T) sum a n c zs :
  sum_world w sum (Vec (Some a) n c) zs =
    World (<[sum := Vec (Some a) n c]> (objs w)) (<[a := block_of zs c]> (heap w)).
Proof. reflexivity. Qed.

Lemma sum_world_objs (w : world T) sum vs zs :
  objs (sum_world w sum vs zs) = <[sum := vs]> (objs w).
Proof. reflexivity. Qed.

Lemma sum_at_init (w : world T) sum : sum_at w sum (Vec None 0 0) [].
Proof.
  split; [|split; [cbn [capacity_]; lia | discriminate]].
  unfold stored. cbn [size_ capacity_ data_ length]. repeat split; lia.
Qed.

Lemma sum_at_inv (w : world T) sum vs zs :
  sum_at w sum vs zs -> sum_inv w sum (sum_world w sum vs zs) zs.
Proof.
  intros (Hst & Hc & Hfresh). exists vs. split; [reflexivity|].
  split; [exact Hst|]. split; [exact Hc|].
  unfold sum_world, sum_heap. cbn [heap].
  destruct (data_ vs) as [a|]; [|reflexivity].
  split; [now apply Hfresh | now eexists].
Qed.

Lemma sum_heap_release (h : gmap ptr (list (option T))) vs zs :
  (forall a, data_ vs = Some a -> h !! a = None) ->
  release (data_ vs) (sum_heap h vs zs) = h.
Proof.
  intros Hfresh. unfold sum_heap. destruct (data_ vs) as [a|]; [|reflexivity].
  cbn [release]. apply delete_insert_id. now apply Hfresh.
Qed.

Lemma sum_heap_fresh (h : gmap ptr (list (option T))) vs zs :
  (forall a, data_ vs = Some a -> h !! a = None) ->
  h !! fresh (dom (sum_heap h vs zs)) = None.
Proof.
  intros Hfresh. destruct (h !! fresh (dom (sum_heap h vs zs))) as [b|] eqn:Hb;
    [|reflexivity].
  exfalso.
  assert (Hx : sum_heap h vs zs !! fresh (dom (sum_heap h vs zs)) = Some b).
  { unfold sum_heap in *. destruct (data_ vs) as [a|]; [|exact Hb].
    rewrite lookup_insert_ne; [exact Hb|].
    intros Heq. rewrite <- Heq, (Hfresh _ eq_refl) in Hb. discriminate. }
  exact (allocated_not_fresh _ _ _ Hx eq_refl).
Qed.

(** One [emplace_back] on [sum] does what [sum_step] says: it returns with
    the data members and the block that [sum_step] gives, or the growth it
    asks for is refused and it throws with the store as it was. *)
Lemma sum_at_step (w : world T) sum vs zs z :
  sum_at w sum vs zs -> Z.of_nat (length zs) + 1 < 2 ^ 63 ->
  match sum_step allocatable (heap w) vs zs with
  | Some vs' =>
      append allocatable sum (Outside z) (sum_world w sum vs zs) =
        Ret (Ref (data_ vs') (size_ vs)) (sum_world w sum vs' (zs ++ [z])) /\
      sum_at w sum vs' (zs ++ [z])
  | None =>
      append allocatable sum (Outside z) (sum_world w sum vs zs) =
        Throw bad_alloc (sum_world w sum vs zs)
  end.
Proof.
  intros (Hst & Hc & Hfresh) Hlen.
  assert (Hvs : objs (sum_world w sum vs zs) !! sum = Some vs) by apply lookup_insert_eq.
  pose proof Hst as (Hsz & Hle & Hr & Hd).
  unfold sum_step.
  destruct (Z.ltb_spec (size_ vs + 1) (capacity_ vs)) as [Hlt | Hfull].
  - destruct (append_direct allocatable sum z _ vs zs Hvs Hst Hc Hlt)
      as (p & b & Hp & Hb & E).
    assert (Hw : World
        (<[sum := Vec (Some p) (size_ vs + 1) (capacity_ vs)]>
           (objs (sum_world w sum vs zs)))
        (<[p := <[length zs := Some z]> b]> (heap (sum_world w sum vs zs))) =
      sum_world w sum (Vec (data_ vs) (size_ vs + 1) (capacity_ vs)) (zs ++ [z])).
    { unfold sum_world, sum_heap in *. cbn [objs heap data_ capacity_] in *.
      rewrite Hp in *. rewrite lookup_insert_eq in Hb. injection Hb as <-.
      rewrite !insert_insert_eq. now rewrite block_of_snoc by lia. }
    split.
    + rewrite E, Hw. cbn [data_]. now rewrite Hp.
    + split; [|split; [exact Hc | exact Hfresh]].
      rewrite <- Hw. rewrite Hp.
      exact (stored_append_direct _ vs zs z p b _ Hst Hp Hb Hlt).
  - assert (Hc' : capacity_ vs < 2 ^ 63) by lia.
    destruct (alloc_size_bounds (capacity_ vs + 1)) as ((Hge & Hmax) & _); [lia|].
    change (sum_heap (heap w) vs zs) with (heap (sum_world w sum vs zs)).
    destruct (allocatable (heap (sum_world w sum vs zs))
                (alloc_size (capacity_ vs + 1))) eqn:Ha.
    + pose proof (append_grow allocatable sum z _ vs zs Hvs Hst Hc' ltac:(lia) Ha) as E.
      pose proof (stored_append_grow _ vs zs z (alloc_size (capacity_ vs + 1))
        (<[sum := Vec (Some (fresh (dom (heap (sum_world w sum vs zs)))))
                      (size_ vs + 1) (alloc_size (capacity_ vs + 1))]> (objs w))
        Hst ltac:(lia) ltac:(unfold SizeT.in_range; rewrite modulus_eq; lia)) as Hst'.
      generalize dependent (alloc_size (capacity_ vs + 1)). intros n Hge Hmax Ha E Hst'.
      assert (Hrel : release (data_ vs) (heap (sum_world w sum vs zs)) = heap w)
        by exact (sum_heap_release _ _ _ Hfresh).
      rewrite Hrel in E, Hst'.
      assert (Hw : World
          (<[sum := Vec (Some (fresh (dom (heap (sum_world w sum vs zs)))))
                        (size_ vs + 1) n]> (objs (sum_world w sum vs zs)))
          (<[fresh (dom (heap (sum_world w sum vs zs))) := block_of (zs ++ [z]) n]>
             (heap w)) =
        sum_world w sum
          (Vec (Some (fresh (dom (heap (sum_world w sum vs zs))))) (size_ vs + 1) n)
          (zs ++ [z])).
      { rewrite sum_world_Some, sum_world_objs. now rewrite insert_insert_eq. }
      split; [rewrite E, Hw; reflexivity|].
      split; [|split; [exact Hmax|]].
      * rewrite sum_world_Some. exact Hst'.
      * cbn [data_]. intros a [= <-]. exact (sum_heap_fresh _ _ _ Hfresh).
    + apply (append_refused allocatable sum _ _ vs Hvs);
        [lia | exact Hc' | lia | exact Ha].
Qed.

(** The loop of [operator+] and [operator-] does what [sum_run] says. *)
Lemma sum_loop op l r sum (w : world T) vl vr :
  objs w !! l = Some vl -> objs w !! r = Some vr -> l <> sum -> r <> sum ->
  forall tx ty dx dy vs,
    length tx = length ty -> length dx = length dy ->
    stored w vl (dx ++ tx) -> stored w vr (dy ++ ty) ->
    Z.of_nat (length (dx ++ tx)) < 2 ^ 63 ->
    sum_at w sum vs (zip_with op dx dy) ->
    match sum_run allocatable (heap w) vs (zip_with op dx dy) (zip_with op tx ty) with
    | Some vs' =>
        for_from (Z.of_nat (length dx)) (length tx)
          (sum_body allocatable op l r sum) (sum_world w sum vs (zip_with op dx dy))
          = Ret tt (sum_world w sum vs' (zip_with op (dx ++ tx) (dy ++ ty))) /\
        sum_at w sum vs' (zip_with op (dx ++ tx) (dy ++ ty))
    | None =>
        exists vs' zs,
          for_from (Z.of_nat (length dx)) (length tx)
            (sum_body allocatable op l r sum) (sum_world w sum vs (zip_with op dx dy))
            = Throw bad_alloc (sum_world w sum vs' zs) /\
          sum_at w sum vs' zs
    end.
Proof.
  intros Hl Hr Hls Hrs.
  induction tx as [|x tx IH]; intros ty dx dy vs Ht Hd Hsl Hsr Hlen Hat.
  - destruct ty; [|discriminate]. rewrite !app_nil_r. cbn [zip_with sum_run].
    split; [reflexivity | exact Hat].
  - destruct ty as [|y ty]; [discriminate|]. cbn [length for_from zip_with sum_run].
    pose proof (sum_at_inv _ _ _ _ Hat) as Hinv.
    destruct (sum_inv_frame _ _ _ _ _ _ _ Hinv Hls Hl Hsl) as (Hl' & Hsl' & _).
    destruct (sum_inv_frame _ _ _ _ _ _ _ Hinv Hrs Hr Hsr) as (Hr' & Hsr' & _).
    assert (Ex : elem l (Z.of_nat (length dx)) (sum_world w sum vs (zip_with op dx dy))
                 = Ret x (sum_world w sum vs (zip_with op dx dy))).
    { apply (elem_stored l _ vl _ _ x Hl' Hsl').
      now rewrite lookup_app_r, Nat.sub_diag by lia. }
    assert (Ey : elem r (Z.of_nat (length dx)) (sum_world w sum vs (zip_with op dx dy))
                 = Ret y (sum_world w sum vs (zip_with op dx dy))).
    { apply (elem_stored r _ vr _ _ y Hr' Hsr').
      rewrite Hd. now rewrite lookup_app_r, Nat.sub_diag by lia. }
    assert (Hzl : length (zip_with op dx dy) = length dx).
    { apply length_zip_with_l_eq. exact Hd. }
    pose proof (sum_at_step w sum vs (zip_with op dx dy) (op x y) Hat) as Hstep.
    destruct (sum_step allocatable (heap w) vs (zip_with op dx dy)) as [vs1|].
    + destruct Hstep as [E Hat1].
      { rewrite Hzl. rewrite length_app in Hlen. cbn [length] in Hlen. lia. }
      assert (Hbody :
        sum_body allocatable op l r sum (Z.of_nat (length dx))
          (sum_world w sum vs (zip_with op dx dy))
        = Ret tt (sum_world w sum vs1 (zip_with op dx dy ++ [op x y]))).
      { unfold sum_body. rewrite (bind_Ret _ _ _ _ _ Ex), (bind_Ret _ _ _ _ _ Ey).
        unfold emplace_back. now rewrite (bind_Ret _ _ _ _ _ E). }
      rewrite (bind_Ret _ _ _ _ _ Hbody).
      replace (Z.of_nat (length dx) + 1) with (Z.of_nat (length (dx ++ [x])))
        by (rewrite length_app; cbn; lia).
      replace (dx ++ x :: tx) with ((dx ++ [x]) ++ tx) in * by now rewrite <- app_assoc.
      replace (dy ++ y :: ty) with ((dy ++ [y]) ++ ty) in * by now rewrite <- app_assoc.
      replace (zip_with op dx dy ++ [op x y]) with (zip_with op (dx ++ [x]) (dy ++ [y]))
        in * by now rewrite zip_with_app.
      apply IH; try assumption.
      * now injection Ht.
      * rewrite !length_app. cbn. lia.
    + exists vs, (zip_with op dx dy). split; [|exact Hat].
      apply bind_Throw. unfold sum_body.
      rewrite (bind_Ret _ _ _ _ _ Ex), (bind_Ret _ _ _ _ _ Ey).
      unfold emplace_back. apply bind_Throw. apply Hstep.
      rewrite Hzl. rewrite length_app in Hlen. cbn [length] in Hlen. lia.
Qed.

(** The destructor of [sum] restores the store of the call. *)
Lemma sum_inv_dtor (w wi : world T) sum zs :
  sum_inv w sum wi zs -> objs w !! sum = None ->
  vector_dtor sum wi = Ret tt w.
Proof.
  intros (vs & Ho & Hst & _ & Hh) Hfresh.
  assert (Hvs : objs wi !! sum = Some vs) by (rewrite Ho; apply lookup_insert_eq).
  unfold vector_dtor. rewrite (bind_Ret _ _ _ _ _ (self_Some _ _ _ Hvs)).
  destruct Hst as (_ & _ & _ & Hd).
  assert (Hde : deallocate (data_ vs) (capacity_ vs) wi =
                Ret tt (World (objs wi) (heap w))).
  { unfold deallocate. destruct (data_ vs) as [a|].
    - destruct Hd as (b & Hb & Hlen & _). rewrite Hb.
      rewrite decide_True by exact Hlen.
      destruct Hh as (Ha & blk & Hh). unfold with_heap. rewrite Hh.
      now rewrite delete_insert_id.
    - rewrite <- Hh. now rewrite world_eta. }
  rewrite (bind_Ret _ _ _ _ _ Hde). unfold with_objs. cbn [objs heap].
  rewrite Ho, delete_insert_id by exact Hfresh. now rewrite world_eta.
Qed.

End Elementwise.

Section Arithmetic.

Context {T : Type} `{EqDecision T}.
Variable allocatable : gmap ptr (list (option T)) -> Z -> bool.

Lemma fresh_not_object (os : gmap loc vector) : os !! fresh (dom os) = None.
Proof. apply not_elem_of_dom, is_fresh. Qed.

Lemma elementwise_mismatch op l r (w : world T) vl vr :
  objs w !! l = Some vl -> objs w !! r = Some vr -> size_ vl <> size_ vr ->
  elementwise allocatable op l r w = Throw vector_size_mismatch w.
Proof.
  intros Hl Hr Hne. unfold elementwise.
  rewrite (bind_Ret _ _ _ _ _ (size_Some _ _ _ Hl)).
  rewrite (bind_Ret _ _ _ _ _ (size_Some _ _ _ Hr)).
  destruct (Z.eqb_spec (size_ vl) (size_ vr)); [contradiction | reflexivity].
Qed.

(** With equal sizes the call runs the loop on a local [sum]: it returns
    [sum] as [sum_run] leaves it, or, when [sum_run] meets a refused growth,
    destroys [sum] and throws with the store of the call restored. *)
Lemma elementwise_same_size op l r (w : world T) vl vr xs ys :
  objs w !! l = Some vl -> objs w !! r = Some vr ->
  stored w vl xs -> stored w vr ys ->
  size_ vl = size_ vr -> size_ vl < 2 ^ 63 ->
  match sum_run allocatable (heap w) (Vec None 0 0) [] (zip_with op xs ys) with
  | Some vs =>
      elementwise allocatable op l r w =
        Ret (fresh (dom (objs w)))
            (sum_world w (fresh (dom (objs w))) vs (zip_with op xs ys)) /\
      sum_at w (fresh (dom (objs w))) vs (zip_with op xs ys)
  | None => elementwise allocatable op l r w = Throw bad_alloc w
  end.
Proof.
  intros Hl Hr Hsl Hsr Hs Hlt.
  set (s := fresh (dom (objs w))).
  assert (Hfresh : objs w !! s = None) by apply fresh_not_object.
  assert (Hls : l <> s) by congruence. assert (Hrs : r <> s) by congruence.
  pose proof Hsl as (Hszl & _). pose proof Hsr as (Hszr & _).
  assert (Hrun : forall o,
    unwinding s (for_upto (size_ vl) (sum_body allocatable op l r s))
      (with_objs (insert s (Vec None 0 0)) w) = o ->
    elementwise allocatable op l r w =
      match o with
      | Ret _ w' => Ret s w'
      | Throw e w' => Throw e w'
      | Undef => Undef
      end).
  { intros o Ho. unfold elementwise.
    rewrite (bind_Ret _ _ _ _ _ (size_Some _ _ _ Hl)).
    rewrite (bind_Ret _ _ _ _ _ (size_Some _ _ _ Hr)).
    destruct (Z.eqb_spec (size_ vl) (size_ vr)); [|contradiction]. cbn [negb].
    rewrite (bind_Ret _ _ _ s w) by reflexivity.
    rewrite (bind_Ret _ _ _ tt (with_objs (insert s (Vec None 0 0)) w)) by reflexivity.
    change (fun i : Z => bind (elem l i) (fun a => bind (elem r i) (fun b =>
              bind (emplace_back allocatable s (Outside (op a b))) (fun _ => ret tt))))
      with (sum_body allocatable op l r s).
    unfold bind at 1. rewrite Ho. now destruct o. }
  pose proof (sum_loop allocatable op l r s w vl vr Hl Hr Hls Hrs xs ys [] []
                (Vec None 0 0))
    as Hloop.
  cbn [app length zip_with] in Hloop. change (Z.of_nat 0) with 0 in Hloop.
  rewrite sum_world_init in Hloop.
  destruct (sum_run allocatable (heap w) (Vec None 0 0) [] (zip_with op xs ys))
    as [vs|].
  - destruct Hloop as [E Hat]; try assumption; try reflexivity.
    { lia. } { lia. } { apply sum_at_init. }
    split; [|exact Hat].
    rewrite (Hrun (Ret tt (sum_world w s vs (zip_with op xs ys)))); [reflexivity|].
    unfold unwinding, for_upto. rewrite Hszl, Nat2Z.id. now rewrite E.
  - destruct Hloop as (vs' & zs & E & Hat); try assumption; try reflexivity.
    { lia. } { lia. } { apply sum_at_init. }
    rewrite (Hrun (Throw bad_alloc w)); [reflexivity|].
    unfold unwinding, for_upto. rewrite Hszl, Nat2Z.id. rewrite E.
    now rewrite (sum_inv_dtor w _ s zs (sum_at_inv _ _ _ _ Hat) Hfresh).
Qed.

(** An allocator that grants every request lets [sum_run] finish, and
    [sum_run] fails only on a refusal. *)
Lemma sum_run_granted (h : gmap ptr (list (option T))) todo :
  (forall h' n, allocatable h' n = true) ->
  forall vs zs, is_Some (sum_run allocatable h vs zs todo).
Proof.
  intros Hall. induction todo as [|z todo IH]; intros vs zs; cbn [sum_run].
  - now eexists.
  - unfold sum_step. destruct (size_ vs + 1 <? capacity_ vs); [apply IH|].
    rewrite Hall. apply IH.
Qed.

Lemma sum_inv_result op l r (w w' : world T) vl vr xs ys :
  objs w !! l = Some vl -> objs w !! r = Some vr ->
  stored w vl xs -> stored w vr ys -> size_ vl = size_ vr ->
  sum_inv w (fresh (dom (objs w))) w' (zip_with op xs ys) ->
  elementwise_result op l r w vl vr xs ys (fresh (dom (objs w))) w'.
Proof.
  intros Hl Hr Hsl Hsr Hs Hinv.
  set (s := fresh (dom (objs w))) in *.
  assert (Hfresh : objs w !! s = None) by apply fresh_not_object.
  assert (Hls : l <> s) by congruence. assert (Hrs : r <> s) by congruence.
  destruct (sum_inv_frame _ _ _ _ _ _ _ Hinv Hls Hl Hsl) as (Hl' & Hsl' & Hfl).
  destruct (sum_inv_frame _ _ _ _ _ _ _ Hinv Hrs Hr Hsr) as (Hr' & Hsr' & Hfr).
  destruct Hinv as (vs & Ho & Hst & _).
  assert (Hvs : objs w' !! s = Some vs) by (rewrite Ho; apply lookup_insert_eq).
  pose proof Hsl as (Hszl & _). pose proof Hsr as (Hszr & _).
  split; [exact Hfresh|]. split.
  { exists vs. split; [exact Hvs|]. split; [|exact Hst].
    destruct Hst as (-> & _). rewrite length_zip_with_l_eq by lia. lia. }
  split.
  { intros i x y Hx Hy. apply (elem_stored s w' vs _ i _ Hvs Hst).
    rewrite lookup_zip_with, Hx, Hy. reflexivity. }
  repeat (split; [assumption|]).
  intros p [Hp | Hp]; auto.
Qed.

(** C5. On valid vectors (sizes below [2^63]): [operator+] and
    [operator-] throw [vector_size_mismatch], with the store unchanged,
    exactly when the sizes differ. When the sizes agree, the outcome is
    decided by the growth requests that filling the result makes, which
    [sum_run] lists. If all of them are granted, the call returns a new
    vector, with the data members [sum_run] gives, of the same size, whose
    element at every index [i] is [l[i] + r[i]] (resp. [l[i] - r[i]]), with
    [l], [r] and their storage unchanged. If one of them is refused, the
    call throws [bad_alloc] with the store unchanged. *)
Theorem op_plus_minus_elementwise T_add T_sub l r (w : world T) vl vr xs ys :
  objs w !! l = Some vl -> objs w !! r = Some vr ->
  stored w vl xs -> stored w vr ys -> size_ vl < 2 ^ 63 ->
  ((exists w', op_plus allocatable T_add l r w = Throw vector_size_mismatch w')
     <-> size_ vl <> size_ vr) /\
  ((exists w', op_minus allocatable T_sub l r w = Throw vector_size_mismatch w')
     <-> size_ vl <> size_ vr) /\
  (size_ vl <> size_ vr ->
     op_plus allocatable T_add l r w = Throw vector_size_mismatch w /\
     op_minus allocatable T_sub l r w = Throw vector_size_mismatch w) /\
  (size_ vl = size_ vr ->
     let s := fresh (dom (objs w)) in
     match sum_run allocatable (heap w) (Vec None 0 0) [] (zip_with T_add xs ys) with
     | Some vs =>
         let w' := sum_world w s vs (zip_with T_add xs ys) in
         op_plus allocatable T_add l r w = Ret s w' /\
         elementwise_result T_add l r w vl vr xs ys s w'
     | None => op_plus allocatable T_add l r w = Throw bad_alloc w
     end /\
     match sum_run allocatable (heap w) (Vec None 0 0) [] (zip_with T_sub xs ys) with
     | Some vs =>
         let w' := sum_world w s vs (zip_with T_sub xs ys) in
         op_minus allocatable T_sub l r w = Ret s w' /\
         elementwise_result T_sub l r w vl vr xs ys s w'
     | None => op_minus allocatable T_sub l r w = Throw bad_alloc w
     end).
Proof.
  intros Hl Hr Hsl Hsr Hlt. unfold op_plus, op_minus.
  assert (Hsame : forall op, size_ vl = size_ vr ->
    match sum_run allocatable (heap w) (Vec None 0 0) [] (zip_with op xs ys) with
    | Some vs =>
        elementwise allocatable op l r w =
          Ret (fresh (dom (objs w)))
              (sum_world w (fresh (dom (objs w))) vs (zip_with op xs ys)) /\
        elementwise_result op l r w vl vr xs ys (fresh (dom (objs w)))
          (sum_world w (fresh (dom (objs w))) vs (zip_with op xs ys))
    | None => elementwise allocatable op l r w = Throw bad_alloc w
    end).
  { intros op Hs.
    pose proof (elementwise_same_size op l r w vl vr xs ys Hl Hr Hsl Hsr Hs Hlt) as E.
    destruct (sum_run allocatable (heap w) (Vec None 0 0) [] (zip_with op xs ys))
      as [vs|]; [|exact E].
    destruct E as [E Hat]. split; [exact E|].
    exact (sum_inv_result op l r w _ vl vr xs ys Hl Hr Hsl Hsr Hs
             (sum_at_inv _ _ _ _ Hat)). }
  assert (Hiff : forall op,
    (exists w', elementwise allocatable op l r w = Throw vector_size_mismatch w')
      <-> size_ vl <> size_ vr).
  { intros op. split.
    - intros (w' & E) Hs. specialize (Hsame op Hs).
      destruct (sum_run allocatable (heap w) (Vec None 0 0) [] (zip_with op xs ys));
        [destruct Hsame as [E1 _]|]; congruence.
    - intros Hne. exists w. exact (elementwise_mismatch op l r w vl vr Hl Hr Hne). }
  split; [apply Hiff|]. split; [apply Hiff|]. split.
  - intros Hne. split; exact (elementwise_mismatch _ l r w vl vr Hl Hr Hne).
  - intros Hs. cbv zeta. split; apply Hsame; exact Hs.
Qed.

End Arithmetic.

(** [{10, 20, 30} + {10, 20, 30}] has 60 at index 2; [{10, 20, 30} - {1, 2}]
    is a size mismatch. *)
Lemma op_plus_minus_elementwise_witness :
  (exists s w',
     op_plus grants_all Z.add 1%positive 2%positive three_vectors = Ret s w' /\
     elem s 2 w' = Ret 60 w') /\
  op_minus grants_all Z.sub 1%positive 3%positive three_vectors
    = Throw vector_size_mismatch three_vectors.
Proof.
  destruct three_vectors_stored as ((H1 & S1) & (H2 & S2) & (H3 & S3)).
  split.
  - destruct (op_plus_minus_elementwise grants_all Z.add Z.sub 1%positive 2%positive
                three_vectors _ _ _ _ H1 H2 S1 S2) as (_ & _ & _ & Hsame).
    { cbn [size_]. lia. }
    destruct Hsame as [Hplus _]; [reflexivity|].
    destruct (sum_run grants_all (heap three_vectors) (Vec None 0 0) []
                (zip_with Z.add [10; 20; 30] [10; 20; 30])) as [vs|] eqn:Hrun.
    + destruct Hplus as [E Hres]. eexists _, _. split; [exact E|].
      destruct Hres as (_ & _ & Helem & _).
      exact (Helem 2%nat 30 30 eq_refl eq_refl).
    + vm_compute in Hrun. discriminate Hrun.
  - destruct (op_plus_minus_elementwise grants_all Z.add Z.sub 1%positive 3%positive
                three_vectors _ _ _ _ H1 H3 S1 S3) as (_ & _ & Hdiff & _).
    { cbn [size_]. lia. }
    apply Hdiff. cbn [size_]. lia.
Defined.

(** ** Construction from another vector, [swap] and destruction *)

Section Objects.

Context {T : Type} `{EqDecision T}.
Variable allocatable : gmap ptr (list (option T)) -> Z -> bool.

Lemma no_throw_set_self this v : no_throw (set_self (T:=T) this v).
Proof. intros w e w'. discriminate. Qed.

Lemma no_throw_swap a b : no_throw (swap (T:=T) a b).
Proof.
  unfold swap. apply no_throw_bind; [apply self_no_throw|]. intros va.
  apply no_throw_bind; [apply self_no_throw|]. intros vb.
  apply no_throw_bind; [apply no_throw_set_self|]. intros _.
  apply no_throw_set_self.
Qed.

Lemma no_throw_dtor x : no_throw (vector_dtor (T:=T) x).
Proof.
  unfold vector_dtor. apply no_throw_bind; [apply self_no_throw|]. intros v.
  apply no_throw_bind; [apply no_throw_deallocate|]. intros _ w e w'. discriminate.
Qed.

Lemma no_throw_local : no_throw (local (T:=T)).
Proof. intros w e w'. discriminate. Qed.

Lemma no_throw_move this other : no_throw (vector_move (T:=T) this other).
Proof.
  unfold vector_move. apply no_throw_bind; [apply self_no_throw|]. intros v.
  apply no_throw_bind; [apply no_throw_set_self|]. intros _.
  apply no_throw_set_self.
Qed.

Lemma swap_Some a b (w : world T) va vb :
  objs w !! a = Some va -> objs w !! b = Some vb ->
  swap a b w = Ret tt (with_objs (fun os => <[a := vb]> (<[b := va]> os)) w).
Proof.
  intros Ha Hb. unfold swap.
  rewrite (bind_Ret _ _ _ _ _ (self_Some _ _ _ Ha)).
  now rewrite (bind_Ret _ _ _ _ _ (self_Some _ _ _ Hb)).
Qed.

Lemma vector_move_Some this other (w : world T) vo :
  objs w !! other = Some vo ->
  vector_move this other w =
    Ret tt (with_objs (fun os => <[other := Vec None 0 0]> (<[this := vo]> os)) w).
Proof.
  intros Ho. unfold vector_move.
  rewrite (bind_Ret _ _ _ _ _ (self_Some _ _ _ Ho)). now rewrite vector_eta.
Qed.

(** The destructor of a vector whose storage is null or a live block of
    [capacity] slots. *)
Lemma vector_dtor_Some x (w : world T) v :
  objs w !! x = Some v ->
  match data_ v with
  | None => True
  | Some p => exists b, heap w !! p = Some b /\ Z.of_nat (length b) = capacity_ v
  end ->
  vector_dtor x w = Ret tt (World (delete x (objs w)) (release (data_ v) (heap w))).
Proof.
  intros Hx Hd. unfold vector_dtor.
  rewrite (bind_Ret _ _ _ _ _ (self_Some _ _ _ Hx)).
  assert (Hde : deallocate (data_ v) (capacity_ v) w =
                Ret tt (with_heap (release (data_ v)) w)).
  { unfold deallocate. destruct (data_ v) as [p|].
    - destruct Hd as (b & Hb & Hlen). rewrite Hb. now rewrite decide_True.
    - unfold with_heap. cbn [release]. now rewrite world_eta. }
  now rewrite (bind_Ret _ _ _ _ _ Hde).
Qed.

Lemma vector_copy_Throw this other (w w' : world T) e :
  vector_copy allocatable this other w = Throw e w' -> e = bad_alloc /\ w' = w.
Proof.
  unfold vector_copy. intros E.
  apply bind_inv_Throw in E as [E | (vo & w1 & E1 & E)].
  { now apply self_no_throw in E. }
  apply self_inv in E1 as [-> _].
  apply bind_inv_Throw in E as [E | (a & w1 & _ & E)].
  { now apply allocate_Throw in E. }
  apply bind_inv_Throw in E as [E | ([] & w2 & _ & E)]; [discriminate|].
  now apply no_throw_copy in E.
Qed.

Lemma vector_copy_refused this other (w : world T) vo :
  objs w !! other = Some vo -> allocatable (heap w) (capacity_ vo) = false ->
  vector_copy allocatable this other w = Throw bad_alloc w.
Proof.
  intros Ho Ha. unfold vector_copy.
  rewrite (bind_Ret _ _ _ _ _ (self_Some _ _ _ Ho)).
  apply bind_Throw. unfold allocate. now rewrite Ha.
Qed.

(** The copy constructor: a new block of [other.capacity_] slots that
    holds the elements of [other]. *)
Lemma vector_copy_Some this other (w : world T) vo xs :
  objs w !! other = Some vo -> stored w vo xs ->
  allocatable (heap w) (capacity_ vo) = true ->
  vector_copy allocatable this other w =
    Ret tt (World
      (<[this := Vec (Some (fresh (dom (heap w)))) (size_ vo) (capacity_ vo)]> (objs w))
      (<[fresh (dom (heap w)) := block_of xs (capacity_ vo)]> (heap w))).
Proof.
  intros Ho (Hsz & Hle & Hr & Hd) Ha.
  set (a := fresh (dom (heap w))).
  unfold vector_copy. rewrite (bind_Ret _ _ _ _ _ (self_Some _ _ _ Ho)).
  assert (Hal : allocate allocatable (capacity_ vo) w =
    Ret a (with_heap (insert a (replicate (Z.to_nat (capacity_ vo)) None)) w)).
  { unfold allocate. now rewrite Ha. }
  rewrite (bind_Ret _ _ _ _ _ Hal). clear Hal.
  unfold set_self at 1. erewrite bind_Ret by reflexivity.
  change (fun i : Z => bind (load (data_ vo) i) (fun x => construct (Some a) i x))
    with (copy_body (T:=T) (data_ vo) (Some a)).
  unfold for_upto. rewrite Hsz, Nat2Z.id.
  destruct (data_ vo) as [p|] eqn:Hp.
  - destruct Hd as (b & Hb & Hlen & Htake).
    assert (Hpa : p <> a) by exact (allocated_not_fresh _ _ _ Hb).
    erewrite (copy_loop p a b xs [] (Z.to_nat (capacity_ vo))).
    + unfold with_heap, with_objs. cbn [objs heap app].
      rewrite insert_insert_eq. reflexivity.
    + exact Hpa.
    + cbn [heap with_heap with_objs]. now rewrite lookup_insert_ne by congruence.
    + intros i x Hi. exact (prefix_lookup _ _ _ _ Htake Hi).
    + cbn [heap with_heap with_objs]. now rewrite lookup_insert_eq.
    + lia.
  - assert (xs = []) as -> by (destruct xs; [reflexivity | cbn in Hsz; lia]).
    cbn [length for_from]. unfold ret, with_heap, with_objs, block_of.
    cbn [objs heap fmap list_fmap app length]. now rewrite Nat.sub_0_r.
Qed.

End Objects.

(** ** Assignment *)

Section Assignment.

Context {T : Type} `{EqDecision T}.
Variable allocatable : gmap ptr (list (option T)) -> Z -> bool.

Lemma object_not_fresh (os : gmap loc vector) x v :
  os !! x = Some v -> x <> fresh (dom os).
Proof. intros Hx ->. now rewrite fresh_not_object in Hx. Qed.

Lemma stored_block (w : world T) v xs p :
  stored w v xs -> data_ v = Some p ->
  exists b, heap w !! p = Some b /\ Z.of_nat (length b) = capacity_ v.
Proof.
  intros (_ & _ & _ & Hd) Hp. rewrite Hp in Hd.
  destruct Hd as (b & Hb & Hlen & _). now exists b.
Qed.

Lemma assign_copy_self this (w : world T) :
  assign_copy allocatable this this w = Ret tt w.
Proof. unfold assign_copy. now rewrite decide_True. Qed.

Lemma assign_move_self this (w : world T) :
  assign_move this this w = Ret tt w.
Proof. unfold assign_move. now rewrite decide_True. Qed.

Lemma assign_copy_Throw this other (w w' : world T) e :
  assign_copy allocatable this other w = Throw e w' -> e = bad_alloc /\ w' = w.
Proof.
  unfold assign_copy. case_decide; [discriminate|]. intros E.
  apply bind_inv_Throw in E as [E | (c & w1 & E1 & E)]; [discriminate|].
  injection E1 as <- <-.
  apply bind_inv_Throw in E as [E | ([] & w1 & _ & E)].
  { exact (vector_copy_Throw _ _ _ _ _ _ E). }
  apply bind_inv_Throw in E as [E | ([] & w2 & _ & E)].
  { now apply no_throw_swap in E. }
  now apply no_throw_dtor in E.
Qed.

Lemma assign_move_no_throw this other : no_throw (assign_move (T:=T) this other).
Proof.
  unfold assign_move. case_decide; [apply no_throw_ret|].
  apply no_throw_bind; [apply no_throw_local|]. intros c.
  apply no_throw_bind; [apply no_throw_move|]. intros _.
  apply no_throw_bind; [apply no_throw_swap|]. intros _.
  apply no_throw_dtor.
Qed.

Lemma assign_copy_refused this other (w : world T) vo :
  other <> this -> objs w !! other = Some vo ->
  allocatable (heap w) (capacity_ vo) = false ->
  assign_copy allocatable this other w = Throw bad_alloc w.
Proof.
  intros Hne Ho Ha. unfold assign_copy. rewrite decide_False by exact Hne.
  rewrite (bind_Ret _ _ _ (fresh (dom (objs w))) w) by reflexivity.
  apply bind_Throw. exact (vector_copy_refused _ _ _ _ _ Ho Ha).
Qed.

(** The temporary of an assignment is gone after its destructor. *)
Lemma temporary_removed (os : gmap loc vector) c this vt vn :
  os !! c = None -> this <> c ->
  delete c (<[c := vt]> (<[this := vn]> (<[c := vn]> os))) = <[this := vn]> os.
Proof.
  intros Hc Hne.
  rewrite delete_insert_eq, delete_insert_ne by congruence.
  now rewrite delete_insert_id.
Qed.

(** Copy assignment between two valid vectors with separate storage, when
    the allocator grants the copy: copy-construct, swap, destroy. *)
Lemma assign_copy_Some this other (w : world T) vt ts vo xs :
  other <> this ->
  objs w !! this = Some vt -> stored w vt ts ->
  objs w !! other = Some vo -> stored w vo xs ->
  allocatable (heap w) (capacity_ vo) = true ->
  assign_copy allocatable this other w =
    Ret tt (World
      (<[this := Vec (Some (fresh (dom (heap w)))) (size_ vo) (capacity_ vo)]> (objs w))
      (release (data_ vt)
         (<[fresh (dom (heap w)) := block_of xs (capacity_ vo)]> (heap w)))).
Proof.
  intros Hne Ht Hst Ho Hso Ha.
  set (c := fresh (dom (objs w))). set (a := fresh (dom (heap w))).
  set (vn := Vec (Some a) (size_ vo) (capacity_ vo)).
  assert (Hc : objs w !! c = None) by apply fresh_not_object.
  assert (Htc : this <> c) by exact (object_not_fresh _ _ _ Ht).
  unfold assign_copy. rewrite decide_False by exact Hne.
  rewrite (bind_Ret _ _ _ c w) by reflexivity.
  rewrite (bind_Ret _ _ _ _ _ (vector_copy_Some allocatable c other w vo xs Ho Hso Ha)).
  fold a vn.
  erewrite bind_Ret.
  2:{ apply (swap_Some c this _ vn vt); cbn [objs].
      - apply lookup_insert_eq.
      - now rewrite lookup_insert_ne by congruence. }
  unfold with_objs. cbn [objs heap].
  erewrite (vector_dtor_Some c _ vt).
  - cbn [objs heap]. now rewrite temporary_removed by assumption.
  - cbn [objs]. apply lookup_insert_eq.
  - cbn [heap]. destruct (data_ vt) as [p|] eqn:Hp; [|exact I].
    destruct (stored_block w vt ts p Hst Hp) as (b & Hb & Hlen).
    exists b. split; [|exact Hlen].
    rewrite lookup_insert_ne; [exact Hb|].
    intros <-. exact (allocated_not_fresh _ _ _ Hb eq_refl).
Qed.

(** Move assignment between two distinct vectors, the target valid. *)
Lemma assign_move_Some this other (w : world T) vt ts vo :
  other <> this ->
  objs w !! this = Some vt -> stored w vt ts ->
  objs w !! other = Some vo ->
  assign_move this other w =
    Ret tt (World (<[this := vo]> (<[other := Vec None 0 0]> (objs w)))
                  (release (data_ vt) (heap w))).
Proof.
  intros Hne Ht Hst Ho.
  set (c := fresh (dom (objs w))).
  assert (Hc : objs w !! c = None) by apply fresh_not_object.
  assert (Htc : this <> c) by exact (object_not_fresh _ _ _ Ht).
  assert (Hoc : other <> c) by exact (object_not_fresh _ _ _ Ho).
  unfold assign_move. rewrite decide_False by exact Hne.
  rewrite (bind_Ret _ _ _ c w) by reflexivity.
  rewrite (bind_Ret _ _ _ _ _ (vector_move_Some c other w vo Ho)).
  erewrite bind_Ret.
  2:{ apply (swap_Some c this _ vo vt); cbn [objs with_objs].
      - rewrite lookup_insert_ne by congruence. apply lookup_insert_eq.
      - now rewrite !lookup_insert_ne by congruence. }
  unfold with_objs. cbn [objs heap].
  erewrite (vector_dtor_Some c _ vt).
  - cbn [objs heap]. f_equal.
    rewrite delete_insert_eq, !delete_insert_ne by congruence.
    now rewrite delete_insert_id.
  - cbn [objs]. apply lookup_insert_eq.
  - cbn [heap]. destruct (data_ vt) as [p|] eqn:Hp; [|exact I].
    exact (stored_block w vt ts p Hst Hp).
Qed.

End Assignment.

Section AssignmentClaims.

Context {T : Type} `{EqDecision T}.
Variable allocatable : gmap ptr (list (option T)) -> Z -> bool.

(** C6. Copy and move assignment of a vector to itself return at the guard
    with the store unchanged. Copy assignment that throws does so with
    [bad_alloc] while the replacement is built, and leaves the whole store,
    the target included, as it was; this is what happens when the allocator
    refuses the copy. Move assignment never throws. When the allocator
    grants the copy, copy assignment between valid vectors with separate
    storage returns with the target holding a copy of the source in a new
    block of the source's capacity, the old block of the target released and
    the source unchanged. *)
Theorem assignment_failure_atomic this other (w : world T) :
  assign_copy allocatable this this w = Ret tt w /\
  assign_move this this w = Ret tt w /\
  (forall e w', assign_copy allocatable this other w = Throw e w' ->
     e = bad_alloc /\ w' = w) /\
  (forall e w', assign_move this other w <> Throw e w') /\
  (forall vo, other <> this -> objs w !! other = Some vo ->
     allocatable (heap w) (capacity_ vo) = false ->
     assign_copy allocatable this other w = Throw bad_alloc w) /\
  (forall vt ts vo xs, other <> this ->
     objs w !! this = Some vt -> stored w vt ts ->
     objs w !! other = Some vo -> stored w vo xs ->
     (forall p, data_ vt = Some p -> data_ vo <> Some p) ->
     allocatable (heap w) (capacity_ vo) = true ->
     exists w' v',
       assign_copy allocatable this other w = Ret tt w' /\
       objs w' !! this = Some v' /\ stored w' v' xs /\
       size_ v' = size_ vo /\ capacity_ v' = capacity_ vo /\
       data_ v' = Some (fresh (dom (heap w))) /\
       (forall p, data_ vt = Some p -> heap w' !! p = None) /\
       objs w' !! other = Some vo /\ stored w' vo xs /\
       (forall o, o <> this -> objs w' !! o = objs w !! o)).
Proof.
  split; [apply assign_copy_self|]. split; [apply assign_move_self|].
  split; [intros e w'; apply assign_copy_Throw|].
  split; [intros e w'; apply assign_move_no_throw|].
  split; [intros vo; apply assign_copy_refused|].
  intros vt ts vo xs Hne Ht Hst Ho Hso Hsep Ha.
  set (a := fresh (dom (heap w))).
  assert (Hafresh : heap w !! a = None) by apply fresh_not_allocated.
  assert (Hta : data_ vt <> Some a).
  { intros Hp. destruct (stored_block w vt ts a Hst Hp) as (b & Hb & _). congruence. }
  eexists _, _.
  split.
  { exact (assign_copy_Some allocatable this other w vt ts vo xs
             Hne Ht Hst Ho Hso Ha). }
  fold a. cbn [objs heap].
  split; [apply lookup_insert_eq|].
  pose proof Hso as (Hsz & Hle & Hr & Hd).
  assert (Hnew : forall h, release (data_ vt) (<[a := h]> (heap w)) !! a = Some h).
  { intros h. destruct (data_ vt) as [p|]; cbn [release].
    - rewrite lookup_delete_ne by congruence. apply lookup_insert_eq.
    - apply lookup_insert_eq. }
  split.
  { unfold stored. cbn [size_ capacity_ data_ heap].
    split; [exact Hsz|]. split; [exact Hle|]. split; [exact Hr|].
    eexists. split; [apply Hnew|].
    split; [apply block_of_length; lia | apply block_of_take]. }
  do 3 (split; [reflexivity|]).
  split.
  { intros p Hp. rewrite Hp. cbn [release]. apply lookup_delete_eq. }
  split; [now rewrite lookup_insert_ne by congruence|].
  split.
  { apply (stored_frame w _ vo xs Hso). intros p Hp. cbn [heap].
    destruct (stored_block w vo xs p Hso Hp) as (b & Hb & _).
    assert (p <> a) by congruence.
    destruct (data_ vt) as [q|] eqn:Hq; cbn [release].
    - assert (q <> p) by (intros ->; exact (Hsep p eq_refl Hp)).
      rewrite lookup_delete_ne by congruence. now rewrite lookup_insert_ne by congruence.
    - now rewrite lookup_insert_ne by congruence. }
  intros o Hoo. now rewrite lookup_insert_ne by congruence.
Qed.

(** C7. Move construction leaves the source in the empty state (null
    storage, size 0, capacity 0) and gives the new object exactly the
    storage, size and capacity of the source; the heap is the same, so no
    element is copied or touched. Move assignment from another vector to a
    valid vector does the same, releases the old storage of the target and
    leaves every other object and the block of the source as they were.
    Move assignment of a vector to itself is the guarded case and changes
    nothing. *)
Theorem move_leaves_source_empty this other (w : world T) vo :
  other <> this -> objs w !! other = Some vo ->
  (exists w1,
     vector_move this other w = Ret tt w1 /\
     objs w1 !! this = Some vo /\
     objs w1 !! other = Some (Vec None 0 0) /\
     heap w1 = heap w) /\
  (forall vt ts, objs w !! this = Some vt -> stored w vt ts ->
     (forall p, data_ vt = Some p -> data_ vo <> Some p) ->
     exists w2,
       assign_move this other w = Ret tt w2 /\
       objs w2 !! this = Some vo /\
       objs w2 !! other = Some (Vec None 0 0) /\
       heap w2 = release (data_ vt) (heap w) /\
       (forall p, data_ vo = Some p -> heap w2 !! p = heap w !! p) /\
       (forall o, o <> this -> o <> other -> objs w2 !! o = objs w !! o)) /\
  assign_move this this w = Ret tt w.
Proof.
  intros Hne Ho. split; [|split; [|apply assign_move_self]].
  - eexists. split; [exact (vector_move_Some this other w vo Ho)|].
    cbn [objs heap with_objs].
    split; [rewrite lookup_insert_ne by congruence; apply lookup_insert_eq|].
    split; [apply lookup_insert_eq | reflexivity].
  - intros vt ts Ht Hst Hsep. eexists.
    split; [exact (assign_move_Some this other w vt ts vo Hne Ht Hst Ho)|].
    cbn [objs heap].
    split; [apply lookup_insert_eq|].
    split; [rewrite lookup_insert_ne by congruence; apply lookup_insert_eq|].
    split; [reflexivity|]. split.
    + intros p Hp. destruct (data_ vt) as [q|] eqn:Hq; cbn [release]; [|reflexivity].
      apply lookup_delete_ne. intros ->. exact (Hsep p eq_refl Hp).
    + intros o H1 H2. now rewrite !lookup_insert_ne by congruence.
Qed.

End AssignmentClaims.

(** A refused copy assignment leaves the store as it was; a granted one
    gives the target the elements of the source. *)
Lemma assignment_failure_atomic_witness :
  assign_copy grants_none 1%positive 2%positive three_vectors
    = Throw bad_alloc three_vectors /\
  exists w' v',
    assign_copy grants_all 3%positive 1%positive three_vectors = Ret tt w' /\
    objs w' !! 3%positive = Some v' /\ stored w' v' [10; 20; 30].
Proof.
  destruct three_vectors_stored as ((H1 & S1) & (H2 & S2) & (H3 & S3)).
  split.
  - destruct (assignment_failure_atomic grants_none 1%positive 2%positive three_vectors)
      as (_ & _ & _ & _ & Hrefused & _).
    apply (Hrefused _ ltac:(discriminate) H2). reflexivity.
  - destruct (assignment_failure_atomic grants_all 3%positive 1%positive three_vectors)
      as (_ & _ & _ & _ & _ & Hok).
    destruct (Hok _ _ _ _ ltac:(discriminate) H3 S3 H1 S1) as (w' & v' & E & Hv & Hs & _).
    + intros p [= <-]. discriminate.
    + reflexivity.
    + exists w', v'. auto.
Defined.

(** Move assignment of vector 1 to vector 3. *)
Lemma move_leaves_source_empty_witness :
  exists w2,
    assign_move 3%positive 1%positive three_vectors = Ret tt w2 /\
    objs w2 !! 3%positive = Some (Vec (Some 3%positive) 3 4) /\
    objs w2 !! 1%positive = Some (Vec None 0 0).
Proof.
  destruct three_vectors_stored as ((H1 & S1) & _ & (H3 & S3)).
  destruct (move_leaves_source_empty 3%positive 1%positive three_vectors _
              ltac:(discriminate) H1) as (_ & Hassign & _).
  destruct (Hassign _ _ H3 S3) as (w2 & E & Ht & Hs & _).
  - intros p [= <-]. discriminate.
  - exists w2. auto.
Defined.

(** Move assignment of a vector to itself returns at the guard: the vector
    keeps its three elements, its capacity and its storage. *)
Lemma self_move_keeps_source :
  exists v,
    assign_move 1%positive 1%positive three_pushed = Ret tt three_pushed /\
    objs three_pushed !! 1%positive = Some v /\
    size_ v = 3 /\ capacity_ v = 4 /\ data_ v = Some 3%positive /\
    v <> Vec None 0 0.
Proof.
  exists (Vec (Some 3%positive) 3 4).
  split; [reflexivity|]. split; [vm_compute; reflexivity|].
  repeat split; discriminate.
Qed.

(** ** The invariant [size <= capacity] under the public operations *)

Section Invariant.

Context {T : Type} `{EqDecision T}.
Variable allocatable : gmap ptr (list (option T)) -> Z -> bool.
Variable trivially_copyable : bool.

Lemma resize_Ret this n (w w' : world T) v :
  objs w !! this = Some v ->
  resize allocatable this n w = Ret tt w' ->
  exists d, objs w' =
    <[this := Vec d n (if n <=? size_ v then capacity_ v
                       else if alloc_size n <=? capacity_ v then capacity_ v
                            else alloc_size n)]> (objs w).
Proof.
  intros Hv. unfold resize. rewrite (bind_Ret _ _ _ _ _ (self_Some _ _ _ Hv)).
  generalize (alloc_size n). intros m.
  destruct (n <=? size_ v).
  - intros [= <-]. now exists (data_ v).
  - intros E.
    apply bind_inv_Ret in E as ([] & w1 & E1 & E).
    apply (reserve_Ret _ _ _ _ _ _ Hv) in E1 as (d & E1).
    apply bind_inv_Ret in E as (v' & w1' & E1' & E).
    apply self_inv in E1' as [-> Hv']. rewrite E1, lookup_insert_eq in Hv'.
    injection Hv' as <-. injection E as <-.
    exists d. cbn [objs with_objs data_ capacity_]. rewrite E1.
    apply insert_insert_eq.
Qed.

Lemma shrink_to_fit_Ret this (w w' : world T) v :
  objs w !! this = Some v ->
  shrink_to_fit allocatable trivially_copyable this w = Ret tt w' ->
  exists d, objs w' = <[this := Vec d (size_ v) (size_ v)]> (objs w).
Proof.
  intros Hv. unfold shrink_to_fit. rewrite (bind_Ret _ _ _ _ _ (self_Some _ _ _ Hv)).
  case_decide as Hs.
  - intros [= <-]. exists (data_ v). rewrite Hs at 2. now rewrite vector_eta, insert_id.
  - intros E.
    apply bind_inv_Ret in E as (a & w1 & E1 & E).
    apply bind_inv_Ret in E as ([] & w2 & E2 & E).
    apply bind_inv_Ret in E as ([] & w3 & E3 & E).
    apply (heap_only_Ret _ _ _ _ (heap_only_allocate _ _)) in E1.
    apply (heap_only_Ret _ _ _ _ (heap_only_std_copy _ _ _ _)) in E2.
    apply (heap_only_Ret _ _ _ _ (heap_only_deallocate _ _)) in E3.
    injection E as <-. exists (Some a). cbn [objs with_objs]. congruence.
Qed.

Lemma pop_back_eq this (w : world T) v :
  objs w !! this = Some v ->
  pop_back this w =
    Ret tt (if decide (size_ v = 0) then w
            else with_objs (insert this
                   (Vec (data_ v) (SizeT.decr (size_ v)) (capacity_ v))) w).
Proof.
  intros Hv. unfold pop_back. rewrite (bind_Ret _ _ _ _ _ (self_Some _ _ _ Hv)).
  now case_decide.
Qed.

Lemma vector_copy_Ret this other (w w' : world T) vo :
  objs w !! other = Some vo ->
  vector_copy allocatable this other w = Ret tt w' ->
  exists d, objs w' = <[this := Vec d (size_ vo) (capacity_ vo)]> (objs w).
Proof.
  intros Ho. unfold vector_copy. rewrite (bind_Ret _ _ _ _ _ (self_Some _ _ _ Ho)).
  intros E.
  apply bind_inv_Ret in E as (a & w1 & E1 & E).
  apply bind_inv_Ret in E as ([] & w2 & [= <-] & E).
  apply (heap_only_Ret _ _ _ _ (heap_only_allocate _ _)) in E1.
  apply (heap_only_Ret _ _ _ _ (heap_only_copy _ _ _)) in E.
  exists (Some a). rewrite E. cbn [objs with_objs]. congruence.
Qed.

Lemma heap_only_ilist_body (init : list T) p i :
  heap_only (match init !! Z.to_nat i with
             | Some x => construct (Some p) i x
             | None => undef
             end).
Proof.
  destruct (init !! Z.to_nat i); [apply heap_only_construct | intros w; exact I].
Qed.

Lemma vector_ilist_Ret this init (w w' : world T) :
  vector_ilist allocatable this init w = Ret tt w' ->
  exists d, objs w' =
    <[this := Vec d (Z.of_nat (length init)) (Z.of_nat (length init))]> (objs w).
Proof.
  unfold vector_ilist. intros E.
  apply bind_inv_Ret in E as (a & w1 & E1 & E).
  apply bind_inv_Ret in E as ([] & w2 & [= <-] & E).
  apply (heap_only_Ret _ _ _ _ (heap_only_allocate _ _)) in E1.
  apply heap_only_Ret in E.
  2:{ apply heap_only_for_from. intros i. apply heap_only_ilist_body. }
  exists (Some a). rewrite E. cbn [objs with_objs]. congruence.
Qed.

Lemma vector_sized_Ret T_default this n (w w' : world T) :
  vector_sized allocatable T_default this n w = Ret tt w' ->
  exists d, objs w' = <[this := Vec d n n]> (objs w).
Proof.
  unfold vector_sized. intros E.
  apply bind_inv_Ret in E as (a & w1 & E1 & E).
  apply bind_inv_Ret in E as ([] & w2 & [= <-] & E).
  apply (heap_only_Ret _ _ _ _ (heap_only_allocate _ _)) in E1.
  apply heap_only_Ret in E.
  2:{ apply heap_only_for_from. intros i. apply heap_only_construct. }
  exists (Some a). rewrite E. cbn [objs with_objs]. congruence.
Qed.

Lemma vector_dtor_Ret x (w w' : world T) :
  vector_dtor x w = Ret tt w' -> objs w' = delete x (objs w).
Proof.
  unfold vector_dtor. intros E.
  apply bind_inv_Ret in E as (v & w1 & E1 & E).
  apply self_inv in E1 as [-> _].
  apply bind_inv_Ret in E as ([] & w2 & E2 & [= <-]).
  apply (heap_only_Ret _ _ _ _ (heap_only_deallocate _ _)) in E2.
  cbn [objs with_objs]. congruence.
Qed.

(** An assignment through a temporary built by [build]: the target ends
    with what was built, and the temporary is gone. *)
Lemma assign_through_temporary (build : loc -> M (T:=T) unit) this
    (w w' : world T) vt (P : vector -> gmap loc vector -> Prop) :
  objs w !! this = Some vt ->
  (forall c w1, objs w !! c = None -> build c w = Ret tt w1 ->
     exists vn os, P vn os /\ os !! c = None /\ os !! this = Some vt /\
                   objs w1 = <[c := vn]> os) ->
  bind local (fun copy =>
    bind (build copy) (fun _ =>
    bind (swap copy this) (fun _ => vector_dtor copy))) w = Ret tt w' ->
  exists vn os, P vn os /\ objs w' = <[this := vn]> os.
Proof.
  intros Ht Hbuild E.
  set (c := fresh (dom (objs w))) in *.
  assert (Hc : objs w !! c = None) by apply fresh_not_object.
  assert (Htc : this <> c) by exact (object_not_fresh _ _ _ Ht).
  rewrite (bind_Ret _ _ _ c w) in E by reflexivity.
  apply bind_inv_Ret in E as ([] & w1 & E1 & E).
  apply (Hbuild _ _ Hc) in E1 as (vn & os & HP & Hoc & Hot & E1).
  erewrite bind_Ret in E.
  2:{ apply (swap_Some c this w1 vn vt); rewrite E1.
      - apply lookup_insert_eq.
      - now rewrite lookup_insert_ne by congruence. }
  apply vector_dtor_Ret in E. exists vn, os. split; [exact HP|].
  rewrite E. cbn [objs with_objs]. rewrite E1.
  now apply temporary_removed.
Qed.

Lemma all_size_le_capacity_insert (w w' : world T) this v' :
  all_size_le_capacity w -> objs w' = <[this := v']> (objs w) ->
  0 <= size_ v' <= capacity_ v' -> all_size_le_capacity w'.
Proof.
  intros Hall Ho Hv o v Hov. rewrite Ho in Hov.
  destruct (decide (this = o)) as [-> | Hne].
  - rewrite lookup_insert_eq in Hov. now injection Hov as <-.
  - rewrite lookup_insert_ne in Hov by exact Hne. exact (Hall o v Hov).
Qed.

(** C8, the part of the invariant the code keeps: every public operation
    that returns leaves [0 <= size <= capacity] on every vector of the
    store, provided [resize] is asked for at most [2^63] elements and
    [push_back] and [emplace_back] start below a capacity of [2^63]. *)
Lemma size_le_capacity_preserved this op (w w' : world T) :
  all_size_le_capacity w -> admissible w this op ->
  perform allocatable trivially_copyable this op w = Ret tt w' ->
  all_size_le_capacity w'.
Proof.
  intros Hall ((v & Hv) & Hadm) E. pose proof (Hall this v Hv) as Hle.
  destruct op as [n | n | | x | x | | other | other | other | init]; cbn [perform] in E.
  - apply (reserve_Ret _ _ _ _ _ _ Hv) in E as (d & E).
    apply (all_size_le_capacity_insert _ _ _ _ Hall E). cbn [size_ capacity_].
    destruct (Z.leb_spec n (capacity_ v)); lia.
  - apply (resize_Ret _ _ _ _ _ Hv) in E as (d & E).
    apply (all_size_le_capacity_insert _ _ _ _ Hall E). cbn [size_ capacity_].
    cbn in Hadm.
    destruct (Z.leb_spec n (size_ v)); [lia|].
    destruct (alloc_size_bounds n) as ((Hge & _) & _); [lia|].
    destruct (Z.leb_spec (alloc_size n) (capacity_ v)); lia.
  - apply (shrink_to_fit_Ret _ _ _ _ Hv) in E as (d & E).
    apply (all_size_le_capacity_insert _ _ _ _ Hall E). cbn [size_ capacity_]. lia.
  - apply (push_back_Ret _ _ _ _ _ _ Hv) in E as (d & E).
    apply (all_size_le_capacity_insert _ _ _ _ Hall E). cbn [size_ capacity_].
    specialize (Hadm v Hv). rewrite size_incr by lia.
    unfold next_capacity. rewrite !size_incr by lia.
    destruct (alloc_size_bounds (capacity_ v + 1)) as ((Hge & _) & _); [lia|].
    destruct (Z.ltb_spec (size_ v + 1) (capacity_ v)); [lia|].
    destruct (Z.leb_spec (alloc_size (capacity_ v + 1)) (capacity_ v)); lia.
  - apply bind_inv_Ret in E as (r & w1 & E & [= <-]).
    apply (append_Ret _ _ _ _ _ _ _ Hv) in E as (d & E).
    apply (all_size_le_capacity_insert _ _ _ _ Hall E). cbn [size_ capacity_].
    specialize (Hadm v Hv). rewrite size_incr by lia.
    unfold next_capacity. rewrite !size_incr by lia.
    destruct (alloc_size_bounds (capacity_ v + 1)) as ((Hge & _) & _); [lia|].
    destruct (Z.ltb_spec (size_ v + 1) (capacity_ v)); [lia|].
    destruct (Z.leb_spec (alloc_size (capacity_ v + 1)) (capacity_ v)); lia.
  - rewrite (pop_back_eq _ _ _ Hv) in E. injection E as <-.
    case_decide as Hs; [exact Hall|].
    eapply all_size_le_capacity_insert; [exact Hall | reflexivity |].
    cbn [size_ capacity_].
    pose proof (wrap_range (size_ v - 1)) as [H0 _].
    assert (SizeT.decr (size_ v) <= size_ v - 1); [|unfold SizeT.decr in *; lia].
    apply Z.mod_le; [lia | reflexivity].
  - destruct (objs w !! other) as [vb|] eqn:Hb.
    2:{ unfold swap in E. rewrite (bind_Ret _ _ _ _ _ (self_Some _ _ _ Hv)) in E.
        unfold bind, self in E. now rewrite Hb in E. }
    rewrite (swap_Some _ _ _ _ _ Hv Hb) in E. injection E as <-.
    intros o vo Ho. cbn [objs with_objs] in Ho.
    destruct (decide (this = o)) as [<- | Hne1].
    { rewrite lookup_insert_eq in Ho. injection Ho as <-. exact (Hall other vb Hb). }
    rewrite lookup_insert_ne in Ho by exact Hne1.
    destruct (decide (other = o)) as [<- | Hne2].
    { rewrite lookup_insert_eq in Ho. injection Ho as <-. exact Hle. }
    rewrite lookup_insert_ne in Ho by exact Hne2. exact (Hall o vo Ho).
  - unfold assign_copy in E. case_decide as Hoth; [now injection E as <-|].
    destruct (objs w !! other) as [vo|] eqn:Ho.
    2:{ rewrite (bind_Ret _ _ _ (fresh (dom (objs w))) w) in E by reflexivity.
        unfold vector_copy, bind, self in E. now rewrite Ho in E. }
    apply (assign_through_temporary _ this w w' v
             (fun vn os => os = objs w /\
                size_ vn = size_ vo /\ capacity_ vn = capacity_ vo) Hv) in E.
    + destruct E as (vn & os & (-> & Hs & Hc) & E).
      apply (all_size_le_capacity_insert _ _ _ _ Hall E).
      rewrite Hs, Hc. exact (Hall other vo Ho).
    + intros c w1 Hc E1. apply (vector_copy_Ret _ _ _ _ _ Ho) in E1 as (d & E1).
      eexists _, _. split; [|split; [exact Hc | split; [exact Hv | exact E1]]].
      now cbn.
  - unfold assign_move in E. case_decide as Hoth; [now injection E as <-|].
    destruct (objs w !! other) as [vo|] eqn:Ho.
    2:{ rewrite (bind_Ret _ _ _ (fresh (dom (objs w))) w) in E by reflexivity.
        unfold vector_move, bind, self in E. now rewrite Ho in E. }
    apply (assign_through_temporary _ this w w' v
             (fun vn os => os = <[other := Vec None 0 0]> (objs w) /\ vn = vo) Hv) in E.
    + destruct E as (vn & os & (-> & ->) & E).
      apply (all_size_le_capacity_insert
               (World (<[other := Vec None 0 0]> (objs w)) (heap w)) _ this vo).
      * eapply all_size_le_capacity_insert; [exact Hall | reflexivity |].
        cbn. lia.
      * exact E.
      * exact (Hall other vo Ho).
    + intros c w1 Hc E1. rewrite (vector_move_Some c other w vo Ho) in E1.
      injection E1 as <-. assert (other <> c) by congruence.
      eexists _, _. split; [split; reflexivity|].
      split; [now rewrite lookup_insert_ne by congruence|].
      split; [now rewrite lookup_insert_ne by congruence|].
      cbn [objs with_objs]. now apply insert_insert_ne.
  - apply (assign_through_temporary _ this w w' v
             (fun vn os => os = objs w /\ size_ vn = capacity_ vn /\ 0 <= size_ vn)
             Hv) in E.
    + destruct E as (vn & os & (-> & Hs & H0) & E).
      apply (all_size_le_capacity_insert _ _ _ _ Hall E). lia.
    + intros c w1 Hc E1. apply vector_ilist_Ret in E1 as (d & E1).
      eexists _, _. split; [|split; [exact Hc | split; [exact Hv | exact E1]]].
      cbn. split; [reflexivity | split; [reflexivity | lia]].
Qed.

(** C8, the constructors: each leaves [0 <= size <= capacity] on the new
    object and on every other vector of the store. *)
Lemma constructed_size_le_capacity T_default this (w w' : world T) :
  all_size_le_capacity w ->
  vector_default this w = Ret tt w' \/
  (exists n, 0 <= n /\ vector_sized allocatable T_default this n w = Ret tt w') \/
  (exists other, vector_copy allocatable this other w = Ret tt w') \/
  (exists other, vector_move this other w = Ret tt w') \/
  (exists init, vector_ilist allocatable this init w = Ret tt w') ->
  all_size_le_capacity w'.
Proof.
  intros Hall [E | [(n & Hn & E) | [(other & E) | [(other & E) | (init & E)]]]].
  - injection E as <-.
    eapply all_size_le_capacity_insert; [exact Hall | reflexivity | cbn; lia].
  - apply vector_sized_Ret in E as (d & E).
    apply (all_size_le_capacity_insert _ _ _ _ Hall E). cbn. lia.
  - destruct (objs w !! other) as [vo|] eqn:Ho.
    2:{ unfold vector_copy, bind, self in E. now rewrite Ho in E. }
    pose proof (vector_copy_Ret _ _ _ _ _ Ho E) as (d & E').
    apply (all_size_le_capacity_insert _ _ _ _ Hall E'). exact (Hall other vo Ho).
  - destruct (objs w !! other) as [vo|] eqn:Ho.
    2:{ unfold vector_move, bind, self in E. now rewrite Ho in E. }
    rewrite (vector_move_Some this other w vo Ho) in E. injection E as <-.
    apply (all_size_le_capacity_insert
             (World (<[this := vo]> (objs w)) (heap w)) _ other (Vec None 0 0)).
    + eapply all_size_le_capacity_insert; [exact Hall | reflexivity |].
      exact (Hall other vo Ho).
    + reflexivity.
    + cbn. lia.
  - apply vector_ilist_Ret in E as (d & E).
    apply (all_size_le_capacity_insert _ _ _ _ Hall E). cbn. lia.
Qed.

End Invariant.

(** ** The repository's tests, run on the model ([test/vector.cpp]) *)

Example test_construct_with_size :
  returned ((vector_sized grants_all 0 v1 50 ;;;
             s <- size v1 ;; c <- capacity v1 ;; ret (s, c)) (nowhere Z))
  = Some (50, 50).
Proof. vm_compute. reflexivity. Qed.

Example test_construct_with_ilist :
  returned ((vector_ilist grants_all v1 [1; 2; 3; 4; 5] ;;;
             s <- size v1 ;; c <- capacity v1 ;; e <- elem v1 0 ;;
             ret (s, c, e)) (nowhere Z))
  = Some (5, 5, 1).
Proof. vm_compute. reflexivity. Qed.

Example test_empty :
  returned ((vector_default v1 ;;;
             e <- empty v1 ;; c <- capacity v1 ;; ret (e, c)) (nowhere Z))
  = Some (true, 0).
Proof. vm_compute. reflexivity. Qed.

(** [x = vector<int>(50)]: move assignment from a temporary. *)
Example test_capacity :
  returned ((vector_default v1 ;;;
             tmp <- local ;;
             vector_sized grants_all 0 tmp 50 ;;;
             assign_move v1 tmp ;;;
             vector_dtor tmp ;;;
             s <- size v1 ;; c <- capacity v1 ;; ret (s =? c)) (nowhere Z))
  = Some true.
Proof. vm_compute. reflexivity. Qed.

Example test_at :
  thrown ((vector_ilist grants_all v1 [1; 2; 3; 4; 5; 6] ;;;
           at_ v1 6) (nowhere Z))
    = Some array_out_of_range /\
  returned ((vector_ilist grants_all v1 [1; 2; 3; 4; 5; 6] ;;;
             r <- at_ v1 2 ;; deref r) (nowhere Z))
    = Some 3.
Proof. split; vm_compute; reflexivity. Qed.

Example test_push_back :
  returned ((vector_default v1 ;;;
             push_back grants_all v1 (Outside 1) ;;;
             push_back grants_all v1 (Outside 2) ;;;
             a <- elem v1 0 ;; b <- elem v1 1 ;; ret (a, b)) (nowhere Z))
  = Some (1, 2).
Proof. vm_compute. reflexivity. Qed.

Example test_emplace_back :
  returned ((vector_default v1 ;;;
             emplace_back grants_all v1 (Outside "Hello"%string) ;;;
             emplace_back grants_all v1 (Outside "World"%string) ;;;
             a <- elem v1 0 ;; b <- elem v1 1 ;; ret (a, b)) (nowhere string))
  = Some ("Hello"%string, "World"%string).
Proof. vm_compute. reflexivity. Qed.

Example test_resize :
  returned ((vector_ilist grants_all v1
               ["Barbara"; "Maurizio"; "Andrea"; "Simone"]%string ;;;
             emplace_back grants_all v1 (Outside "Elisabetta"%string) ;;;
             s5 <- size v1 ;;
             resize grants_all v1 2 ;;;
             s2 <- size v1 ;; c <- capacity v1 ;; ret (s5, s2, c))
            (nowhere string))
  = Some (5, 2, 8).
Proof. vm_compute. reflexivity. Qed.

Example test_operator_equality :
  returned ((vector_ilist grants_all v1 ["Hello"; "World"]%string ;;;
             vector_copy grants_all v2 v1 ;;;
             op_eq v1 v2) (nowhere string))
  = Some true.
Proof. vm_compute. reflexivity. Qed.

Example test_operator_nequality :
  returned ((vector_ilist grants_all v1 ["Hello"; "World"]%string ;;;
             vector_copy grants_all v2 v1 ;;;
             push_back grants_all v2 (Outside "World2"%string) ;;;
             op_ne v1 v2) (nowhere string))
  = Some true.
Proof. vm_compute. reflexivity. Qed.

(** * Further properties of the container

    ** The rounding of [alloc_size] *)

Lemma pow2_log2_up c : is_pow2 c -> 2 ^ Z.log2_up c = c.
Proof.
  intros (k & Hk & ->).
  destruct (Z.eq_dec k 0) as [-> | Hne]; [reflexivity|].
  now rewrite Z.log2_up_pow2 by lia.
Qed.

(** For a request between 1 and [2^63], [alloc_size] returns the least
    power of two that is at least the request; the result is less than
    twice the request, and a power of two is returned as it is. *)
Theorem alloc_size_rounds_up s :
  1 <= s <= 2 ^ 63 ->
  least_pow2_ge s (alloc_size s) /\
  alloc_size s < 2 * s /\
  (is_pow2 s -> alloc_size s = s).
Proof.
  intros Hs. split; [exact (alloc_size_least s Hs)|].
  rewrite alloc_size_log2_up by exact Hs. split.
  - destruct (Z.eq_dec s 1) as [-> | Hne]; [reflexivity|].
    destruct (Z.log2_up_spec s) as [Hlo _]; [lia|].
    pose proof (Z.log2_up_nonneg s) as Hn.
    assert (0 < Z.log2_up s).
    { apply Z.log2_up_pos. lia. }
    replace (Z.log2_up s) with (Z.succ (Z.pred (Z.log2_up s))) at 1 by lia.
    rewrite Z.pow_succ_r by lia. lia.
  - apply pow2_log2_up.
Qed.

Lemma alloc_size_rounds_up_witness :
  alloc_size 5 = 8 /\ alloc_size 8 = 8.
Proof.
  destruct (alloc_size_rounds_up 8) as (_ & _ & Hfix); [lia|].
  destruct (alloc_size_rounds_up 5) as ((_ & Hge & Hmin) & Hlt & _); [lia|].
  split; [|apply Hfix; exists 3; split; [lia | reflexivity]].
  assert (alloc_size 5 <= 8).
  { apply Hmin; [exists 3; split; [lia | reflexivity] | lia]. }
  vm_compute. reflexivity.
Defined.

(** Outside that range the result is 0: for a request of 0, and for every
    request above [2^63], where the final increment wraps. *)
Theorem alloc_size_wraps_to_zero s :
  s = 0 \/ 2 ^ 63 < s < SizeT.modulus -> alloc_size s = 0.
Proof.
  intros [-> | Hs]; [reflexivity | exact (alloc_size_overflow s Hs)].
Qed.

Lemma alloc_size_wraps_to_zero_witness : alloc_size (2 ^ 63 + 1) = 0.
Proof.
  apply alloc_size_wraps_to_zero. right. rewrite modulus_eq. lia.
Defined.

(** ** Capacity after [n] calls of [push_back] from empty *)

Lemma log2_succ_below k n :
  0 <= k -> 2 ^ k <= n -> n + 1 < 2 ^ (k + 1) -> Z.log2 (n + 1) = k.
Proof.
  intros Hk Hlo Hhi. apply Z.log2_unique; [exact Hk|].
  replace (Z.succ k) with (k + 1) by lia. lia.
Qed.

Lemma fields_after_closed n :
  (3 <= n)%nat -> Z.of_nat n < 2 ^ 62 ->
  fields_after n = (Z.of_nat n, 2 ^ (Z.log2 (Z.of_nat n) + 1)).
Proof.
  intros H3. induction n as [|n IH]; [lia|].
  destruct (Nat.eq_dec n 2%nat) as [-> | Hne]; [intros _; reflexivity|].
  intros Hn. cbn [fields_after]. rewrite IH by lia.
  set (m := Z.of_nat n) in *. assert (Hm : 3 <= m < 2 ^ 62) by lia.
  replace (Z.of_nat (S n)) with (m + 1) by lia.
  pose proof (Z.log2_nonneg m) as Hk0.
  destruct (Z.log2_spec m) as [Hlo Hhi]; [lia|].
  set (k := Z.log2 m) in *.
  replace (Z.succ k) with (k + 1) in Hhi by lia.
  assert (Hk62 : k < 62).
  { apply Z.log2_lt_pow2; lia. }
  assert (Hc : 2 ^ (k + 1) <= 2 ^ 62) by (apply Z.pow_le_mono_r; lia).
  assert (Hs : SizeT.incr m = m + 1).
  { apply wrap_small. unfold SizeT.in_range. rewrite modulus_eq. lia. }
  unfold next_capacity. rewrite Hs.
  destruct (Z.ltb_spec (m + 1) (2 ^ (k + 1))) as [Hroom | Hfull].
  - now rewrite (log2_succ_below k m) by lia.
  - assert (Heq : m + 1 = 2 ^ (k + 1)) by lia.
    assert (Hi : SizeT.incr (2 ^ (k + 1)) = 2 ^ (k + 1) + 1).
    { apply wrap_small. unfold SizeT.in_range. rewrite modulus_eq. lia. }
    rewrite Hi.
    assert (Hup : Z.log2_up (2 ^ (k + 1) + 1) = k + 2).
    { apply Z.log2_up_unique; [lia|].
      replace (Z.pred (k + 2)) with (k + 1) by lia.
      split; [lia|].
      replace (k + 2) with (Z.succ (k + 1)) by lia.
      rewrite Z.pow_succ_r by lia. lia. }
    rewrite alloc_size_log2_up by lia. rewrite Hup.
    assert (Hdbl : 2 ^ (k + 2) = 2 * 2 ^ (k + 1)).
    { replace (k + 2) with (Z.succ (k + 1)) by lia. apply Z.pow_succ_r. lia. }
    destruct (Z.leb_spec (2 ^ (k + 2)) (2 ^ (k + 1))); [lia|].
    rewrite Heq, Z.log2_pow2 by lia. f_equal.
    now replace (k + 1 + 1) with (k + 2) by lia.
Qed.

Section GrowthClosedForm.

Context {T : Type} `{EqDecision T}.
Variable allocatable : gmap ptr (list (option T)) -> Z -> bool.

(** After [n] calls of [push_back] that returned, starting from a
    default-constructed vector ([3 <= n < 2^62]), the size is [n] and the
    capacity is [2 ^ (log2 n + 1)], the least power of two above [n]: there
    is always a spare slot, and never more than [n] of them. *)
Theorem capacity_after_pushes this n (w : world T) :
  pushed allocatable this n w -> (3 <= n)%nat -> Z.of_nat n < 2 ^ 62 ->
  exists v, objs w !! this = Some v /\
    size_ v = Z.of_nat n /\
    capacity_ v = 2 ^ (Z.log2 (Z.of_nat n) + 1) /\
    size_ v < capacity_ v <= 2 * size_ v.
Proof.
  intros Hp H3 Hn. destruct (pushed_fields _ _ _ _ Hp) as (d & Hv).
  rewrite fields_after_closed in Hv by assumption. cbn [fst snd] in Hv.
  eexists. split; [exact Hv|]. cbn [size_ capacity_].
  split; [reflexivity|]. split; [reflexivity|].
  destruct (Z.log2_spec (Z.of_nat n)) as [Hlo Hhi]; [lia|].
  pose proof (Z.log2_nonneg (Z.of_nat n)).
  replace (Z.succ (Z.log2 (Z.of_nat n))) with (Z.log2 (Z.of_nat n) + 1) in Hhi by lia.
  split; [exact Hhi|].
  replace (Z.log2 (Z.of_nat n) + 1) with (Z.succ (Z.log2 (Z.of_nat n))) by lia.
  rewrite Z.pow_succ_r by lia. lia.
Qed.

End GrowthClosedForm.

Lemma capacity_after_pushes_witness :
  exists v, objs five_pushed !! 1%positive = Some v /\
            size_ v = 5 /\ capacity_ v = 8.
Proof.
  assert (Hp : pushed (T:=Z) grants_all 1%positive 5 five_pushed).
  { apply pushed_ret with (w := four_pushed) (x := Outside 50); [|vm_compute; reflexivity].
    apply pushed_ret with (w := three_pushed) (x := Outside 40); [|vm_compute; reflexivity].
    exact pushed_three. }
  destruct (capacity_after_pushes grants_all 1%positive 5 five_pushed Hp)
    as (v & Hv & Hs & Hc & _); [lia | lia |].
  exists v. split; [exact Hv|]. split; [exact Hs|]. rewrite Hc. reflexivity.
Defined.

(** ** [reserve], [resize], [shrink_to_fit] and [pop_back] on a valid
    vector *)

Section CapacityControl.

Context {T : Type} `{EqDecision T}.
Variable allocatable : gmap ptr (list (option T)) -> Z -> bool.
Variable trivially_copyable : bool.

Lemma release_lookup_old (h : gmap ptr (list (option T))) d a blk p :
  d = Some p -> p <> a -> release d (<[a := blk]> h) !! p = None.
Proof.
  intros -> Hne. cbn [release]. apply lookup_delete_eq.
Qed.

Lemma insert_release_lookup_other (h : gmap ptr (list (option T))) d a blk q :
  d <> Some q -> q <> a -> (<[a := blk]> (release d h)) !! q = h !! q.
Proof.
  intros Hd Hne. rewrite lookup_insert_ne by congruence.
  destruct d as [p|]; cbn [release]; [|reflexivity].
  apply lookup_delete_ne. congruence.
Qed.

(** [reserve(n)] on a valid vector: nothing happens for [n <= capacity];
    otherwise, when the allocator grants [n] slots, the elements move to a
    new block of exactly [n] slots, the old block is released and no other
    block or object changes; when the allocator refuses, [bad_alloc] is
    thrown and the store is unchanged. *)
Theorem reserve_keeps_elements this n (w : world T) v xs :
  objs w !! this = Some v -> stored w v xs -> SizeT.in_range n ->
  (n <= capacity_ v -> reserve allocatable this n w = Ret tt w) /\
  (capacity_ v < n ->
     if allocatable (heap w) n then
       exists w' v',
         reserve allocatable this n w = Ret tt w' /\
         objs w' !! this = Some v' /\ stored w' v' xs /\
         size_ v' = size_ v /\ capacity_ v' = n /\
         data_ v' = Some (fresh (dom (heap w))) /\
         (forall p, data_ v = Some p -> heap w' !! p = None) /\
         (forall q, data_ v <> Some q -> q <> fresh (dom (heap w)) ->
            heap w' !! q = heap w !! q) /\
         (forall o, o <> this -> objs w' !! o = objs w !! o)
     else reserve allocatable this n w = Throw bad_alloc w).
Proof.
  intros Hv Hst Hr. split; [exact (reserve_noop allocatable this n w v Hv)|].
  intros Hn. destruct (allocatable (heap w) n) eqn:Ha.
  - eexists _, _.
    split; [exact (reserve_grow allocatable this n w v xs Hv Hst Hn Ha)|].
    cbn [objs heap]. split; [apply lookup_insert_eq|].
    split; [exact (stored_reserve_grow n w v xs _ Hst Hn Hr)|].
    do 3 (split; [reflexivity|]).
    split.
    { intros p Hp. rewrite lookup_insert_ne.
      - rewrite Hp. apply lookup_delete_eq.
      - destruct Hst as (_ & _ & _ & Hd). rewrite Hp in Hd.
        destruct Hd as (b & Hb & _).
        intros <-. exact (allocated_not_fresh _ _ _ Hb eq_refl). }
    split; [intros q Hq Hne; now apply insert_release_lookup_other|].
    intros o Ho. now rewrite lookup_insert_ne by congruence.
  - exact (reserve_refused allocatable this n w v Hv Hn Ha).
Qed.

(** Dropping the elements from index [n] on leaves a valid vector. *)
Lemma stored_truncate (w w' : world T) v xs n :
  stored w v xs -> heap w' = heap w -> 0 <= n <= size_ v ->
  stored w' (Vec (data_ v) n (capacity_ v)) (take (Z.to_nat n) xs).
Proof.
  intros (Hsz & Hle & Hr & Hd) Hh Hn. unfold stored.
  cbn [size_ capacity_ data_]. rewrite Hh.
  assert (Hl : length (take (Z.to_nat n) xs) = Z.to_nat n).
  { rewrite length_take. lia. }
  split; [lia|]. split; [lia|]. split; [exact Hr|].
  destruct (data_ v) as [p|]; [|exact Hd].
  destruct Hd as (b & Hb & Hlen & Htake). exists b.
  split; [exact Hb|]. split; [exact Hlen|].
  rewrite Hl, fmap_take, <- Htake, take_take.
  f_equal. lia.
Qed.

(** [resize(n)] with [n <= size]: the size becomes [n], the first [n]
    elements stay, and capacity, storage and heap are as before. *)
Theorem resize_down_truncates this n (w : world T) v xs :
  objs w !! this = Some v -> stored w v xs -> 0 <= n <= size_ v ->
  exists w',
    resize allocatable this n w = Ret tt w' /\
    objs w' !! this = Some (Vec (data_ v) n (capacity_ v)) /\
    stored w' (Vec (data_ v) n (capacity_ v)) (take (Z.to_nat n) xs) /\
    heap w' = heap w /\
    (forall o, o <> this -> objs w' !! o = objs w !! o).
Proof.
  intros Hv Hst Hn. eexists. split.
  - unfold resize. rewrite (bind_Ret _ _ _ _ _ (self_Some _ _ _ Hv)).
    destruct (Z.leb_spec n (size_ v)); [reflexivity | lia].
  - cbn [objs heap with_objs]. split; [apply lookup_insert_eq|].
    split; [now apply (stored_truncate w _ v xs n Hst)|].
    split; [reflexivity|].
    intros o Ho. now rewrite lookup_insert_ne by congruence.
Qed.

Lemma block_of_raw (xs : list T) n i :
  (length xs <= i)%nat -> Z.of_nat i < n -> block_of xs n !! i = Some None.
Proof.
  intros Hlo Hhi. unfold block_of.
  rewrite lookup_app_r by (rewrite length_fmap; exact Hlo).
  rewrite length_fmap. apply lookup_replicate_2. lia.
Qed.

Lemma elem_raw this (w : world T) v p b i :
  objs w !! this = Some v -> data_ v = Some p -> heap w !! p = Some b ->
  b !! i = Some None -> elem this (Z.of_nat i) w = Undef.
Proof.
  intros Hv Hp Hb Hi. unfold elem.
  rewrite (bind_Ret _ _ _ _ _ (subscript_Some _ _ _ _ Hv)).
  unfold deref, load. cbn [ref_base ref_index]. rewrite Hp, Hb.
  destruct (in_block b (Z.of_nat i)); [|reflexivity].
  now rewrite Nat2Z.id, Hi.
Qed.

(** [resize(n)] with [size < n <= 2^63] constructs nothing. When the
    rounded request fits the capacity only the size changes. When it does
    not and the allocator grants it, the old elements move to a block of
    [alloc_size n] slots, the size becomes [n], and the slots from the old
    size up to [n] are raw: reading one of them is undefined. When the
    allocator refuses, [bad_alloc] is thrown and the store is unchanged. *)
Theorem resize_up_constructs_nothing this n (w : world T) v xs :
  objs w !! this = Some v -> stored w v xs -> size_ v < n <= 2 ^ 63 ->
  (alloc_size n <= capacity_ v ->
     resize allocatable this n w =
       Ret tt (with_objs (insert this (Vec (data_ v) n (capacity_ v))) w)) /\
  (capacity_ v < alloc_size n ->
     if allocatable (heap w) (alloc_size n) then
       exists w' b,
         resize allocatable this n w = Ret tt w' /\
         objs w' !! this =
           Some (Vec (Some (fresh (dom (heap w)))) n (alloc_size n)) /\
         least_pow2_ge n (alloc_size n) /\
         heap w' !! fresh (dom (heap w)) = Some b /\
         (forall i x, xs !! i = Some x ->
            b !! i = Some (Some x) /\ elem this (Z.of_nat i) w' = Ret x w') /\
         (forall i, size_ v <= Z.of_nat i < n ->
            b !! i = Some None /\ elem this (Z.of_nat i) w' = Undef)
     else resize allocatable this n w = Throw bad_alloc w).
Proof.
  intros Hv Hst Hn. pose proof (stored_size_nonneg _ _ _ Hst) as H0.
  pose proof Hst as (Hsz & Hle & Hr & Hd).
  destruct (alloc_size_bounds n) as ((Hge & Hmax) & _); [lia|].
  pose proof (alloc_size_least n ltac:(lia)) as Hleast.
  assert (Hpre :
    resize allocatable this n w =
      bind (reserve allocatable this (alloc_size n)) (fun _ =>
      bind (self this) (fun v' =>
      set_self this (Vec (data_ v') n (capacity_ v')))) w).
  { unfold resize. rewrite (bind_Ret _ _ _ _ _ (self_Some _ _ _ Hv)).
    destruct (Z.leb_spec n (size_ v)); [lia | reflexivity]. }
  rewrite Hpre. clear Hpre. split.
  - intros Hfit.
    rewrite (bind_Ret _ _ _ _ _ (reserve_noop allocatable this _ w v Hv Hfit)).
    now rewrite (bind_Ret _ _ _ _ _ (self_Some _ _ _ Hv)).
  - intros Hgrow. generalize dependent (alloc_size n). intros m Hge Hmax Hleast Hgrow.
    destruct (allocatable (heap w) m) eqn:Ha.
    + set (a := fresh (dom (heap w))).
      rewrite (bind_Ret _ _ _ _ _
                 (reserve_grow allocatable this m w v xs Hv Hst Hgrow Ha)).
      fold a. erewrite bind_Ret.
      2:{ apply self_Some. cbn [objs]. apply lookup_insert_eq. }
      cbn [data_ capacity_]. unfold set_self, with_objs. cbn [objs heap].
      rewrite insert_insert_eq.
      eexists _, (block_of xs m). split; [reflexivity|].
      cbn [objs heap]. split; [apply lookup_insert_eq|].
      split; [exact Hleast|].
      split; [apply lookup_insert_eq|].
      split.
      * intros i x Hi.
        assert (Hb : block_of xs m !! i = Some (Some x)).
        { apply (prefix_lookup _ xs); [apply block_of_take | exact Hi]. }
        split; [exact Hb|].
        unfold elem. erewrite bind_Ret.
        2:{ apply subscript_Some. cbn [objs]. apply lookup_insert_eq. }
        unfold deref. cbn [ref_base ref_index data_].
        apply (load_Some _ a (block_of xs m)); [|exact Hb].
        cbn [heap]. apply lookup_insert_eq.
      * intros i Hi.
        assert (Hb : block_of xs m !! i = Some None).
        { apply block_of_raw; lia. }
        split; [exact Hb|].
        apply (elem_raw this _ (Vec (Some a) n m) a (block_of xs m)).
        -- cbn [objs]. apply lookup_insert_eq.
        -- reflexivity.
        -- cbn [heap]. apply lookup_insert_eq.
        -- exact Hb.
    + apply bind_Throw.
      exact (reserve_refused allocatable this m w v Hv Hgrow Ha).
Qed.

(** The reallocating branch of [shrink_to_fit]. *)
Lemma shrink_to_fit_Some this (w : world T) v xs :
  objs w !! this = Some v -> stored w v xs -> size_ v <> capacity_ v ->
  allocatable (heap w) (size_ v) = true ->
  shrink_to_fit allocatable trivially_copyable this w =
    if trivially_copyable || bool_decide (xs = [])
    then Ret tt (World
      (<[this := Vec (Some (fresh (dom (heap w)))) (size_ v) (size_ v)]> (objs w))
      (<[fresh (dom (heap w)) := block_of xs (size_ v)]>
         (release (data_ v) (heap w))))
    else Undef.
Proof.
  intros Hv (Hsz & Hle & Hr & Hd) Hne Ha.
  set (a := fresh (dom (heap w))).
  unfold shrink_to_fit. rewrite (bind_Ret _ _ _ _ _ (self_Some _ _ _ Hv)).
  rewrite decide_False by exact Hne.
  assert (Hal : allocate allocatable (size_ v) w =
    Ret a (with_heap (insert a (replicate (Z.to_nat (size_ v)) None)) w)).
  { unfold allocate. now rewrite Ha. }
  rewrite (bind_Ret _ _ _ _ _ Hal). clear Hal.
  destruct (data_ v) as [p|] eqn:Hp; [|lia].
  destruct Hd as (b & Hb & Hlen & Htake).
  assert (Hpa : p <> a) by exact (allocated_not_fresh _ _ _ Hb).
  unfold bind at 1. rewrite Hsz at 1. rewrite Hsz at 1. rewrite Nat2Z.id.
  rewrite (std_copy_raw_block trivially_copyable p a b xs).
  - destruct (trivially_copyable || bool_decide (xs = [])); [|reflexivity].
    replace (Some <$> xs) with (block_of xs (size_ v)).
    2:{ unfold block_of. rewrite Hsz, Nat2Z.id, Nat.sub_diag. apply app_nil_r. }
    erewrite bind_Ret.
    2:{ unfold deallocate. cbn [heap with_heap].
        rewrite lookup_insert_ne, lookup_insert_ne, Hb by congruence.
        rewrite decide_True by exact Hlen. reflexivity. }
    unfold set_self, with_objs, with_heap. cbn [objs heap release].
    rewrite insert_insert_eq. now rewrite delete_insert_ne by congruence.
  - exact Hpa.
  - cbn [heap with_heap]. now rewrite lookup_insert_ne by congruence.
  - exact Htake.
  - cbn [heap with_heap]. now rewrite lookup_insert_eq.
Qed.

(** [shrink_to_fit()] on a valid vector: nothing happens when the size is
    the capacity; otherwise the allocator is asked for [size] slots, and
    when it refuses, [bad_alloc] is thrown and the store is unchanged. When
    it grants them and the element type is trivially copyable, or there is
    no element, the elements move to a new block of exactly [size] slots
    and the old block is released. For any other element type with at
    least one element, [std::copy] assigns to a slot of the new block in
    which no object was constructed. *)
Theorem shrink_to_fit_tightens this (w : world T) v xs :
  objs w !! this = Some v -> stored w v xs ->
  (size_ v = capacity_ v ->
     shrink_to_fit allocatable trivially_copyable this w = Ret tt w) /\
  (size_ v <> capacity_ v ->
     if allocatable (heap w) (size_ v) then
       if trivially_copyable || bool_decide (xs = []) then
         exists w' v',
           shrink_to_fit allocatable trivially_copyable this w = Ret tt w' /\
           objs w' !! this = Some v' /\ stored w' v' xs /\
           capacity_ v' = size_ v /\ size_ v' = size_ v /\
           data_ v' = Some (fresh (dom (heap w))) /\
           (forall p, data_ v = Some p -> heap w' !! p = None) /\
           (forall q, data_ v <> Some q -> q <> fresh (dom (heap w)) ->
              heap w' !! q = heap w !! q)
       else shrink_to_fit allocatable trivially_copyable this w = Undef
     else shrink_to_fit allocatable trivially_copyable this w = Throw bad_alloc w).
Proof.
  intros Hv Hst. split.
  - intros Hs. unfold shrink_to_fit.
    rewrite (bind_Ret _ _ _ _ _ (self_Some _ _ _ Hv)). now rewrite decide_True.
  - intros Hne. destruct (allocatable (heap w) (size_ v)) eqn:Ha.
    + pose proof Hst as (Hsz & Hle & Hr & Hd).
      pose proof (shrink_to_fit_Some this w v xs Hv Hst Hne Ha) as E.
      destruct (trivially_copyable || bool_decide (xs = [])); [|exact E].
      eexists _, _. split; [exact E|].
      cbn [objs heap]. split; [apply lookup_insert_eq|].
      split.
      { unfold stored. cbn [size_ capacity_ data_ heap].
        split; [exact Hsz|]. split; [lia|].
        split; [unfold SizeT.in_range in *; lia|].
        eexists. rewrite lookup_insert_eq. split; [reflexivity|].
        split; [apply block_of_length; lia | apply block_of_take]. }
      do 3 (split; [reflexivity|]).
      split.
      { intros p Hp. rewrite lookup_insert_ne.
        - rewrite Hp. apply lookup_delete_eq.
        - rewrite Hp in Hd. destruct Hd as (b & Hb & _).
          intros <-. exact (allocated_not_fresh _ _ _ Hb eq_refl). }
      intros q Hq Hqa. now apply insert_release_lookup_other.
    + unfold shrink_to_fit.
      rewrite (bind_Ret _ _ _ _ _ (self_Some _ _ _ Hv)).
      rewrite decide_False by exact Hne.
      apply bind_Throw. unfold allocate. now rewrite Ha.
Qed.

(** [pop_back()] on a vector that ends in [y]. *)
Lemma pop_back_drops_last_aux this (w : world T) v ys y :
  objs w !! this = Some v -> stored w v (ys ++ [y]) ->
  exists w',
    pop_back this w = Ret tt w' /\
    objs w' !! this = Some (Vec (data_ v) (size_ v - 1) (capacity_ v)) /\
    stored w' (Vec (data_ v) (size_ v - 1) (capacity_ v)) ys /\
    heap w' = heap w.
Proof.
  intros Hv Hst. pose proof Hst as (Hsz & Hle & Hr & Hd).
  rewrite (pop_back_eq this w v Hv).
  rewrite length_app in Hsz. cbn [length] in Hsz.
  rewrite decide_False by lia.
  assert (Hdecr : SizeT.decr (size_ v) = size_ v - 1).
  { apply wrap_small. unfold SizeT.in_range in *. lia. }
  rewrite Hdecr. eexists. split; [reflexivity|].
  cbn [objs heap with_objs]. split; [apply lookup_insert_eq|].
  split; [|reflexivity].
  pose proof (stored_truncate w
    (with_objs (insert this (Vec (data_ v) (size_ v - 1) (capacity_ v))) w)
    v (ys ++ [y]) (size_ v - 1) Hst eq_refl ltac:(lia)) as Ht.
  replace (Z.to_nat (size_ v - 1)) with (length ys) in Ht by lia.
  now rewrite take_app_length in Ht.
Qed.

(** [pop_back()] on a valid vector: nothing happens on an empty one;
    otherwise the last element is dropped, and capacity, storage and heap
    stay as they are (the dropped slot is neither destroyed nor
    released). *)
Theorem pop_back_drops_last this (w : world T) v xs :
  objs w !! this = Some v -> stored w v xs ->
  (xs = [] -> pop_back this w = Ret tt w) /\
  (forall ys y, xs = ys ++ [y] ->
     exists w',
       pop_back this w = Ret tt w' /\
       objs w' !! this = Some (Vec (data_ v) (size_ v - 1) (capacity_ v)) /\
       stored w' (Vec (data_ v) (size_ v - 1) (capacity_ v)) ys /\
       heap w' = heap w /\
       (forall o, o <> this -> objs w' !! o = objs w !! o)).
Proof.
  intros Hv Hst. pose proof Hst as (Hsz & Hle & Hr & Hd).
  rewrite (pop_back_eq this w v Hv). split.
  - intros ->. cbn in Hsz. now rewrite decide_True.
  - intros ys y ->. rewrite length_app in Hsz. cbn [length] in Hsz.
    rewrite decide_False by lia.
    assert (Hdecr : SizeT.decr (size_ v) = size_ v - 1).
    { apply wrap_small. unfold SizeT.in_range in *. lia. }
    rewrite Hdecr. eexists. split; [reflexivity|].
    cbn [objs heap with_objs]. split; [apply lookup_insert_eq|].
    split.
    + pose proof (stored_truncate w
        (with_objs (insert this (Vec (data_ v) (size_ v - 1) (capacity_ v))) w)
        v (ys ++ [y]) (size_ v - 1) Hst eq_refl ltac:(lia)) as Ht.
      replace (Z.to_nat (size_ v - 1)) with (length ys) in Ht by lia.
      now rewrite take_app_length in Ht.
    + split; [reflexivity|].
      intros o Ho. now rewrite lookup_insert_ne by congruence.
Qed.

(** What [push_back] leaves when it returns: the vector holds one more
    element, the value the argument referred to when it was read. *)
Lemma push_back_stored this a (w w' : world T) v xs :
  objs w !! this = Some v -> stored w v xs -> capacity_ v < 2 ^ 63 ->
  push_back allocatable this a w = Ret tt w' ->
  exists x v', (forall y, a = Outside y -> x = y) /\
             objs w' !! this = Some v' /\ stored w' v' (xs ++ [x]) /\
             size_ v' = size_ v + 1 /\
             (forall o, o <> this -> objs w' !! o = objs w !! o) /\
             (forall q b, heap w !! q = Some b -> data_ v <> Some q ->
                heap w' !! q = Some b).
Proof.
  intros Hv Hst Hc E. pose proof (stored_size_nonneg _ _ _ Hst) as H0.
  pose proof Hst as (Hsz & Hle & Hr & Hd).
  assert (Hval : forall h x, referent h a = Some x -> forall y, a = Outside y -> x = y).
  { intros h x Hx y ->. cbn [referent] in Hx. congruence. }
  destruct (Z_lt_ge_dec (size_ v + 1) (capacity_ v)) as [Hlt | Hfull].
  - destruct (append_direct_ref allocatable this a w v xs Hv Hst ltac:(lia) Hlt)
      as (p & b & Hp & Hb & Ea).
    destruct (referent (heap w) a) as [x|] eqn:Hx.
    2:{ rewrite (push_back_undef _ _ _ _ Ea) in E. discriminate. }
    rewrite (push_back_of_append _ _ _ _ _ _ Ea) in E. injection E as <-.
    exists x. eexists. split; [exact (Hval _ _ Hx)|].
    cbn [objs heap]. split; [apply lookup_insert_eq|].
    split; [exact (stored_append_direct w v xs x p b _ Hst Hp Hb Hlt)|].
    split; [reflexivity|].
    split; [intros o Ho; now rewrite lookup_insert_ne by congruence|].
    intros q bq Hq Hne. rewrite lookup_insert_ne; [exact Hq | congruence].
  - destruct (allocatable (heap w) (alloc_size (capacity_ v + 1))) eqn:Ha.
    + pose proof (append_grow_ref allocatable this a w v xs Hv Hst Hc ltac:(lia) Ha)
        as Ea.
      destruct (alloc_size_bounds (capacity_ v + 1)) as ((Hge & Hmax) & _); [lia|].
      destruct (referent _ a) as [x|] eqn:Hx.
      2:{ rewrite (push_back_undef _ _ _ _ Ea) in E. discriminate. }
      rewrite (push_back_of_append _ _ _ _ _ _ Ea) in E. injection E as <-.
      exists x. eexists. split; [exact (Hval _ _ Hx)|].
      cbn [objs heap]. split; [apply lookup_insert_eq|].
      split.
      { apply (stored_append_grow w v xs x _ _ Hst); [lia|].
        unfold SizeT.in_range. rewrite modulus_eq. lia. }
      split; [reflexivity|].
      split; [intros o Ho; now rewrite lookup_insert_ne by congruence|].
      intros q bq Hq Hne. rewrite insert_release_lookup_other; [exact Hq | exact Hne|].
      exact (allocated_not_fresh _ _ _ Hq).
    + pose proof (append_refused allocatable this a w v Hv ltac:(lia) Hc
                    ltac:(lia) Ha) as Ea.
      unfold push_back in E. rewrite (bind_Throw _ _ _ _ _ Ea) in E. discriminate.
Qed.

(** [push_back] followed by [pop_back()] gives back a valid vector with the
    elements it had before (in a larger block when the push grew it). *)
Theorem push_back_pop_back this x (w w1 : world T) v xs :
  objs w !! this = Some v -> stored w v xs -> capacity_ v < 2 ^ 63 ->
  push_back allocatable this x w = Ret tt w1 ->
  exists w2 v2,
    pop_back this w1 = Ret tt w2 /\
    objs w2 !! this = Some v2 /\ stored w2 v2 xs /\
    size_ v2 = size_ v /\ heap w2 = heap w1.
Proof.
  intros Hv Hst Hc E.
  destruct (push_back_stored this x w w1 v xs Hv Hst Hc E)
    as (y & v1 & _ & Hv1 & Hst1 & Hs1 & _).
  destruct (pop_back_drops_last_aux this w1 v1 xs y Hv1 Hst1)
    as (w2 & E2 & Hv2 & Hst2 & Hh).
  exists w2, (Vec (data_ v1) (size_ v1 - 1) (capacity_ v1)).
  split; [exact E2|]. split; [exact Hv2|]. split; [exact Hst2|].
  cbn [size_]. split; [lia | exact Hh].
Qed.

End CapacityControl.

(** [reserve(10)] on [{10, 20, 30}] with capacity 4. *)
Lemma reserve_keeps_elements_witness :
  exists w' v',
    reserve grants_all 1%positive 10 three_vectors = Ret tt w' /\
    objs w' !! 1%positive = Some v' /\
    stored w' v' [10; 20; 30] /\ capacity_ v' = 10.
Proof.
  destruct three_vectors_stored as ((H1 & S1) & _).
  destruct (reserve_keeps_elements grants_all 1%positive 10 three_vectors _ _ H1 S1)
    as (_ & Hgrow).
  { unfold SizeT.in_range. rewrite modulus_eq. lia. }
  destruct Hgrow as (w' & v' & E & Hv & Hs & _ & Hc & _); [cbn [capacity_]; lia|].
  exists w', v'. auto.
Defined.

(** [resize(2)] on [{10, 20, 30}]. *)
Lemma resize_down_truncates_witness :
  exists w',
    resize grants_all 1%positive 2 three_vectors = Ret tt w' /\
    stored w' (Vec (Some 3%positive) 2 4) [10; 20].
Proof.
  destruct three_vectors_stored as ((H1 & S1) & _).
  destruct (resize_down_truncates grants_all 1%positive 2 three_vectors _ _ H1 S1)
    as (w' & E & _ & Hs & _).
  { cbn [size_]. lia. }
  exists w'. split; [exact E | exact Hs].
Defined.

(** [resize(6)] on [{10, 20, 30}] with capacity 4: a block of 8 slots whose
    slot 4 is raw. *)
Lemma resize_up_constructs_nothing_witness :
  exists w',
    resize grants_all 1%positive 6 three_vectors = Ret tt w' /\
    elem 1%positive 2 w' = Ret 30 w' /\
    elem 1%positive 4 w' = Undef.
Proof.
  destruct three_vectors_stored as ((H1 & S1) & _).
  destruct (resize_up_constructs_nothing grants_all 1%positive 6 three_vectors
              _ _ H1 S1) as (_ & Hgrow).
  { cbn [size_]. lia. }
  destruct Hgrow as (w' & b & E & _ & _ & _ & Hold & Hraw).
  { cbn [capacity_]. vm_compute. reflexivity. }
  exists w'. split; [exact E|]. split.
  - exact (proj2 (Hold 2%nat 30 eq_refl)).
  - apply (Hraw 4%nat). cbn [size_]. lia.
Defined.

(** [shrink_to_fit()] on [{10, 20, 30}] with capacity 4. *)
Lemma shrink_to_fit_tightens_witness :
  (exists w' v',
     shrink_to_fit grants_all true 1%positive three_vectors = Ret tt w' /\
     objs w' !! 1%positive = Some v' /\
     stored w' v' [10; 20; 30] /\ capacity_ v' = 3) /\
  shrink_to_fit grants_all false 1%positive three_vectors = Undef.
Proof.
  destruct three_vectors_stored as ((H1 & S1) & _).
  split.
  - destruct (shrink_to_fit_tightens grants_all true 1%positive three_vectors _ _ H1 S1)
      as (_ & Hgrow).
    destruct Hgrow as (w' & v' & E & Hv & Hs & Hc & _); [cbn [size_ capacity_]; lia|].
    exists w', v'. auto.
  - destruct (shrink_to_fit_tightens grants_all false 1%positive three_vectors _ _ H1 S1)
      as (_ & Hgrow).
    apply Hgrow. cbn [size_ capacity_]. lia.
Defined.

(** [pop_back()] on [{10, 20, 30}]. *)
Lemma pop_back_drops_last_witness :
  exists w',
    pop_back 1%positive three_vectors = Ret tt w' /\
    stored w' (Vec (Some 3%positive) 2 4) [10; 20].
Proof.
  destruct three_vectors_stored as ((H1 & S1) & _).
  destruct (pop_back_drops_last 1%positive three_vectors _ _ H1 S1) as (_ & Hpop).
  destruct (Hpop [10; 20] 30 eq_refl) as (w' & E & _ & Hs & _).
  exists w'. split; [exact E | exact Hs].
Defined.

(** [push_back(40)] then [pop_back()] on [{10, 20, 30}]. *)
Lemma push_back_pop_back_witness :
  exists w2 v2,
    pop_back 1%positive four_pushed = Ret tt w2 /\
    objs w2 !! 1%positive = Some v2 /\ stored w2 v2 [10; 20; 30].
Proof.
  destruct three_pushed_stored as [Hv Hst].
  destruct (push_back_pop_back grants_all 1%positive (Outside 40) three_pushed four_pushed
              _ _ Hv Hst) as (w2 & v2 & E & Hv2 & Hs2 & _).
  - cbn [capacity_]. lia.
  - vm_compute. reflexivity.
  - exists w2, v2. auto.
Defined.

(** ** The constructors *)

Section Constructors.

Context {T : Type} `{EqDecision T}.
Variable allocatable : gmap ptr (list (option T)) -> Z -> bool.

(** A loop that constructs the values [vals] slot by slot into the block
    [p], started with [done] already in place. *)
Lemma write_loop p (body : Z -> M (T:=T) unit) (vals : list T) :
  (forall j x (w0 : world T) b, vals !! j = Some x -> heap w0 !! p = Some b ->
     (j < length b)%nat ->
     body (Z.of_nat j) w0 =
       Ret tt (with_heap (insert p (<[j := Some x]> b)) w0)) ->
  forall todo done k (w : world T),
    vals = done ++ todo ->
    heap w !! p = Some ((Some <$> done) ++ replicate k None) ->
    (length todo <= k)%nat ->
    for_from (Z.of_nat (length done)) (length todo) body w =
      Ret tt (with_heap
        (insert p ((Some <$> vals) ++ replicate (k - length todo) None)) w).
Proof.
  intros Hbody. induction todo as [|y todo IH]; intros done k w Hvals Hp Hk.
  - cbn [length for_from]. rewrite Hvals, app_nil_r, Nat.sub_0_r.
    unfold ret, with_heap. rewrite insert_id by exact Hp.
    now rewrite world_eta.
  - cbn [length for_from]. destruct k as [|k]; [cbn in Hk; lia|].
    erewrite bind_Ret.
    2:{ apply (Hbody (length done) y w ((Some <$> done) ++ replicate (S k) None));
          [|exact Hp|].
        - rewrite Hvals. now rewrite lookup_app_r, Nat.sub_diag by lia.
        - rewrite length_app, length_fmap, length_replicate. lia. }
    rewrite <- (length_fmap Some done) at 2.
    rewrite insert_app_r_alt by lia. rewrite Nat.sub_diag.
    cbn [replicate insert list_insert].
    replace (Z.of_nat (length done) + 1) with (Z.of_nat (length (done ++ [y])))
      by (rewrite length_app; cbn; lia).
    rewrite (IH (done ++ [y]) k).
    + unfold with_heap. cbn [objs heap]. rewrite insert_insert_eq.
      cbn [length]. now rewrite Nat.sub_succ.
    + now rewrite <- app_assoc.
    + cbn [heap with_heap]. rewrite lookup_insert_eq.
      now rewrite fmap_app, <- app_assoc.
    + cbn in Hk. lia.
Qed.

Lemma block_of_full (xs : list T) :
  block_of xs (Z.of_nat (length xs)) = Some <$> xs.
Proof.
  unfold block_of. rewrite Nat2Z.id, Nat.sub_diag. apply app_nil_r.
Qed.

(** A vector that fills its block exactly. *)
Lemma stored_full (os : gmap loc vector) (h : gmap ptr (list (option T))) a xs :
  SizeT.in_range (Z.of_nat (length xs)) ->
  stored (World os (<[a := Some <$> xs]> h))
         (Vec (Some a) (Z.of_nat (length xs)) (Z.of_nat (length xs))) xs.
Proof.
  intros Hr. unfold stored. cbn [size_ capacity_ data_ heap].
  split; [reflexivity|]. split; [lia|]. split; [exact Hr|].
  eexists. rewrite lookup_insert_eq. split; [reflexivity|].
  rewrite length_fmap. split; [reflexivity|].
  rewrite <- (length_fmap Some xs). apply firstn_all.
Qed.

Lemma vector_ilist_Some this init (w : world T) :
  allocatable (heap w) (Z.of_nat (length init)) = true ->
  vector_ilist allocatable this init w =
    Ret tt (World
      (<[this := Vec (Some (fresh (dom (heap w))))
                     (Z.of_nat (length init)) (Z.of_nat (length init))]> (objs w))
      (<[fresh (dom (heap w)) := Some <$> init]> (heap w))).
Proof.
  intros Ha. set (a := fresh (dom (heap w))).
  unfold vector_ilist.
  assert (Hal : allocate allocatable (Z.of_nat (length init)) w =
    Ret a (with_heap (insert a (replicate (length init) None)) w)).
  { unfold allocate. rewrite Ha. now rewrite Nat2Z.id. }
  rewrite (bind_Ret _ _ _ _ _ Hal). clear Hal.
  unfold set_self at 1. erewrite bind_Ret by reflexivity.
  unfold for_upto. rewrite Nat2Z.id.
  erewrite (write_loop a _ init _ init [] (length init)).
  - unfold with_heap, with_objs. cbn [objs heap].
    rewrite insert_insert_eq, Nat.sub_diag. cbn [replicate].
    now rewrite app_nil_r.
  - reflexivity.
  - cbn [heap with_heap with_objs]. now rewrite lookup_insert_eq.
  - lia.
  Unshelve.
  intros j x w0 b Hj Hb Hlt. cbn beta. rewrite Nat2Z.id, Hj.
  now apply construct_Some.
Qed.

Lemma vector_sized_Some T_default this n (w : world T) :
  0 <= n -> allocatable (heap w) n = true ->
  vector_sized allocatable T_default this n w =
    Ret tt (World
      (<[this := Vec (Some (fresh (dom (heap w)))) n n]> (objs w))
      (<[fresh (dom (heap w)) := Some <$> replicate (Z.to_nat n) T_default]>
         (heap w))).
Proof.
  intros Hn Ha. set (a := fresh (dom (heap w))).
  unfold vector_sized.
  assert (Hal : allocate allocatable n w =
    Ret a (with_heap (insert a (replicate (Z.to_nat n) None)) w)).
  { unfold allocate. now rewrite Ha. }
  rewrite (bind_Ret _ _ _ _ _ Hal). clear Hal.
  unfold set_self at 1. erewrite bind_Ret by reflexivity.
  unfold for_upto.
  rewrite <- (length_replicate (Z.to_nat n) T_default) at 1.
  erewrite (write_loop a _ (replicate (Z.to_nat n) T_default) _
              (replicate (Z.to_nat n) T_default) [] (Z.to_nat n)).
  - unfold with_heap, with_objs. cbn [objs heap].
    rewrite insert_insert_eq, length_replicate, Nat.sub_diag. cbn [replicate].
    now rewrite app_nil_r.
  - reflexivity.
  - cbn [heap with_heap with_objs]. now rewrite lookup_insert_eq.
  - rewrite length_replicate. lia.
  Unshelve.
  intros j x w0 b Hj Hb Hlt. cbn beta.
  apply lookup_replicate in Hj as [-> _]. now apply construct_Some.
Qed.

(** [vector(n)]: when the allocator grants [n] slots, the new vector has
    size and capacity [n], holds [n] value-initialised elements in a new
    block, and nothing else changes; when it refuses, [bad_alloc] is thrown
    and no object is created. *)
Theorem vector_sized_fills T_default this n (w : world T) :
  SizeT.in_range n ->
  if allocatable (heap w) n then
    exists w',
      vector_sized allocatable T_default this n w = Ret tt w' /\
      objs w' !! this = Some (Vec (Some (fresh (dom (heap w)))) n n) /\
      stored w' (Vec (Some (fresh (dom (heap w)))) n n)
             (replicate (Z.to_nat n) T_default) /\
      (forall o, o <> this -> objs w' !! o = objs w !! o) /\
      (forall q b, heap w !! q = Some b -> heap w' !! q = Some b)
  else vector_sized allocatable T_default this n w = Throw bad_alloc w.
Proof.
  intros Hr. destruct (allocatable (heap w) n) eqn:Ha.
  - eexists. split; [apply vector_sized_Some; [apply Hr | exact Ha]|].
    cbn [objs heap]. split; [apply lookup_insert_eq|].
    split.
    { pose proof (stored_full (<[this := Vec (Some (fresh (dom (heap w)))) n n]> (objs w))
        (heap w) (fresh (dom (heap w))) (replicate (Z.to_nat n) T_default)) as Hs.
      rewrite length_replicate, Z2Nat.id in Hs by apply Hr. now apply Hs. }
    split; [intros o Ho; now rewrite lookup_insert_ne by congruence|].
    intros q b Hq. rewrite lookup_insert_ne; [exact Hq|].
    intros <-. exact (allocated_not_fresh _ _ _ Hq eq_refl).
  - unfold vector_sized. apply bind_Throw. unfold allocate. now rewrite Ha.
Qed.

(** [vector(std::initializer_list)]: when the allocator grants the
    request, the new vector holds exactly the listed values, with size and
    capacity the length of the list; when it refuses, [bad_alloc] is thrown
    and no object is created. *)
Theorem vector_ilist_holds this init (w : world T) :
  SizeT.in_range (Z.of_nat (length init)) ->
  if allocatable (heap w) (Z.of_nat (length init)) then
    exists w' v',
      vector_ilist allocatable this init w = Ret tt w' /\
      objs w' !! this = Some v' /\ stored w' v' init /\
      size_ v' = Z.of_nat (length init) /\
      capacity_ v' = Z.of_nat (length init) /\
      (forall i x, init !! i = Some x -> elem this (Z.of_nat i) w' = Ret x w') /\
      (forall o, o <> this -> objs w' !! o = objs w !! o) /\
      (forall q b, heap w !! q = Some b -> heap w' !! q = Some b)
  else vector_ilist allocatable this init w = Throw bad_alloc w.
Proof.
  intros Hr. destruct (allocatable (heap w) (Z.of_nat (length init))) eqn:Ha.
  - eexists _, _. split; [exact (vector_ilist_Some this init w Ha)|].
    cbn [objs heap].
    assert (Hs := stored_full
      (<[this := Vec (Some (fresh (dom (heap w)))) (Z.of_nat (length init))
                     (Z.of_nat (length init))]> (objs w))
      (heap w) (fresh (dom (heap w))) init Hr).
    split; [apply lookup_insert_eq|]. split; [exact Hs|].
    do 2 (split; [reflexivity|]).
    split.
    { intros i x Hi.
      eapply (elem_stored this);
        [cbn [objs]; apply lookup_insert_eq | exact Hs | exact Hi]. }
    split; [intros o Ho; now rewrite lookup_insert_ne by congruence|].
    intros q b Hq. rewrite lookup_insert_ne; [exact Hq|].
    intros <-. exact (allocated_not_fresh _ _ _ Hq eq_refl).
  - unfold vector_ilist. apply bind_Throw. unfold allocate. now rewrite Ha.
Qed.

End Constructors.

(** [vector<int> x(3)] *)
Lemma vector_sized_fills_witness :
  exists w',
    vector_sized grants_all 0 1%positive 3 (nowhere Z) = Ret tt w' /\
    stored w' (Vec (Some 1%positive) 3 3) [0; 0; 0].
Proof.
  pose proof (vector_sized_fills grants_all 0 1%positive 3 (nowhere Z)) as H.
  cbn [grants_all] in H. destruct H as (w' & E & _ & Hs & _).
  { unfold SizeT.in_range. rewrite modulus_eq. lia. }
  exists w'. split; [exact E | exact Hs].
Defined.

(** [vector<int> x{1, 2, 3}] *)
Lemma vector_ilist_holds_witness :
  exists w' v',
    vector_ilist grants_all 1%positive [1; 2; 3] (nowhere Z) = Ret tt w' /\
    objs w' !! 1%positive = Some v' /\ stored w' v' [1; 2; 3] /\
    elem 1%positive 0 w' = Ret 1 w'.
Proof.
  pose proof (vector_ilist_holds grants_all 1%positive [1; 2; 3] (nowhere Z)) as H.
  cbn [grants_all] in H. destruct H as (w' & v' & E & Hv & Hs & _ & _ & He & _).
  { unfold SizeT.in_range. rewrite modulus_eq. cbn. lia. }
  exists w', v'. repeat (split; [assumption|]).
  exact (He 0%nat 1 eq_refl).
Defined.

(** ** Copies, destruction and [swap] *)

Section Copies.

Context {T : Type} `{EqDecision T}.
Variable allocatable : gmap ptr (list (option T)) -> Z -> bool.

(** A copy sits in a block of its own and leaves the source valid. *)
Lemma vector_copy_stored this other (w : world T) vo xs :
  this <> other -> objs w !! other = Some vo -> stored w vo xs ->
  let a := fresh (dom (heap w)) in
  let vn := Vec (Some a) (size_ vo) (capacity_ vo) in
  let w' := World (<[this := vn]> (objs w))
                  (<[a := block_of xs (capacity_ vo)]> (heap w)) in
  objs w' !! this = Some vn /\ stored w' vn xs /\
  objs w' !! other = Some vo /\ stored w' vo xs /\
  data_ vn <> data_ vo.
Proof.
  intros Hne Ho Hso a vn w'. subst w' vn. cbn [objs heap].
  pose proof Hso as (Hsz & Hle & Hr & Hd).
  assert (Hfresh : forall p, data_ vo = Some p -> p <> a).
  { intros p Hp. rewrite Hp in Hd. destruct Hd as (b & Hb & _).
    exact (allocated_not_fresh _ _ _ Hb). }
  split; [apply lookup_insert_eq|]. split.
  { unfold stored. cbn [size_ capacity_ data_ heap].
    split; [exact Hsz|]. split; [exact Hle|]. split; [exact Hr|].
    eexists. rewrite lookup_insert_eq. split; [reflexivity|].
    split; [apply block_of_length; lia | apply block_of_take]. }
  split; [cbn [objs]; now rewrite lookup_insert_ne by congruence|].
  split.
  { apply (stored_frame w _ vo xs Hso). intros p Hp. cbn [heap].
    rewrite lookup_insert_ne; [reflexivity|].
    intros <-. exact (Hfresh _ Hp eq_refl). }
  cbn [data_]. intros E. symmetry in E. exact (Hfresh a E eq_refl).
Qed.

(** The copy constructor makes a deep copy: when the allocator grants
    [other.capacity_] slots, the new vector holds the same elements with the
    same size and capacity in a block of its own, and the source is
    unchanged; if the source has capacity above 0 the two compare equal.
    When the allocator refuses, [bad_alloc] is thrown and the store is
    unchanged. *)
Theorem vector_copy_is_deep this other (w : world T) vo xs :
  this <> other -> objs w !! other = Some vo -> stored w vo xs ->
  if allocatable (heap w) (capacity_ vo) then
    exists w' v',
      vector_copy allocatable this other w = Ret tt w' /\
      objs w' !! this = Some v' /\ stored w' v' xs /\
      size_ v' = size_ vo /\ capacity_ v' = capacity_ vo /\
      data_ v' <> data_ vo /\
      objs w' !! other = Some vo /\ stored w' vo xs /\
      (0 < capacity_ vo ->
         op_eq this other w' = Ret true w' /\ op_eq other this w' = Ret true w')
  else vector_copy allocatable this other w = Throw bad_alloc w.
Proof.
  intros Hne Ho Hso. destruct (allocatable (heap w) (capacity_ vo)) eqn:Ha.
  - destruct (vector_copy_stored this other w vo xs Hne Ho Hso)
      as (Hn & Hsn & Ho' & Hso' & Hdiff).
    eexists _, _.
    split; [exact (vector_copy_Some allocatable this other w vo xs Ho Hso Ha)|].
    split; [exact Hn|]. split; [exact Hsn|]. do 2 (split; [reflexivity|]).
    split; [exact Hdiff|]. split; [exact Ho'|]. split; [exact Hso'|].
    intros Hc.
    assert (Hnn : data_ vo <> None).
    { destruct Hso as (_ & _ & _ & Hd). destruct (data_ vo); [discriminate | lia]. }
    rewrite (op_eq_stored this other _ _ _ xs xs Hn Ho' Hsn Hso').
    rewrite (op_eq_stored other this _ _ _ xs xs Ho' Hn Hso' Hsn).
    split; f_equal; apply bool_decide_eq_true_2; repeat split;
      solve [exact Hnn | discriminate].
  - exact (vector_copy_refused allocatable this other w vo Ho Ha).
Qed.

(** A copy is independent of its source: after a [push_back] on the copy
    that returned, the copy holds one more element (the pushed value, for
    an argument outside the heap), the source still holds its elements and
    the two compare unequal. *)
Theorem copy_then_push_back_differs this other a (w w1 w2 : world T) vo xs :
  this <> other -> objs w !! other = Some vo -> stored w vo xs ->
  capacity_ vo < 2 ^ 63 ->
  vector_copy allocatable this other w = Ret tt w1 ->
  push_back allocatable this a w1 = Ret tt w2 ->
  objs w2 !! other = Some vo /\ stored w2 vo xs /\
  (exists x, (forall y, a = Outside y -> x = y) /\ holds w2 this (xs ++ [x])) /\
  op_ne other this w2 = Ret true w2 /\ op_eq other this w2 = Ret false w2.
Proof.
  intros Hne Ho Hso Hc E1 E2.
  destruct (allocatable (heap w) (capacity_ vo)) eqn:Ha.
  2:{ rewrite (vector_copy_refused allocatable this other w vo Ho Ha) in E1.
      discriminate. }
  rewrite (vector_copy_Some allocatable this other w vo xs Ho Hso Ha) in E1.
  injection E1 as <-.
  destruct (vector_copy_stored this other w vo xs Hne Ho Hso)
    as (Hn & Hsn & Ho' & Hso' & Hdiff).
  destruct (push_back_stored allocatable this a _ w2 _ xs Hn Hsn Hc E2)
    as (x & v2 & Hx & Hv2 & Hs2 & _ & Hothers & Hframe).
  assert (Ho2 : objs w2 !! other = Some vo).
  { rewrite Hothers by congruence. exact Ho'. }
  assert (Hso2 : stored w2 vo xs).
  { apply (stored_frame _ w2 vo xs Hso'). intros p Hp.
    destruct (stored_block _ vo xs p Hso' Hp) as (b & Hb & _).
    rewrite Hb. apply (Hframe p b Hb). cbn [data_] in *. congruence. }
  split; [exact Ho2|]. split; [exact Hso2|].
  split; [exists x; split; [exact Hx | now exists v2]|].
  assert (Heq : op_eq other this w2 = Ret false w2).
  { rewrite (op_eq_stored other this w2 vo v2 xs (xs ++ [x]) Ho2 Hv2 Hso2 Hs2).
    f_equal. apply bool_decide_eq_false_2. intros (_ & _ & E).
    apply (f_equal length) in E. rewrite length_app in E. cbn in E. lia. }
  split; [|exact Heq]. unfold op_ne. now rewrite (bind_Ret _ _ _ _ _ Heq).
Qed.

(** Constructing a copy and destroying it leaves the store exactly as it
    was: the block of the copy is released and the source is untouched. *)
Theorem copy_then_destroy_restores c other (w : world T) vo xs :
  objs w !! c = None -> objs w !! other = Some vo -> stored w vo xs ->
  allocatable (heap w) (capacity_ vo) = true ->
  bind (vector_copy allocatable c other) (fun _ => vector_dtor c) w = Ret tt w.
Proof.
  intros Hc Ho Hso Ha.
  rewrite (bind_Ret _ _ _ _ _ (vector_copy_Some allocatable c other w vo xs Ho Hso Ha)).
  pose proof Hso as (Hsz & Hle & Hr & _).
  erewrite (vector_dtor_Some c _ (Vec (Some (fresh (dom (heap w)))) (size_ vo)
                                      (capacity_ vo))).
  - cbn [objs heap data_ release].
    rewrite delete_insert_id by exact Hc.
    rewrite delete_insert_id by apply fresh_not_allocated.
    apply f_equal, world_eta.
  - cbn [objs]. apply lookup_insert_eq.
  - cbn [data_ heap capacity_]. eexists. rewrite lookup_insert_eq.
    split; [reflexivity | apply block_of_length; lia].
Qed.

(** Destroying a moved-from vector releases nothing: the heap is as before
    the move and the new owner keeps the storage and the elements. *)
Theorem moved_from_dtor_releases_nothing this other (w : world T) vo xs :
  this <> other -> objs w !! other = Some vo -> stored w vo xs ->
  exists w',
    bind (vector_move this other) (fun _ => vector_dtor other) w = Ret tt w' /\
    heap w' = heap w /\
    objs w' !! this = Some vo /\ stored w' vo xs /\
    objs w' !! other = None.
Proof.
  intros Hne Ho Hso.
  rewrite (bind_Ret _ _ _ _ _ (vector_move_Some this other w vo Ho)).
  erewrite (vector_dtor_Some other _ (Vec None 0 0)).
  - eexists. split; [reflexivity|]. cbn [objs heap with_objs data_ release].
    split; [reflexivity|].
    split; [rewrite lookup_delete_ne by congruence;
            rewrite lookup_insert_ne by congruence; apply lookup_insert_eq|].
    split; [now apply (stored_frame w _ vo xs Hso)|].
    apply lookup_delete_eq.
  - cbn [objs with_objs]. apply lookup_insert_eq.
  - exact I.
Qed.

(** [swap] exchanges the two vectors and touches no block: each object ends
    with the other's storage, size, capacity and elements; the free function
    does the same; swapping again restores the store. *)
Theorem swap_exchanges this other (w : world T) va vb xs ys :
  objs w !! this = Some va -> objs w !! other = Some vb ->
  stored w va xs -> stored w vb ys ->
  exists w',
    swap this other w = Ret tt w' /\
    swap_free this other w = Ret tt w' /\
    objs w' !! this = Some vb /\ objs w' !! other = Some va /\
    stored w' vb ys /\ stored w' va xs /\
    heap w' = heap w /\
    (forall o, o <> this -> o <> other -> objs w' !! o = objs w !! o) /\
    swap this other w' = Ret tt w.
Proof.
  intros Ha Hb Hsa Hsb.
  pose proof (swap_Some this other w va vb Ha Hb) as E.
  set (w' := with_objs (fun os => <[this := vb]> (<[other := va]> os)) w) in *.
  assert (Ht : objs w' !! this = Some vb) by apply lookup_insert_eq.
  assert (Hov : objs w' !! other = Some va).
  { unfold w'. cbn [objs with_objs].
    destruct (decide (this = other)) as [<- | Hne].
    - rewrite lookup_insert_eq. congruence.
    - rewrite lookup_insert_ne by exact Hne. apply lookup_insert_eq. }
  exists w'. split; [exact E|]. split; [exact E|].
  split; [exact Ht|]. split; [exact Hov|].
  split; [now apply (stored_frame w _ vb ys Hsb)|].
  split; [now apply (stored_frame w _ va xs Hsa)|].
  split; [reflexivity|].
  split.
  { intros o H1 H2. unfold w'. cbn [objs with_objs].
    now rewrite !lookup_insert_ne by congruence. }
  rewrite (swap_Some this other w' vb va Ht Hov).
  unfold w', with_objs. cbn [objs heap]. rewrite <- (world_eta w) at 3.
  do 2 f_equal. apply map_eq. intros k.
  destruct (decide (this = k)) as [<- | Hk1]; [now rewrite lookup_insert_eq|].
  rewrite lookup_insert_ne by exact Hk1.
  destruct (decide (other = k)) as [<- | Hk2]; [now rewrite lookup_insert_eq|].
  now rewrite !lookup_insert_ne by assumption.
Qed.

End Copies.

(** A copy of [{10, 20, 30}] (capacity 4) at a new address. *)
Lemma vector_copy_is_deep_witness :
  exists w' v',
    vector_copy grants_all 4%positive 1%positive three_vectors = Ret tt w' /\
    objs w' !! 4%positive = Some v' /\ stored w' v' [10; 20; 30] /\
    op_eq 4%positive 1%positive w' = Ret true w'.
Proof.
  destruct three_vectors_stored as ((H1 & S1) & _).
  pose proof (vector_copy_is_deep grants_all 4%positive 1%positive three_vectors
                _ _ ltac:(discriminate) H1 S1) as H.
  cbn [grants_all] in H.
  destruct H as (w' & v' & E & Hv & Hs & _ & _ & _ & _ & _ & Heq).
  destruct Heq as [Heq _]; [cbn [capacity_]; lia|].
  exists w', v'. auto.
Defined.

(** The copy after [push_back(40)] differs from [{10, 20, 30}]. *)
Lemma copy_then_push_back_differs_witness :
  stored copied_pushed (Vec (Some 3%positive) 3 4) [10; 20; 30] /\
  op_ne 1%positive 4%positive copied_pushed = Ret true copied_pushed.
Proof.
  destruct three_vectors_stored as ((H1 & S1) & _).
  destruct (copy_then_push_back_differs grants_all 4%positive 1%positive (Outside 40)
              three_vectors copied copied_pushed _ _
              ltac:(discriminate) H1 S1) as (_ & Hs & _ & Hne & _).
  - cbn [capacity_]. lia.
  - vm_compute. reflexivity.
  - vm_compute. reflexivity.
  - split; [exact Hs | exact Hne].
Defined.

(** Copying vector 1 to a new address and destroying the copy. *)
Lemma copy_then_destroy_restores_witness :
  bind (vector_copy grants_all 4%positive 1%positive)
       (fun _ => vector_dtor 4%positive) three_vectors
  = Ret tt three_vectors.
Proof.
  destruct three_vectors_stored as ((H1 & S1) & _).
  apply (copy_then_destroy_restores grants_all 4%positive 1%positive
           three_vectors _ _ ltac:(vm_compute; reflexivity) H1 S1).
  reflexivity.
Defined.

(** Moving vector 1 to a new address and destroying vector 1. *)
Lemma moved_from_dtor_releases_nothing_witness :
  exists w',
    bind (vector_move 4%positive 1%positive)
         (fun _ => vector_dtor 1%positive) three_vectors = Ret tt w' /\
    heap w' = heap three_vectors /\
    stored w' (Vec (Some 3%positive) 3 4) [10; 20; 30].
Proof.
  destruct three_vectors_stored as ((H1 & S1) & _).
  destruct (moved_from_dtor_releases_nothing 4%positive 1%positive three_vectors
              _ _ ltac:(discriminate) H1 S1) as (w' & E & Hh & _ & Hs & _).
  exists w'. auto.
Defined.

(** Swapping [{10, 20, 30}] and [{1, 2}]. *)
Lemma swap_exchanges_witness :
  exists w',
    swap 1%positive 3%positive three_vectors = Ret tt w' /\
    stored w' (Vec (Some 5%positive) 2 2) [1; 2] /\
    objs w' !! 1%positive = Some (Vec (Some 5%positive) 2 2) /\
    swap 1%positive 3%positive w' = Ret tt three_vectors.
Proof.
  destruct three_vectors_stored as ((H1 & S1) & _ & (H3 & S3)).
  destruct (swap_exchanges 1%positive 3%positive three_vectors _ _ _ _ H1 H3 S1 S3)
    as (w' & E & _ & Ht & _ & Hs & _ & _ & _ & Hback).
  exists w'. auto.
Defined.

(** ** Observers and unchecked access *)

Section Observers.

Context {T : Type} `{EqDecision T}.

(** On a valid vector [empty()] answers whether there is no element: the
    second test, [capacity_ == 0], never changes the answer. *)
Theorem empty_iff_no_elements this (w : world T) v xs :
  objs w !! this = Some v -> stored w v xs ->
  empty this w = Ret (bool_decide (xs = [])) w.
Proof.
  intros Hv (Hsz & Hle & Hr & _). unfold empty.
  rewrite (bind_Ret _ _ _ _ _ (self_Some _ _ _ Hv)). unfold ret. f_equal.
  destruct xs as [|x xs].
  - cbn in Hsz. rewrite Hsz. reflexivity.
  - cbn [length] in Hsz. rewrite bool_decide_eq_false_2 by discriminate.
    destruct (Z.eqb_spec (size_ v) 0); [lia|].
    destruct (Z.eqb_spec (capacity_ v) 0); [lia | reflexivity].
Qed.

(** [front()] and [back()] read the first and the last element of a
    non-empty valid vector. They check nothing: on an empty vector [back()]
    designates the slot before the block, and on a vector that never
    allocated [front()] dereferences null; reading either is undefined. *)
Theorem front_back_read_ends this (w : world T) v xs :
  objs w !! this = Some v -> stored w v xs ->
  (forall x rest, xs = x :: rest -> bind (front this) deref w = Ret x w) /\
  (forall rest y, xs = rest ++ [y] -> bind (back this) deref w = Ret y w) /\
  (xs = [] -> bind (back this) deref w = Undef) /\
  (data_ v = None -> bind (front this) deref w = Undef).
Proof.
  intros Hv Hst. pose proof Hst as (Hsz & Hle & Hr & Hd).
  assert (Hf : front this w = Ret (Ref (data_ v) 0) w).
  { unfold front. now rewrite (bind_Ret _ _ _ _ _ (self_Some _ _ _ Hv)). }
  assert (Hb : back this w = Ret (Ref (data_ v) (size_ v - 1)) w).
  { unfold back. now rewrite (bind_Ret _ _ _ _ _ (self_Some _ _ _ Hv)). }
  rewrite (bind_Ret _ _ _ _ _ Hf), (bind_Ret _ _ _ _ _ Hb).
  unfold deref. cbn [ref_base ref_index].
  assert (Hread : forall i x, xs !! i = Some x ->
            load (data_ v) (Z.of_nat i) w = Ret x w).
  { intros i x Hi. pose proof (elem_stored this w v xs i x Hv Hst Hi) as He.
    unfold elem in He.
    now rewrite (bind_Ret _ _ _ _ _ (subscript_Some _ _ _ _ Hv)) in He. }
  split; [|split; [|split]].
  - intros x rest ->. exact (Hread 0%nat x eq_refl).
  - intros rest y ->. rewrite length_app in Hsz. cbn [length] in Hsz.
    replace (size_ v - 1) with (Z.of_nat (length rest)) by lia.
    apply Hread. now rewrite lookup_app_r, Nat.sub_diag by lia.
  - intros ->. cbn in Hsz. rewrite Hsz. unfold load.
    destruct (data_ v) as [p|]; [|reflexivity].
    destruct (heap w !! p) as [b|]; reflexivity.
  - intros ->. reflexivity.
Qed.

(** [operator[]] never throws, whatever the index. Below the size it
    designates the slot [at] returns and reads the element; from the
    capacity on, where [at] throws, reading through it is undefined. *)
Theorem subscript_unchecked this i (w : world T) v xs :
  objs w !! this = Some v -> stored w v xs -> 0 <= i ->
  subscript this i w = Ret (Ref (data_ v) i) w /\
  (i < size_ v ->
     at_ this i w = subscript this i w /\
     exists x, xs !! Z.to_nat i = Some x /\ elem this i w = Ret x w) /\
  (capacity_ v <= i ->
     at_ this i w = Throw array_out_of_range w /\ elem this i w = Undef).
Proof.
  intros Hv Hst Hi. pose proof Hst as (Hsz & Hle & Hr & Hd).
  pose proof (subscript_Some this w v i Hv) as Hs.
  assert (Hat : at_ this i w =
    if i >=? size_ v then Throw array_out_of_range w else Ret (Ref (data_ v) i) w).
  { unfold at_. rewrite (bind_Ret _ _ _ _ _ (self_Some _ _ _ Hv)).
    now destruct (i >=? size_ v). }
  split; [exact Hs|]. split.
  - intros Hlt. rewrite Hat, Hs.
    destruct (Z.geb_spec i (size_ v)); [lia|]. split; [reflexivity|].
    destruct (lookup_lt_is_Some_2 xs (Z.to_nat i)) as (x & Hx); [lia|].
    exists x. split; [exact Hx|].
    pose proof (elem_stored this w v xs _ x Hv Hst Hx) as He.
    now rewrite Z2Nat.id in He by exact Hi.
  - intros Hge. rewrite Hat.
    destruct (Z.geb_spec i (size_ v)); [|lia]. split; [reflexivity|].
    unfold elem. rewrite (bind_Ret _ _ _ _ _ Hs).
    unfold deref, load. cbn [ref_base ref_index].
    destruct (data_ v) as [p|]; [|reflexivity].
    destruct Hd as (b & Hb & Hlen & _). rewrite Hb.
    unfold in_block. destruct (Z.ltb_spec i (Z.of_nat (length b))); [lia|].
    now rewrite andb_false_r.
Qed.

End Observers.

(** [{10, 20, 30}] is not empty. *)
Lemma empty_iff_no_elements_witness :
  empty 1%positive three_vectors = Ret false three_vectors.
Proof.
  destruct three_vectors_stored as ((H1 & S1) & _).
  exact (empty_iff_no_elements 1%positive three_vectors _ _ H1 S1).
Defined.

(** [front()] and [back()] of [{10, 20, 30}]. *)
Lemma front_back_read_ends_witness :
  bind (front 1%positive) deref three_vectors = Ret 10 three_vectors /\
  bind (back 1%positive) deref three_vectors = Ret 30 three_vectors.
Proof.
  destruct three_vectors_stored as ((H1 & S1) & _).
  destruct (front_back_read_ends 1%positive three_vectors _ _ H1 S1)
    as (Hf & Hb & _).
  split; [exact (Hf 10 [20; 30] eq_refl) | exact (Hb [10; 20] 30 eq_refl)].
Defined.

(** [x[1]] and [x[4]] on [{10, 20, 30}] with capacity 4. *)
Lemma subscript_unchecked_witness :
  elem 1%positive 1 three_vectors = Ret 20 three_vectors /\
  elem 1%positive 4 three_vectors = Undef.
Proof.
  destruct three_vectors_stored as ((H1 & S1) & _).
  destruct (subscript_unchecked 1%positive 1 three_vectors _ _ H1 S1 ltac:(lia))
    as (_ & Hin & _).
  destruct (subscript_unchecked 1%positive 4 three_vectors _ _ H1 S1 ltac:(lia))
    as (_ & _ & Hout).
  destruct Hin as (_ & x & Hx & E); [cbn [size_]; lia|].
  injection Hx as <-. split; [exact E|].
  apply Hout. cbn [capacity_]. lia.
Defined.

(** ** Runs of [push_back] within the capacity, and assignment *)

Section Runs.

Context {T : Type} `{EqDecision T}.
Variable allocatable : gmap ptr (list (option T)) -> Z -> bool.

(** As long as the elements pushed leave one slot free
    ([size + length ys < capacity]), a run of [push_back]s works in place:
    it returns whatever the allocator would answer, allocates and releases
    nothing, keeps storage and capacity, and the vector holds the old
    elements followed by the new ones. *)
Theorem push_back_all_in_place this ys : forall (w : world T) v xs,
  objs w !! this = Some v -> stored w v xs -> capacity_ v <= 2 ^ 63 ->
  size_ v + Z.of_nat (length ys) < capacity_ v ->
  exists w',
    push_back_all allocatable this ys w = Ret tt w' /\
    objs w' !! this =
      Some (Vec (data_ v) (size_ v + Z.of_nat (length ys)) (capacity_ v)) /\
    stored w' (Vec (data_ v) (size_ v + Z.of_nat (length ys)) (capacity_ v))
           (xs ++ ys) /\
    dom (heap w') = dom (heap w) /\
    (forall o, o <> this -> objs w' !! o = objs w !! o).
Proof.
  induction ys as [|y ys IH]; intros w v xs Hv Hst Hc Hroom.
  - exists w. cbn [push_back_all length]. rewrite Z.add_0_r, app_nil_r, vector_eta.
    split; [reflexivity|]. split; [exact Hv|]. split; [exact Hst|].
    split; reflexivity.
  - cbn [length] in Hroom. cbn [push_back_all].
    destruct (append_direct allocatable this y w v xs Hv Hst Hc ltac:(lia))
      as (p & b & Hp & Hb & E).
    rewrite (bind_Ret _ _ _ _ _ (push_back_of_append _ _ _ _ _ _ E)).
    pose proof (stored_append_direct w v xs y p b
      (<[this := Vec (Some p) (size_ v + 1) (capacity_ v)]> (objs w))
      Hst Hp Hb ltac:(lia)) as Hst1.
    destruct (IH _ (Vec (Some p) (size_ v + 1) (capacity_ v)) (xs ++ [y])
                (lookup_insert_eq _ _ _) Hst1 Hc)
      as (w' & E' & Hv' & Hst' & Hdom & Hothers).
    { cbn [size_ capacity_]. lia. }
    cbn [data_ size_ capacity_] in *.
    replace (size_ v + 1 + Z.of_nat (length ys))
      with (size_ v + Z.of_nat (S (length ys))) in * by lia.
    rewrite <- app_assoc in Hst'. cbn [app] in Hst'.
    exists w'. rewrite Hp. cbn [length].
    split; [exact E'|]. split; [exact Hv'|]. split; [exact Hst'|].
    split.
    + rewrite Hdom. cbn [heap]. apply dom_insert_lookup_L. now rewrite Hb.
    + intros o Ho. rewrite Hothers by exact Ho. cbn [objs].
      now rewrite lookup_insert_ne by congruence.
Qed.

(** Assignment from an initializer list: when the allocator grants the
    request, the target holds exactly the listed values in a new block of
    that many slots, its old block is released and no other vector changes;
    when it refuses, [bad_alloc] is thrown and the store is unchanged. *)
Theorem assign_ilist_replaces this init (w : world T) vt ts :
  objs w !! this = Some vt -> stored w vt ts ->
  SizeT.in_range (Z.of_nat (length init)) ->
  if allocatable (heap w) (Z.of_nat (length init)) then
    exists w' v',
      assign_ilist allocatable this init w = Ret tt w' /\
      objs w' !! this = Some v' /\ stored w' v' init /\
      capacity_ v' = Z.of_nat (length init) /\
      (forall p, data_ vt = Some p -> heap w' !! p = None) /\
      (forall o, o <> this -> objs w' !! o = objs w !! o) /\
      (forall q, data_ vt <> Some q -> q <> fresh (dom (heap w)) ->
         heap w' !! q = heap w !! q)
  else assign_ilist allocatable this init w = Throw bad_alloc w.
Proof.
  intros Ht Hst Hr.
  set (c := fresh (dom (objs w))). set (a := fresh (dom (heap w))).
  assert (Hc : objs w !! c = None) by apply fresh_not_object.
  assert (Htc : this <> c) by exact (object_not_fresh _ _ _ Ht).
  unfold assign_ilist. rewrite (bind_Ret _ _ _ c w) by reflexivity.
  destruct (allocatable (heap w) (Z.of_nat (length init))) eqn:Ha.
  - set (vn := Vec (Some a) (Z.of_nat (length init)) (Z.of_nat (length init))).
    rewrite (bind_Ret _ _ _ _ _ (vector_ilist_Some allocatable c init w Ha)).
    fold a vn.
    erewrite bind_Ret.
    2:{ apply (swap_Some c this _ vn vt); cbn [objs].
        - apply lookup_insert_eq.
        - now rewrite lookup_insert_ne by congruence. }
    unfold with_objs. cbn [objs heap].
    assert (Hta : data_ vt <> Some a).
    { intros Hp. destruct (stored_block w vt ts a Hst Hp) as (b & Hb & _).
      exact (allocated_not_fresh _ _ _ Hb eq_refl). }
    erewrite (vector_dtor_Some c _ vt).
    + cbn [objs heap]. rewrite temporary_removed by assumption.
      eexists _, vn. split; [reflexivity|]. cbn [objs heap].
      split; [apply lookup_insert_eq|].
      split.
      { pose proof (stored_full (<[this := vn]> (objs w)) (heap w) a init Hr) as Hs.
        apply (stored_frame _ _ vn init Hs). intros p [= <-]. cbn [heap].
        destruct (data_ vt) as [q|]; cbn [release]; [|reflexivity].
        apply lookup_delete_ne. congruence. }
      split; [reflexivity|].
      split.
      { intros p Hp. rewrite Hp. cbn [release]. apply lookup_delete_eq. }
      split; [intros o Ho; now rewrite lookup_insert_ne by congruence|].
      intros q Hq Hqa. destruct (data_ vt) as [p|]; cbn [release].
      * rewrite lookup_delete_ne by congruence.
        now rewrite lookup_insert_ne by congruence.
      * now rewrite lookup_insert_ne by congruence.
    + cbn [objs]. apply lookup_insert_eq.
    + cbn [heap]. destruct (data_ vt) as [p|] eqn:Hp; [|exact I].
      destruct (stored_block w vt ts p Hst Hp) as (b & Hb & Hlen).
      exists b. split; [|exact Hlen].
      rewrite lookup_insert_ne; [exact Hb | congruence].
  - apply bind_Throw. unfold vector_ilist. apply bind_Throw.
    unfold allocate. now rewrite Ha.
Qed.

(** After a copy assignment that returns, the target compares equal to the
    source (for a source with capacity above 0). *)
Theorem assign_copy_makes_equal this other (w w' : world T) vt ts vo xs :
  other <> this ->
  objs w !! this = Some vt -> stored w vt ts ->
  objs w !! other = Some vo -> stored w vo xs ->
  (forall p, data_ vt = Some p -> data_ vo <> Some p) ->
  0 < capacity_ vo ->
  assign_copy allocatable this other w = Ret tt w' ->
  op_eq this other w' = Ret true w' /\ op_eq other this w' = Ret true w' /\
  holds w' this xs /\ holds w' other xs.
Proof.
  intros Hne Ht Hst Ho Hso Hsep Hcap E.
  destruct (allocatable (heap w) (capacity_ vo)) eqn:Ha.
  2:{ rewrite (assign_copy_refused allocatable this other w vo Hne Ho Ha) in E.
      discriminate. }
  rewrite (assign_copy_Some allocatable this other w vt ts vo xs Hne Ht Hst Ho Hso Ha)
    in E.
  injection E as <-.
  set (a := fresh (dom (heap w))).
  set (vn := Vec (Some a) (size_ vo) (capacity_ vo)).
  destruct (vector_copy_stored this other w vo xs ltac:(congruence) Ho Hso)
    as (_ & Hsn & _ & Hso' & _).
  fold a vn in Hsn, Hso'.
  set (w' := World (<[this := vn]> (objs w))
                   (release (data_ vt) (<[a := block_of xs (capacity_ vo)]> (heap w)))).
  assert (Hta : data_ vt <> Some a).
  { intros Hp. destruct (stored_block w vt ts a Hst Hp) as (b & Hb & _).
    exact (allocated_not_fresh _ _ _ Hb eq_refl). }
  assert (Hkeep : forall q, data_ vt <> Some q ->
            heap w' !! q = (<[a := block_of xs (capacity_ vo)]> (heap w)) !! q).
  { intros q Hq. unfold w'. cbn [heap].
    destruct (data_ vt) as [p|]; cbn [release]; [|reflexivity].
    apply lookup_delete_ne. congruence. }
  assert (Hn' : objs w' !! this = Some vn) by apply lookup_insert_eq.
  assert (Ho' : objs w' !! other = Some vo).
  { unfold w'. cbn [objs]. now rewrite lookup_insert_ne by congruence. }
  assert (Hsn' : stored w' vn xs).
  { apply (stored_frame _ w' vn xs Hsn). intros p [= <-]. now apply Hkeep. }
  assert (Hso'' : stored w' vo xs).
  { apply (stored_frame _ w' vo xs Hso'). intros p Hp. apply Hkeep.
    intros Hq. exact (Hsep p Hq Hp). }
  assert (Hnn : data_ vo <> None).
  { destruct Hso as (_ & _ & _ & Hd). destruct (data_ vo); [discriminate | lia]. }
  rewrite (op_eq_stored this other w' vn vo xs xs Hn' Ho' Hsn' Hso'').
  rewrite (op_eq_stored other this w' vo vn xs xs Ho' Hn' Hso'' Hsn').
  split; [|split; [|split; [now exists vn | now exists vo]]];
    f_equal; apply bool_decide_eq_true_2; repeat split;
    solve [exact Hnn | discriminate].
Qed.

End Runs.

(** Vector 1 of [reserved] holds 10, 20, 30 in a block of ten slots. *)
Lemma reserved_stored :
  objs reserved !! 1%positive = Some (Vec (Some 6%positive) 3 10) /\
  stored reserved (Vec (Some 6%positive) 3 10) [10; 20; 30].
Proof.
  split; [vm_compute; reflexivity|].
  unfold stored. cbn [size_ capacity_ data_ length].
  split; [reflexivity|]. split; [lia|].
  split; [unfold SizeT.in_range; rewrite modulus_eq; lia|].
  exists [Some 10; Some 20; Some 30; None; None; None; None; None; None; None].
  split; [vm_compute; reflexivity|]. split; reflexivity.
Defined.

(** After [reserve(10)], three more elements go in without the allocator:
    the run returns even with an allocator that refuses every request. *)
Lemma push_back_all_in_place_witness :
  exists w',
    push_back_all grants_none 1%positive [40; 50; 60] reserved = Ret tt w' /\
    stored w' (Vec (Some 6%positive) 6 10) [10; 20; 30; 40; 50; 60] /\
    dom (heap w') = dom (heap reserved).
Proof.
  destruct reserved_stored as [Hv Hst].
  destruct (push_back_all_in_place grants_none 1%positive [40; 50; 60]
              reserved _ _ Hv Hst) as (w' & E & _ & Hs & Hdom & _).
  - cbn [capacity_]. lia.
  - cbn [size_ capacity_ length]. lia.
  - exists w'. split; [exact E|]. split; [exact Hs | exact Hdom].
Defined.

(** [x = {7, 8, 9}] on the vector [{1, 2}]. *)
Lemma assign_ilist_replaces_witness :
  exists w' v',
    assign_ilist grants_all 3%positive [7; 8; 9] three_vectors = Ret tt w' /\
    objs w' !! 3%positive = Some v' /\ stored w' v' [7; 8; 9] /\
    heap w' !! 5%positive = None.
Proof.
  destruct three_vectors_stored as (_ & _ & (H3 & S3)).
  pose proof (assign_ilist_replaces grants_all 3%positive [7; 8; 9] three_vectors
                _ _ H3 S3) as H.
  cbn [grants_all] in H.
  destruct H as (w' & v' & E & Hv & Hs & _ & Hold & _).
  { unfold SizeT.in_range. rewrite modulus_eq. cbn. lia. }
  exists w', v'. repeat (split; [assumption|]).
  exact (Hold 5%positive eq_refl).
Defined.

(** After [x3 = x1], the two vectors compare equal. *)
Lemma assign_copy_makes_equal_witness :
  op_eq 3%positive 1%positive assigned = Ret true assigned.
Proof.
  destruct three_vectors_stored as ((H1 & S1) & _ & (H3 & S3)).
  destruct (assign_copy_makes_equal grants_all 3%positive 1%positive
              three_vectors assigned _ _ _ _
              ltac:(discriminate) H3 S3 H1 S1) as (Heq & _).
  - intros p [= <-]. discriminate.
  - cbn [capacity_]. lia.
  - vm_compute. reflexivity.
  - exact Heq.
Defined.

(** [push_back(10)] on a default-constructed vector keeps
    [size <= capacity]. *)
Lemma size_le_capacity_preserved_witness :
  all_size_le_capacity one_pushed.
Proof.
  apply (size_le_capacity_preserved grants_all true 1%positive (PushBack (Outside 10))
           (fresh_world Z) one_pushed).
  - intros o v Hv. unfold fresh_world in Hv. cbn [objs] in Hv.
    apply lookup_singleton_Some in Hv as [_ <-]. cbn. lia.
  - split; [exists (Vec None 0 0); reflexivity|].
    intros v Hv. unfold fresh_world in Hv. cbn [objs] in Hv.
    apply lookup_singleton_Some in Hv as [_ <-]. cbn. lia.
  - vm_compute. reflexivity.
Defined.

(** [vector<int>{1, 2, 3}] in the empty store satisfies [size <= capacity]. *)
Lemma constructed_size_le_capacity_witness :
  all_size_le_capacity
    (after (vector_ilist grants_all 1%positive [1; 2; 3]) (nowhere Z)).
Proof.
  apply (constructed_size_le_capacity grants_all 0 1%positive (nowhere Z)).
  - intros o v Hv. cbn in Hv. rewrite lookup_empty in Hv. discriminate.
  - right. right. right. right. exists [1; 2; 3]. vm_compute. reflexivity.
Defined.

(** ** [push_back] of an element of a vector *)

Section ElementArguments.

Context {T : Type} `{EqDecision T}.
Variable allocatable : gmap ptr (list (option T)) -> Z -> bool.

Lemma referent_frame (h h' : gmap ptr (list (option T))) q i :
  h' !! q = h !! q ->
  referent h' (Slot (Ref (Some q) i)) = referent h (Slot (Ref (Some q) i)).
Proof. intros Hq. cbn [referent]. now rewrite Hq. Qed.

(** [x.push_back(x[i])] with a margin above one: no reallocation, so the
    reference stays valid and the vector ends with a copy of its element.
    Nothing is allocated or released, whatever the allocator would
    answer. *)
Theorem push_back_own_element_in_place this i x (w : world T) v xs :
  objs w !! this = Some v -> stored w v xs -> capacity_ v < 2 ^ 63 ->
  1 < capacity_ v - size_ v -> xs !! i = Some x ->
  exists w' v',
    push_back_from allocatable this this (Z.of_nat i) w = Ret tt w' /\
    appended this v xs x w' v' /\
    data_ v' = data_ v /\ capacity_ v' = capacity_ v /\
    dom (heap w') = dom (heap w).
Proof.
  intros Hv Hst Hc Hlt Hi.
  assert (Hp : exists p, data_ v = Some p).
  { destruct Hst as (Hsz & Hle & _ & Hd). destruct (data_ v) as [p|]; [now eexists|].
    apply lookup_lt_Some in Hi. lia. }
  destruct Hp as (p & Hp).
  pose proof (referent_stored w v xs p i x Hst Hp Hi) as Href.
  unfold push_back_from. rewrite (bind_Ret _ _ _ _ _ (subscript_Some _ _ _ _ Hv)).
  replace (Ref (data_ v) (Z.of_nat i)) with (Ref (Some p) (Z.of_nat i))
    by now rewrite Hp.
  destruct (push_back_appends allocatable this (Slot (Ref (Some p) (Z.of_nat i)))
              w v xs Hv Hst Hc)
    as [(_ & H) | [(Hfull & _) | (Hfull & _)]]; [|lia|lia].
  rewrite Href in H.
  destruct H as (w' & v' & E & Happ & Hd & Hcap & Hdom & _).
  exists w', v'. auto.
Qed.

(** [x.push_back(y[i])] for an element of another vector [y]: the block of
    [y] is not touched by the call, so the reference stays valid also when
    [x] reallocates. The call returns with [x] holding one more element,
    equal to [y[i]], and [y] unchanged; or the growth is refused and it
    throws [bad_alloc] with the store unchanged. *)
Theorem push_back_element_of_other this src i y (w : world T) v xs vs ys :
  this <> src ->
  objs w !! this = Some v -> stored w v xs -> capacity_ v < 2 ^ 63 ->
  objs w !! src = Some vs -> stored w vs ys -> ys !! i = Some y ->
  (forall p, data_ v = Some p -> data_ vs <> Some p) ->
  (exists w' v',
     push_back_from allocatable this src (Z.of_nat i) w = Ret tt w' /\
     appended this v xs y w' v' /\
     objs w' !! src = Some vs /\ stored w' vs ys) \/
  (push_back_from allocatable this src (Z.of_nat i) w = Throw bad_alloc w /\
   capacity_ v <= size_ v + 1 /\
   allocatable (heap w) (alloc_size (capacity_ v + 1)) = false).
Proof.
  intros Hne Hv Hst Hc Hs Hss Hi Hsep.
  assert (Hq : exists q b, data_ vs = Some q /\ heap w !! q = Some b).
  { pose proof Hss as (Hsz & Hle & _ & Hd). destruct (data_ vs) as [q|].
    - destruct Hd as (b & Hb & _). exists q, b. split; [reflexivity | exact Hb].
    - apply lookup_lt_Some in Hi. lia. }
  destruct Hq as (q & b & Hq & Hb).
  assert (Hqv : data_ v <> Some q).
  { intros Hp. exact (Hsep q Hp Hq). }
  pose proof (referent_stored w vs ys q i y Hss Hq Hi) as Href.
  unfold push_back_from. rewrite (bind_Ret _ _ _ _ _ (subscript_Some _ _ _ _ Hs)).
  replace (Ref (data_ vs) (Z.of_nat i)) with (Ref (Some q) (Z.of_nat i))
    by now rewrite Hq.
  destruct (push_back_appends allocatable this (Slot (Ref (Some q) (Z.of_nat i)))
              w v xs Hv Hst Hc)
    as [(_ & H) | [(Hfull & Ha & H) | (Hfull & Ha & E)]].
  - rewrite Href in H.
    destruct H as (w' & v' & E & Happ & _ & _ & _ & Hheap & Hobjs).
    left. exists w', v'. split; [exact E|]. split; [exact Happ|].
    split; [rewrite Hobjs by congruence; exact Hs|].
    apply (stored_frame w w' vs ys Hss). intros p Hp.
    apply Hheap. congruence.
  - rewrite (referent_frame (heap w)), Href in H.
    2:{ apply insert_release_lookup_other; [exact Hqv|].
        exact (allocated_not_fresh _ _ _ Hb). }
    destruct H as (w' & v' & E & Happ & _ & _ & _ & _ & Hheap & Hobjs).
    left. exists w', v'. split; [exact E|]. split; [exact Happ|].
    split; [rewrite Hobjs by congruence; exact Hs|].
    apply (stored_frame w w' vs ys Hss). intros p Hp.
    apply Hheap; [congruence|].
    assert (p = q) as -> by congruence.
    exact (allocated_not_fresh _ _ _ Hb).
  - right. auto.
Qed.

End ElementArguments.

(** [x.push_back(x[0])] on [{10, 20, 30}] after [reserve(10)]. *)
Lemma push_back_own_element_in_place_witness :
  exists w' v',
    push_back_from grants_none 1%positive 1%positive 0 reserved = Ret tt w' /\
    objs w' !! 1%positive = Some v' /\
    stored w' v' [10; 20; 30; 10].
Proof.
  destruct reserved_stored as [Hv Hst].
  destruct (push_back_own_element_in_place grants_none 1%positive 0%nat 10 reserved
              _ [10; 20; 30] Hv Hst) as (w' & v' & E & (Hv' & Hst' & _) & _).
  - cbn [capacity_]. lia.
  - cbn [capacity_ size_]. lia.
  - reflexivity.
  - exists w', v'. auto.
Defined.

(** [x.push_back(y[1])] with [x = {10, 20, 30}] at capacity 4 and
    [y = {1, 2}]: [x] reallocates and ends with 2. *)
Lemma push_back_element_of_other_witness :
  exists w' v',
    push_back_from grants_all 1%positive 3%positive 1 three_vectors = Ret tt w' /\
    objs w' !! 1%positive = Some v' /\
    stored w' v' [10; 20; 30; 2].
Proof.
  destruct three_vectors_stored as ((H1 & S1) & _ & (H3 & S3)).
  destruct (push_back_element_of_other grants_all 1%positive 3%positive 1%nat 2
              three_vectors _ [10; 20; 30] _ [1; 2]
              ltac:(discriminate) H1 S1 ltac:(cbn [capacity_]; lia) H3 S3 eq_refl)
    as [(w' & v' & E & (Hv' & Hst' & _) & _) | (_ & _ & Ha)].
  - intros p [= <-]. discriminate.
  - exists w', v'. auto.
  - discriminate Ha.
Defined.
